(** * Score adjustment: a shallow embedding of [score_adjustments.py]

    The module adjusts judged project scores with pandas and numpy.  The
    embedding keeps the vectorised shape of the source: column statistics
    ([DataFrame.mean], [.std], [.var] along axis 0), broadcasting of a per-judge
    Series over the rows of the table, the row reduction [np.sum(..., axis=1)]
    (which pandas runs with [skipna=True]), min-max normalisation, the
    descending [sort_values], and the label based lookups of the attendance
    blend.

    Numbers are exact reals extended with the IEEE special values [NaN],
    [+inf] and [-inf]: rounding, overflow and the sign of zero are abstracted
    away, the propagation of special values is kept.  A score table holds
    finite reals (spec section 3). *)

From Stdlib Require Import Reals Lra Lia List String ZArith Permutation Sorted.
From stdpp Require Import base list gmap strings.
Import ListNotations.
Open Scope R_scope.

(** ** Labels

    pandas index labels and dict keys are dynamically typed; the tools of this
    repository use project names (str) and project numbers (int). *)

Inductive label : Type :=
| LStr (s : string)
| LInt (n : Z).

#[global] Instance label_eq_dec : EqDecision label.
Proof. solve_decision. Defined.

Definition label_to_sum (l : label) : string + Z :=
  match l with LStr s => inl s | LInt n => inr n end.

Definition label_of_sum (x : string + Z) : label :=
  match x with inl s => LStr s | inr n => LInt n end.

#[global] Instance label_countable : Countable label.
Proof. apply (inj_countable' label_to_sum label_of_sum). by intros []. Defined.

Definition is_str (l : label) : Prop := match l with LStr _ => True | LInt _ => False end.
Definition is_int (l : label) : Prop := match l with LInt _ => True | LStr _ => False end.

Definition label_eqb (a b : label) : bool := bool_decide (a = b).

Definition label_mem (k : label) (ks : list label) : bool :=
  existsb (label_eqb k) ks.

(** ** Numbers *)

Inductive num : Type :=
| Fin (x : R)
| PInf
| NInf
| NaN.

Definition isnan (v : num) : bool :=
  match v with NaN => true | _ => false end.

Definition notnan (v : num) : bool := negb (isnan v).

Definition is_fin (v : num) : Prop :=
  match v with Fin _ => True | _ => False end.

(** Sign of a real, as [np.sign] gives it on finite values. *)
Definition sgn (x : R) : R :=
  if Rlt_dec 0 x then 1 else if Rlt_dec x 0 then -1 else 0.

(** Sign of a value that is not NaN. *)
Definition sign_of (v : num) : R :=
  match v with Fin x => sgn x | PInf => 1 | NInf => -1 | NaN => 0 end.

(** The infinity of a given sign; a zero sign is the invalid operation. *)
Definition inf_of_sign (s : R) : num :=
  if Rlt_dec 0 s then PInf else if Rlt_dec s 0 then NInf else NaN.

Definition nneg (a : num) : num :=
  match a with Fin x => Fin (- x) | PInf => NInf | NInf => PInf | NaN => NaN end.

Definition nadd (a b : num) : num :=
  match a, b with
  | NaN, _ | _, NaN => NaN
  | Fin x, Fin y => Fin (x + y)
  | PInf, NInf | NInf, PInf => NaN
  | PInf, _ | _, PInf => PInf
  | NInf, _ | _, NInf => NInf
  end.

Definition nsub (a b : num) : num := nadd a (nneg b).

Definition nmul (a b : num) : num :=
  match a, b with
  | NaN, _ | _, NaN => NaN
  | Fin x, Fin y => Fin (x * y)
  | _, _ => inf_of_sign (sign_of a * sign_of b)
  end.

Definition ndiv (a b : num) : num :=
  match a, b with
  | NaN, _ | _, NaN => NaN
  | Fin x, Fin y => if Req_dec_T y 0 then inf_of_sign (sgn x) else Fin (x / y)
  | Fin _, _ => Fin 0
  | _, Fin y => inf_of_sign (sign_of a * (if Rlt_dec y 0 then -1 else 1))
  | _, _ => NaN
  end.

Definition nabs (a : num) : num :=
  match a with Fin x => Fin (Rabs x) | PInf | NInf => PInf | NaN => NaN end.

(** [np.sign]: the sign of NaN is NaN. *)
Definition nsign (a : num) : num :=
  match a with NaN => NaN | _ => Fin (sign_of a) end.

(** [np.sqrt] *)
Definition nsqrt (a : num) : num :=
  match a with
  | Fin x => if Rlt_dec x 0 then NaN else Fin (sqrt x)
  | PInf => PInf
  | NInf | NaN => NaN
  end.

Definition is_integer (y : R) : bool :=
  if Req_dec_T (IZR (Int_part y)) y then true else false.

Definition is_odd_integer (y : R) : bool :=
  is_integer y && Z.odd (Int_part y).

(** [x ** y] for a float array [x] and a finite Python scalar [y]: the C99
    [pow] table.  Anything to the power 0 is 1, NaN included. *)
Definition npow (x : num) (y : R) : num :=
  if Req_dec_T y 0 then Fin 1 else
  match x with
  | NaN => NaN
  | Fin r =>
      if Rlt_dec 0 r then Fin (Rpower r y)
      else if Req_dec_T r 0 then (if Rlt_dec 0 y then Fin 0 else PInf)
      else if is_integer y
           then Fin (if Z.odd (Int_part y) then - Rpower (- r) y else Rpower (- r) y)
           else NaN
  | PInf => if Rlt_dec 0 y then PInf else Fin 0
  | NInf => if Rlt_dec 0 y
            then (if is_odd_integer y then NInf else PInf)
            else Fin 0
  end.

(** Order on values that are not NaN. *)
Definition nleb (a b : num) : bool :=
  match a, b with
  | NaN, _ | _, NaN => false
  | NInf, _ | _, PInf => true
  | Fin x, Fin y => if Rle_dec x y then true else false
  | _, _ => false
  end.

Definition nltb (a b : num) : bool := nleb a b && negb (nleb b a).

Definition nmin (a b : num) : num := if nleb a b then a else b.
Definition nmax (a b : num) : num := if nleb a b then b else a.

(** ** Python exceptions

    [KeyError] carries the labels that were not found.  [IndexJoin] is not an
    exception: where two Series with different indexes are added, pandas
    aligns them by an outer join and returns a Series, which this development
    does not describe.  In the blend that happens only when an attendance
    label is repeated; with distinct attendance labels the two indexes are
    identical and the sum is taken position by position. *)

Inductive result (A : Type) : Type :=
| Ok (a : A)
| KeyError (missing : list label)
| ZeroDivisionError
| IndexJoin.

Arguments Ok {A} a.
Arguments KeyError {A} missing.
Arguments ZeroDivisionError {A}.
Arguments IndexJoin {A}.

Definition bind {A B : Type} (r : result A) (k : A -> result B) : result B :=
  match r with
  | Ok a => k a
  | KeyError ks => KeyError ks
  | ZeroDivisionError => ZeroDivisionError
  | IndexJoin => IndexJoin
  end.

#[global] Instance result_bind : MBind result := fun A B k r => bind r k.

Definition raises {A : Type} (r : result A) : Prop :=
  match r with KeyError _ | ZeroDivisionError => True | Ok _ | IndexJoin => False end.

(** Python's [a / b] on finite scalars. *)
Definition py_div (a b : R) : result R :=
  if Req_dec_T b 0 then ZeroDivisionError else Ok (a / b).

(** ** Series and DataFrame *)

(** A [pd.Series] of floats: labelled values, in order; labels may repeat. *)
Definition Series : Type := list (label * num).

Definition index (s : Series) : list label := map fst s.
Definition values (s : Series) : list num := map snd s.

(** [pd.Series(values, index=index)] *)
Definition mkSeries (idx : list label) (vs : list num) : Series := combine idx vs.

Definition series_map (f : num -> num) (s : Series) : Series :=
  map (fun e => (fst e, f (snd e))) s.

(** The score table: one row per project, one column per judge, row-major. *)
Record DataFrame : Type := mkDataFrame {
  df_index : list label;
  df_columns : list label;
  df_values : list (list R)
}.

(** The table is rectangular: a label per row, a cell per judge in every row. *)
Definition wf_frame (df : DataFrame) : Prop :=
  length (df_index df) = length (df_values df) /\
  Forall (fun r => length r = length (df_columns df)) (df_values df).

Definition n_judges (df : DataFrame) : nat := length (df_columns df).

(** Judge [j]'s scores over all projects. *)
Definition column (j : nat) (df : DataFrame) : list R :=
  map (fun r => nth j r 0) (df_values df).

Definition Rsum (xs : list R) : R := fold_right Rplus 0 xs.

(** pandas reductions skip NaN: [nansum] replaces NaN by 0 and adds up. *)
Definition fill0 (v : num) : num := if isnan v then Fin 0 else v.

Definition nansum (vs : list num) : num :=
  fold_right nadd (Fin 0) (map fill0 vs).

(** [Series.min()] and [Series.max()]: NaN is skipped, and the result is NaN
    when nothing is left. *)
Definition nanmin (vs : list num) : num :=
  match List.filter notnan vs with
  | [] => NaN
  | v :: rest => fold_left nmin rest v
  end.

Definition nanmax (vs : list num) : num :=
  match List.filter notnan vs with
  | [] => NaN
  | v :: rest => fold_left nmax rest v
  end.

(** [nanmean] of a column of finite values: the sum over the count. *)
Definition mean (xs : list R) : num :=
  ndiv (Fin (Rsum xs)) (Fin (INR (length xs))).

(** [nanvar] with [ddof=1]: NaN unless there are at least two values. *)
Definition var (xs : list R) : num :=
  let count := length xs in
  if (count <=? 1)%nat then NaN
  else
    let avg := Rsum xs / INR count in
    Fin (Rsum (map (fun x => Rsqr (avg - x)) xs) / (INR count - 1)).

Definition std (xs : list R) : num := nsqrt (var xs).

(** A reduction along axis 0 gives one value per judge, labelled by the
    table's columns. *)
Definition reduce_axis0 (f : list R -> num) (df : DataFrame) : Series :=
  mkSeries (df_columns df) (map (fun j => f (column j df)) (seq 0 (n_judges df))).

Definition df_mean : DataFrame -> Series := reduce_axis0 mean.
Definition df_std : DataFrame -> Series := reduce_axis0 std.
Definition df_var : DataFrame -> Series := reduce_axis0 var.

(** Intermediate tables keep the labels of [scores]; only their cells are
    carried along. *)
Definition cells : Type := list (list num).

Definition frame_values (df : DataFrame) : cells := map (map Fin) (df_values df).

(** [frame op series]: the Series is indexed by the table's columns, so pandas
    lines it up with the columns and broadcasts it over the rows. *)
Definition broadcast (f : num -> num -> num) (m : cells) (s : Series) : cells :=
  map (fun r => zip_with f r (values s)) m.

(** [frame op frame] on two tables with the same labels. *)
Definition cellwise (f : num -> num -> num) (m1 m2 : cells) : cells :=
  zip_with (zip_with f) m1 m2.

Definition cells_map (f : num -> num) (m : cells) : cells := map (map f) m.

(** [np.sum(frame, axis=1)] calls [DataFrame.sum(axis=1)], which skips NaN. *)
Definition sum_axis1 (idx : list label) (m : cells) : Series :=
  mkSeries idx (map nansum m).

(** [Series.sum()] *)
Definition series_sum (s : Series) : num := nansum (values s).

(** A Series of finite values. *)
Definition finite_series (s : list (label * R)) : Series :=
  map (fun e => (fst e, Fin (snd e))) s.

(** A Series whose values are all [c]. *)
Definition constant_series (idx : list label) (c : num) : Series :=
  map (fun p => (p, c)) idx.

(** The value stored under a label (first match). *)
Fixpoint series_get (s : Series) (k : label) : option num :=
  match s with
  | [] => None
  | (l, v) :: rest => if label_eqb l k then Some v else series_get rest k
  end.

(** The value stored under a label, NaN when there is none. *)
Definition series_at (s : Series) (k : label) : num :=
  match series_get s k with Some v => v | None => NaN end.

(** ** The module's functions *)

(** [_normalize]: [(arr - a) / (b - a)] with [a], [b] the minimum and maximum. *)
Definition _normalize (arr : Series) : Series :=
  let a := nanmin (values arr) in
  let b := nanmax (values arr) in
  series_map (fun x => ndiv (nsub x a) (nsub b a)) arr.

(** [sort_values(ascending=False)]: descending, NaN last.  numpy's sort
    (quicksort, which is not stable) leaves the order of equal values open;
    here they keep their input order. *)
Fixpoint insert_desc (e : label * num) (l : Series) : Series :=
  match l with
  | [] => [e]
  | h :: t => if nltb (snd e) (snd h) then h :: insert_desc e t else e :: h :: t
  end.

Definition sort_desc (s : Series) : Series := fold_right insert_desc [] s.

Definition sort_values (s : Series) : Series :=
  sort_desc (List.filter (fun e => notnan (snd e)) s)
  ++ List.filter (fun e => isnan (snd e)) s.

Definition kappa_cells (scores : DataFrame) (kappa inv : R) : cells :=
  let avg_scores := df_mean scores in
  let std_scores := df_std scores in
  let centered := broadcast nsub (frame_values scores) avg_scores in
  cellwise nmul
    (cells_map nsign centered)
    (cells_map (fun v => npow v inv)
       (broadcast nmul (cells_map nabs centered)
          (series_map (fun s => npow s kappa) std_scores))).

(** One cell of the table built by [kappa_adjusted], for score [x] in judge
    column [c]. *)
Definition kappa_cell (kappa inv x : R) (c : list R) : num :=
  let d := nsub (Fin x) (mean c) in
  nmul (nsign d) (npow (nmul (nabs d) (npow (std c) kappa)) inv).

(** [kappa] is a real number: a Python float, or an int that a double can
    hold.  (An int beyond that range makes numpy raise [OverflowError] in
    [std_scores**kappa]; such a [kappa] is outside this model.) *)
Definition kappa_adjusted (scores : DataFrame) (kappa : R) (normalize : bool)
  : result Series :=
  inv ← py_div 1 (1 + kappa);
  let adjusted_scores := sum_axis1 (df_index scores) (kappa_cells scores kappa inv) in
  let normalized_scores :=
    if normalize then _normalize adjusted_scores else adjusted_scores in
  Ok (sort_values normalized_scores).

Definition pv_weights (scores : DataFrame) : Series :=
  let std_scores := df_var scores in
  let total := series_sum std_scores in
  series_map (fun v => ndiv v total) std_scores.

Definition pv_cells (scores : DataFrame) : cells :=
  map (fun r => zip_with nmul (values (pv_weights scores)) r) (frame_values scores).

Definition proportional_variance (scores : DataFrame) (normalize : bool)
  : result Series :=
  let adjusted_scores := sum_axis1 (df_index scores) (pv_cells scores) in
  let normalized_scores :=
    if normalize then _normalize adjusted_scores else adjusted_scores in
  Ok (sort_values normalized_scores).

(** [[mapping[x] for x in idx]]: the first key that is missing raises. *)
Fixpoint translate_index (mapping : gmap label label) (idx : list label)
  : result (list label) :=
  match idx with
  | [] => Ok []
  | x :: rest =>
      match mapping !! x with
      | None => KeyError [x]
      | Some y => ys ← translate_index mapping rest; Ok (y :: ys)
      end
  end.

(** [s.loc[keys]] with a list of labels: every row whose label is requested,
    in the order of [keys]; a requested label that is not in the index raises
    [KeyError] naming the missing labels. *)
Definition loc (s : Series) (keys : list label) : result Series :=
  match List.filter (fun k => negb (label_mem k (index s))) keys with
  | [] => Ok (flat_map (fun k => List.filter (fun e => label_eqb (fst e) k) s) keys)
  | missing => KeyError missing
  end.

(** [a + b] on two Series: position by position when the indexes are
    identical; otherwise the Series pandas returns after aligning the two
    indexes, left open as [IndexJoin]. *)
Definition series_add (a b : Series) : result Series :=
  if decide (index a = index b)
  then Ok (mkSeries (index a) (zip_with nadd (values a) (values b)))
  else IndexJoin.

Definition series_scale (s : Series) (c : R) : Series :=
  series_map (fun v => nmul v (Fin c)) s.

(** The [if mapping is not None] step: the attendance Series is rebuilt with
    every one of its labels sent through [mapping]. *)
Definition remap_attendance (attendance : Series)
  (mapping : option (gmap label label)) : result Series :=
  match mapping with
  | Some m =>
      idx ← translate_index m (index attendance);
      Ok (mkSeries idx (values attendance))
  | None => Ok attendance
  end.

Definition showcase_prescreening_score
  (scores attendance : Series) (attendance_ratio : R)
  (mapping : option (gmap label label)) : result Series :=
  attendance' ← remap_attendance attendance mapping;
  picked ← loc attendance' (index scores);
  series_add (series_scale scores (1 - attendance_ratio))
             (series_scale picked attendance_ratio).

(** ** The specification's formulas, over the reals *)

(** Judge mean [mu_j]. *)
Definition mu (c : list R) : R := Rsum c / INR (length c).

(** Judge variance [v_j] (sample variance, [n - 1] in the denominator). *)
Definition variance (c : list R) : R :=
  Rsum (map (fun x => Rsqr (x - mu c)) c) / (INR (length c) - 1).

(** Judge sample standard deviation [sigma_j]. *)
Definition sigma (c : list R) : R := sqrt (variance c).

(** [sign(d) * (|d| * sigma^kappa)^(1/(1+kappa))] for [d = x - mu]. *)
Definition kappa_term (kappa : R) (x : R) (c : list R) : R :=
  let d := x - mu c in
  sgn d * Rpower (Rabs d * Rpower (sigma c) kappa) (1 / (1 + kappa)).

(** The sum over the judges [j] of project [row]'s terms. *)
Definition kappa_score (df : DataFrame) (kappa : R) (row : list R) : R :=
  Rsum (map (fun j => kappa_term kappa (nth j row 0) (column j df))
            (seq 0 (n_judges df))).

Definition kappa_spec (df : DataFrame) (kappa : R) : Series :=
  mkSeries (df_index df) (map (fun r => Fin (kappa_score df kappa r)) (df_values df)).

(** The kappa = 0 reading: the plain sum of signed absolute deviations. *)
Definition deviation_score (df : DataFrame) (row : list R) : R :=
  Rsum (map (fun j => let d := nth j row 0 - mu (column j df) in sgn d * Rabs d)
            (seq 0 (n_judges df))).

Definition deviation_spec (df : DataFrame) : Series :=
  mkSeries (df_index df) (map (fun r => Fin (deviation_score df r)) (df_values df)).

(** Weight [w_j = v_j / sum_k v_k]. *)
Definition total_variance (df : DataFrame) : R :=
  Rsum (map (fun k => variance (column k df)) (seq 0 (n_judges df))).

Definition weight (df : DataFrame) (j : nat) : R :=
  variance (column j df) / total_variance df.

Definition weighted_score (df : DataFrame) (row : list R) : R :=
  Rsum (map (fun j => weight df j * nth j row 0) (seq 0 (n_judges df))).

Definition weighted_spec (df : DataFrame) : Series :=
  mkSeries (df_index df) (map (fun r => Fin (weighted_score df r)) (df_values df)).

(** Descending order with NaN last, on the entries of a Series. *)
Definition desc_nan_last (a b : label * num) : Prop :=
  isnan (snd b) = true \/
  (isnan (snd a) = false /\ isnan (snd b) = false /\ nleb (snd b) (snd a) = true).

(** Descending order on entries that are not NaN. *)
Definition desc_entries (a b : label * num) : Prop :=
  isnan (snd a) = false /\ isnan (snd b) = false /\ nleb (snd b) (snd a) = true.

(** The specification's [translate]: the identity without a mapping, the
    mapping from score identifiers to attendance identifiers otherwise. *)
Definition translate (mapping : option (gmap label label)) (p : label) : option label :=
  match mapping with
  | None => Some p
  | Some m => m !! p
  end.

(** The blend the specification describes:
    [scores[p] * (1 - r) + attendance[translate(p)] * r]. *)
Fixpoint blend_spec (scores attendance : Series) (r : R)
  (mapping : option (gmap label label)) : option Series :=
  match scores with
  | [] => Some []
  | (p, s) :: rest =>
      match translate mapping p with
      | None => None
      | Some a =>
          match series_get attendance a with
          | None => None
          | Some v =>
              match blend_spec rest attendance r mapping with
              | None => None
              | Some res =>
                  Some ((p, nadd (nmul s (Fin (1 - r))) (nmul v (Fin r))) :: res)
              end
          end
      end
  end.

(** The annotation [dict[str, int]] itself. *)
Definition str_int_mapping (m : gmap label label) : Prop :=
  forall k v, m !! k = Some v -> is_str k /\ is_int v.

(** Least and greatest element of a list of reals. *)
Definition is_min (m : R) (xs : list R) : Prop := In m xs /\ Forall (fun x => m <= x) xs.
Definition is_max (m : R) (xs : list R) : Prop := In m xs /\ Forall (fun x => x <= m) xs.

(** [(x - a) / (b - a)] *)
Definition rescale (a b x : R) : R := (x - a) / (b - a).

(** Two values of a list differ. *)
Definition two_distinct (vs : list num) : Prop :=
  exists u v, In u vs /\ In v vs /\ u <> v.

(** Every value of a list is [c]. *)
Definition all_equal (c : num) (vs : list num) : Prop := Forall (fun v => v = c) vs.

(** ** Example inputs *)

(** The table of the specification's scenario: projects P1 and P2, judges A
    and B. *)
Definition demo_scores : DataFrame :=
  mkDataFrame [LStr "P1"; LStr "P2"] [LStr "A"; LStr "B"] [[8; 6]; [4; 9]].

(** The blend scenario of the specification, with the attendance keyed by
    project number and a name to number mapping, as the docstring of
    [showcase_prescreening_score] describes it. *)
Definition demo_adjusted : Series :=
  finite_series [(LStr "P1", 8 / 10); (LStr "P2", 3 / 10)].

Definition demo_attendance : Series :=
  finite_series [(LInt 1, 5 / 10); (LInt 2, 1)].

Definition demo_attendance_by_name : Series :=
  finite_series [(LStr "P1", 5 / 10); (LStr "P2", 1)].

Definition demo_mapping : gmap label label :=
  <[LStr "P1" := LInt 1]> (<[LStr "P2" := LInt 2]> ∅).

Definition demo_attendance_short : Series :=
  finite_series [(LInt 1, 5 / 10)].

(** A renumbering of the projects (old number 1 is new number 2, old number 2
    is new number 3) read as a mapping from score identifiers to attendance
    identifiers, one score under the number 2 and one attendance row under
    the number 1. *)
Definition renumbering : gmap label label :=
  <[LInt 1 := LInt 2]> (<[LInt 2 := LInt 3]> ∅).

Definition renumbered_scores : Series := finite_series [(LInt 2, 8 / 10)].

Definition first_attendance : Series := finite_series [(LInt 1, 5 / 10)].

(** Degenerate tables: no project, no judge, a single project. *)
Definition no_projects : DataFrame :=
  mkDataFrame [] [LStr "A"; LStr "B"] [].

Definition no_judges : DataFrame :=
  mkDataFrame [LStr "P1"; LStr "P2"] [] [[]; []].

Definition one_project : DataFrame :=
  mkDataFrame [LStr "P1"] [LStr "A"; LStr "B"] [[8; 6]].

(** A table in which judge B gives every project the same score. *)
Definition flat_judge : DataFrame :=
  mkDataFrame [LStr "P1"; LStr "P2"] [LStr "A"; LStr "B"] [[8; 5]; [4; 5]].

(** The dictionary [get_number_name_pairs] of [score_tools.py] builds: project
    number to project name. *)
Definition number_name_pairs : gmap label label :=
  <[LInt 1 := LStr "P1"]> (<[LInt 2 := LStr "P2"]> ∅).

(** The same dictionary without the entry of project 2. *)
Definition number_name_pairs_partial : gmap label label :=
  <[LInt 1 := LStr "P1"]> ∅.

(** ** Transformations of a score table *)


(** Every score of the table lies between [lo] and [hi]. *)
Definition scores_within (lo hi : R) (df : DataFrame) : Prop :=
  Forall (Forall (fun x => lo <= x <= hi)) (df_values df).

(** Every value of a Series is a finite number in [[0, 1]]. *)
Definition unit_valued (s : Series) : Prop :=
  Forall (fun v => exists y, v = Fin y /\ 0 <= y <= 1) (values s).

(** ** Preprocessing tools ([score_tools.py])

    The three tools read a spreadsheet from a CSV file, a Google sheet or a
    DataFrame handed in by the caller, and reshape it with pandas.  What the
    file system and the network deliver is a parameter of the model; the
    reshaping is embedded. *)

(** A spreadsheet cell: a string or an integer, a float, or an empty (NaN)
    cell. *)
Inductive cell : Type :=
| CLabel (l : label)
| CNum (x : R)
| CMissing.

(** A column of a raw DataFrame with its label and whether its dtype is a
    number dtype. *)
Record Column : Type := mkColumn {
  col_name : label;
  col_numeric : bool;
  col_cells : list cell
}.

Record RawFrame : Type := mkRawFrame {
  rf_index : list cell;
  rf_columns : list Column
}.

Definition column_names (raw : RawFrame) : list label := map col_name (rf_columns raw).

(** Column labels are distinct and every column has [n] cells. *)
Definition wf_raw (n : nat) (raw : RawFrame) : Prop :=
  List.NoDup (column_names raw) /\
  Forall (fun c => length (col_cells c) = n) (rf_columns raw).

(** What a tool does: it returns, or raises one of the exceptions of the
    source.  [ValueError] and [TypeError] are the exceptions of the argument
    checks ([TypeError] also that of subscripting [None]), [AttributeError]
    that of [None.copy()], [ColumnKeyError] the [KeyError] of pandas for
    missing column labels.  [LoadFailed] stands for any exception raised
    while the file or the sheet is read, whatever its class.  [Unmodelled]
    marks what the model leaves open: a column label that several columns
    carry, and a dictionary key or value that is neither a string nor an
    integer. *)
Inductive outcome (A : Type) : Type :=
| Done (a : A)
| ValueError
| TypeError
| AttributeError
| ColumnKeyError (missing : list label)
| LoadFailed
| Unmodelled.

Arguments Done {A} a.
Arguments ValueError {A}.
Arguments TypeError {A}.
Arguments AttributeError {A}.
Arguments ColumnKeyError {A} missing.
Arguments LoadFailed {A}.
Arguments Unmodelled {A}.

Definition outcome_bind {A B : Type} (r : outcome A) (k : A -> outcome B) : outcome B :=
  match r with
  | Done a => k a
  | ValueError => ValueError
  | TypeError => TypeError
  | AttributeError => AttributeError
  | ColumnKeyError ks => ColumnKeyError ks
  | LoadFailed => LoadFailed
  | Unmodelled => Unmodelled
  end.

#[global] Instance outcome_mbind : MBind outcome := fun A B k r => outcome_bind r k.

Definition given {A : Type} (o : option A) : bool :=
  match o with Some _ => true | None => false end.

Definition loaded (r : option RawFrame) : outcome RawFrame :=
  match r with Some f => Done f | None => LoadFailed end.

(** [frame[key]] for a label that at most one column carries.  With a label
    that several columns carry pandas hands back a DataFrame and not a
    column; that case is left open ([Unmodelled]). *)
Definition get_column (raw : RawFrame) (key : label) : outcome Column :=
  match List.filter (fun c => label_eqb (col_name c) key) (rf_columns raw) with
  | [] => ColumnKeyError [key]
  | [c] => Done c
  | _ :: _ :: _ => Unmodelled
  end.

(** [frame.set_index(key, inplace=True, drop=True)] with a column label. *)
Definition set_index (raw : RawFrame) (key : label) : outcome RawFrame :=
  c ← get_column raw key;
  Done (mkRawFrame (col_cells c)
          (List.filter (fun c => negb (label_eqb (col_name c) key)) (rf_columns raw))).

(** [frame.drop(labels, inplace=True, axis=1)]: every label must be a column. *)
Definition drop_columns (raw : RawFrame) (labels : list label) : outcome RawFrame :=
  match List.filter (fun k => negb (label_mem k (column_names raw))) labels with
  | [] => Done (mkRawFrame (rf_index raw)
                  (List.filter (fun c => negb (label_mem (col_name c) labels))
                               (rf_columns raw)))
  | missing => ColumnKeyError missing
  end.

(** [frame.select_dtypes(['number'])] *)
Definition select_number (raw : RawFrame) : RawFrame :=
  mkRawFrame (rf_index raw) (List.filter col_numeric (rf_columns raw)).

Definition present (c : cell) : bool :=
  match c with CMissing => false | _ => true end.

(** [frame.count(axis=1)] at row [i]: the columns whose cell is not empty. *)
Definition count_row (cols : list Column) (i : nat) : nat :=
  length (List.filter (fun c => present (nth i (col_cells c) CMissing)) cols).

(** [frame.count(axis=1) / frame.shape[1]], labelled by the frame's index. *)
Definition count_ratio (raw : RawFrame) : list (cell * num) :=
  combine (rf_index raw)
          (map (fun i => ndiv (Fin (INR (count_row (rf_columns raw) i)))
                              (Fin (INR (length (rf_columns raw)))))
               (seq 0 (length (rf_index raw)))).

(** [dict(zip(keys, values))]: pairs are inserted in order, a later pair
    replaces an earlier one with the same key. *)
Fixpoint dict_zip (ks vs : list cell) (acc : gmap label label)
  : outcome (gmap label label) :=
  match ks, vs with
  | CLabel k :: ks', CLabel v :: vs' => dict_zip ks' vs' (<[k := v]> acc)
  | _ :: _, _ :: _ => Unmodelled
  | _, _ => Done acc
  end.

Section Tools.

(** The outside world: [pd.read_csv(path)], the first page of a Google sheet
    and a numbered page of it, read with the given credentials. *)
Variable read_csv : string -> option RawFrame.
Variable first_sheet : option string -> string -> option RawFrame.
Variable sheet_page : option string -> string -> Z -> option RawFrame.

(** The two checks every tool starts with. *)
Definition check_source (csv_or_frame : option (string + RawFrame))
  (sheet_id credentials : option string) : outcome unit :=
  if given sheet_id && given csv_or_frame then ValueError
  else if (given sheet_id && negb (given credentials))
          || (negb (given sheet_id) && given credentials) then TypeError
  else Done tt.

Definition get_project_scores (csv_or_frame : option (string + RawFrame))
  (sheet_id credentials : option string) (index : label) (ignored_cols : list label)
  : outcome RawFrame :=
  _ ← check_source csv_or_frame sheet_id credentials;
  raw_data ←
    match sheet_id with
    | Some id => loaded (first_sheet credentials id)
    | None =>
        match csv_or_frame with
        | Some (inl path) => loaded (read_csv path)
        | Some (inr frame) => Done frame
        | None => AttributeError
        end
    end;
  raw_data ← set_index raw_data index;
  raw_data ← drop_columns raw_data ignored_cols;
  Done (select_number raw_data).

Definition get_attendance_scores (csv_or_frame : option (string + RawFrame))
  (sheet_id credentials : option string) (page_num : Z)
  (index : label) (ignored_cols : list label)
  : outcome (list (cell * num)) :=
  _ ← check_source csv_or_frame sheet_id credentials;
  raw_data ←
    match sheet_id with
    | Some id => loaded (sheet_page credentials id page_num)
    | None =>
        match csv_or_frame with
        | Some (inl path) => loaded (read_csv path)
        | Some (inr frame) => Done frame
        | None => AttributeError
        end
    end;
  raw_data ← set_index raw_data index;
  raw_data ← drop_columns raw_data ignored_cols;
  Done (count_ratio raw_data).

(** Without [csv_or_frame] and without a sheet, [raw_data] is [None] and
    [raw_data[num_col]] raises [TypeError]. *)
Definition get_number_name_pairs (csv_or_frame : option (string + RawFrame))
  (sheet_id credentials : option string) (name_col num_col : label)
  : outcome (gmap label label) :=
  _ ← check_source csv_or_frame sheet_id credentials;
  raw_data ←
    match sheet_id with
    | Some id => loaded (first_sheet credentials id)
    | None =>
        match csv_or_frame with
        | Some (inl path) => loaded (read_csv path)
        | Some (inr frame) => Done frame
        | None => TypeError
        end
    end;
  nums ← get_column raw_data num_col;
  names ← get_column raw_data name_col;
  dict_zip (col_cells nums) (col_cells names) ∅.

End Tools.

(** The defaults of the source. *)
Definition project_name : label := LStr "Project Name".
Definition project_number : label := LStr "Project Number".

(** Reading a tool's result as an input of [score_adjustments.py]: labels
    must be strings or integers, scores must be numbers. *)
Definition cell_label (c : cell) : option label :=
  match c with CLabel l => Some l | _ => None end.

Fixpoint as_series (s : list (cell * num)) : option Series :=
  match s with
  | [] => Some []
  | (c, v) :: rest =>
      match cell_label c, as_series rest with
      | Some l, Some rest' => Some ((l, v) :: rest')
      | _, _ => None
      end
  end.

(** An outcome that is none of the exceptions of the argument checks. *)
Definition past_checks {A : Type} (o : outcome A) : Prop :=
  match o with
  | ValueError | TypeError | AttributeError => False
  | _ => True
  end.

(** ** Example spreadsheets *)

(** A roster with names, numbers, one judge column and a comment column. *)
Definition demo_roster : RawFrame :=
  mkRawFrame [CLabel (LInt 0); CLabel (LInt 1)]
    [mkColumn project_name false [CLabel (LStr "P1"); CLabel (LStr "P2")];
     mkColumn project_number true [CLabel (LInt 1); CLabel (LInt 2)];
     mkColumn (LStr "A") true [CNum 8; CNum 4];
     mkColumn (LStr "Comment") false [CLabel (LStr "good"); CMissing]].

(** The same roster without the project numbers. *)
Definition demo_roster_no_numbers : RawFrame :=
  mkRawFrame [CLabel (LInt 0); CLabel (LInt 1)]
    [mkColumn project_name false [CLabel (LStr "P1"); CLabel (LStr "P2")];
     mkColumn (LStr "A") true [CNum 8; CNum 4]].

(** An attendance sheet: project 1 came to one of two check-ins. *)
Definition demo_checkins : RawFrame :=
  mkRawFrame [CLabel (LInt 0); CLabel (LInt 1)]
    [mkColumn project_number true [CLabel (LInt 1); CLabel (LInt 2)];
     mkColumn (LStr "10/01") false [CLabel (LStr "x"); CLabel (LStr "x")];
     mkColumn (LStr "10/08") false [CMissing; CLabel (LStr "x")]].

(** Loaders for a world without files and sheets. *)
Definition no_csv : string -> option RawFrame := fun _ => None.
Definition no_sheet : option string -> string -> option RawFrame := fun _ _ => None.
Definition no_page : option string -> string -> Z -> option RawFrame := fun _ _ _ => None.

(** The columns that remain after [set_index] and [drop]. *)
Definition kept_columns (raw : RawFrame) (index : label) (ignored_cols : list label)
  : list Column :=
  List.filter (fun c => negb (label_eqb (col_name c) index)
                        && negb (label_mem (col_name c) ignored_cols))
              (rf_columns raw).

(** * Lemmas *)

(** ** Lists *)

Lemma zip_with_map_diag {A B C D : Type} (f : B -> C -> D) (g : A -> B) (h : A -> C)
  (l : list A) :
  zip_with f (map g l) (map h l) = map (fun x => f (g x) (h x)) l.
Proof. induction l as [|x l IH]; simpl; [reflexivity | now rewrite IH]. Qed.

Lemma row_as_seq (r : list R) (n : nat) :
  length r = n -> r = map (fun j => nth j r 0) (seq 0 n).
Proof.
  intros <-. induction r as [|x r IH]; simpl; [reflexivity|].
  f_equal. rewrite <- seq_shift, map_map. exact IH.
Qed.

Lemma values_mkSeries (idx : list label) (vs : list num) :
  length idx = length vs -> values (mkSeries idx vs) = vs.
Proof.
  unfold values, mkSeries. revert vs.
  induction idx as [|i idx IH]; intros [|v vs] H; simpl in *; try congruence.
  f_equal. apply IH. congruence.
Qed.

Lemma index_mkSeries (idx : list label) (vs : list num) :
  length idx = length vs -> index (mkSeries idx vs) = idx.
Proof.
  unfold index, mkSeries. revert vs.
  induction idx as [|i idx IH]; intros [|v vs] H; simpl in *; try congruence.
  f_equal. apply IH. congruence.
Qed.

Lemma values_series_map (f : num -> num) (s : Series) :
  values (series_map f s) = map f (values s).
Proof. unfold values, series_map. now rewrite !map_map. Qed.

Lemma index_series_map (f : num -> num) (s : Series) :
  index (series_map f s) = index s.
Proof. unfold index, series_map. now rewrite map_map. Qed.

Lemma length_series_map (f : num -> num) (s : Series) :
  length (series_map f s) = length s.
Proof. unfold series_map. now rewrite length_map. Qed.

Lemma values_reduce_axis0 (f : list R -> num) (df : DataFrame) :
  values (reduce_axis0 f df) = map (fun j => f (column j df)) (seq 0 (n_judges df)).
Proof.
  unfold reduce_axis0. apply values_mkSeries.
  now rewrite length_map, length_seq.
Qed.

(** ** Arithmetic on reals *)

Lemma sgn_0 : sgn 0 = 0.
Proof. unfold sgn. destruct (Rlt_dec 0 0); [lra|]. destruct (Rlt_dec 0 0); lra. Qed.

Lemma sgn_mul_abs (d : R) : sgn d * Rabs d = d.
Proof.
  unfold sgn. destruct (Rlt_dec 0 d) as [Hp|Hp].
  - rewrite Rabs_right; lra.
  - destruct (Rlt_dec d 0) as [Hn|Hn].
    + rewrite Rabs_left; lra.
    + assert (d = 0) by lra. subst. rewrite Rabs_R0. lra.
Qed.

Lemma Rsum_map_ext {A : Type} (f g : A -> R) (l : list A) :
  (forall x, In x l -> f x = g x) -> Rsum (map f l) = Rsum (map g l).
Proof.
  induction l as [|x l IH]; intros H; simpl; [reflexivity|].
  rewrite (H x) by (now left). rewrite IH; [reflexivity|].
  intros y Hy. apply H. now right.
Qed.

Lemma Rsum_map_div {A : Type} (f : A -> R) (s : R) (l : list A) :
  Rsum (map (fun x => f x / s) l) = Rsum (map f l) / s.
Proof.
  induction l as [|x l IH]; simpl; [unfold Rdiv; lra | rewrite IH; unfold Rdiv; lra].
Qed.

Lemma Rsum_nonneg (xs : list R) :
  Forall (fun x => 0 <= x) xs -> 0 <= Rsum xs.
Proof. induction 1; simpl; lra. Qed.

Lemma Rsum_ge_member (xs : list R) (x : R) :
  Forall (fun y => 0 <= y) xs -> In x xs -> x <= Rsum xs.
Proof.
  induction 1 as [|y ys Hy Hys IH]; simpl; [tauto|].
  intros [->|Hin].
  - pose proof (Rsum_nonneg ys Hys). lra.
  - specialize (IH Hin). lra.
Qed.

(** ** Column statistics *)

Lemma INR_length_pos {A : Type} (c : list A) : c <> [] -> 0 < INR (length c).
Proof.
  destruct c; [congruence|]. intros _. apply lt_0_INR. simpl. lia.
Qed.

Lemma mean_nonempty (c : list R) : c <> [] -> mean c = Fin (mu c).
Proof.
  intros H. unfold mean, mu, ndiv.
  pose proof (INR_length_pos c H).
  destruct (Req_dec_T (INR (length c)) 0); [lra | reflexivity].
Qed.

Lemma sq_dev_sum (c : list R) :
  Rsum (map (fun x => Rsqr (Rsum c / INR (length c) - x)) c)
  = Rsum (map (fun x => Rsqr (x - mu c)) c).
Proof.
  apply Rsum_map_ext. intros x _. unfold mu, Rsqr. lra.
Qed.

Lemma var_two (c : list R) : (2 <= length c)%nat -> var c = Fin (variance c).
Proof.
  intros H. unfold var, variance.
  destruct (Nat.leb_spec (length c) 1); [lia|].
  now rewrite sq_dev_sum.
Qed.

Lemma var_short (c : list R) : (length c <= 1)%nat -> var c = NaN.
Proof.
  intros H. unfold var. destruct (Nat.leb_spec (length c) 1); [reflexivity | lia].
Qed.

Lemma sq_devs_nonneg (c : list R) (m : R) :
  Forall (fun y => 0 <= y) (map (fun x => Rsqr (x - m)) c).
Proof. apply List.Forall_forall. intros y [x [<- _]]%in_map_iff. apply Rle_0_sqr. Qed.

Lemma INR_length_two {A : Type} (c : list A) : (2 <= length c)%nat -> 0 < INR (length c) - 1.
Proof.
  intros H. apply le_INR in H. simpl in H. lra.
Qed.

Lemma variance_nonneg (c : list R) : (2 <= length c)%nat -> 0 <= variance c.
Proof.
  intros H. unfold variance.
  pose proof (INR_length_two c H).
  pose proof (Rsum_nonneg _ (sq_devs_nonneg c (mu c))).
  apply Rmult_le_pos; [assumption|]. left. now apply Rinv_0_lt_compat.
Qed.

Lemma std_two (c : list R) : (2 <= length c)%nat -> std c = Fin (sigma c).
Proof.
  intros H. unfold std. rewrite var_two by assumption. simpl.
  pose proof (variance_nonneg c H).
  destruct (Rlt_dec (variance c) 0); [lra | reflexivity].
Qed.

Lemma std_short (c : list R) : (length c <= 1)%nat -> std c = NaN.
Proof. intros H. unfold std. now rewrite var_short. Qed.

(** A column in which some score is off the mean has at least two entries
    and a positive spread. *)
Lemma deviation_spread (c : list R) (x : R) :
  In x c -> x - mu c <> 0 -> (2 <= length c)%nat /\ 0 < variance c.
Proof.
  intros Hin Hd.
  assert (Hlen : (2 <= length c)%nat).
  { destruct c as [|a [|b c']]; simpl in *; try tauto; try lia.
    destruct Hin as [->|[]]. exfalso. apply Hd. unfold mu. simpl. field. }
  split; [assumption|].
  unfold variance. pose proof (INR_length_two c Hlen).
  apply Rmult_lt_0_compat; [|now apply Rinv_0_lt_compat].
  assert (0 < Rsqr (x - mu c)) by (apply Rlt_0_sqr; assumption).
  assert (Rsqr (x - mu c) <= Rsum (map (fun y => Rsqr (y - mu c)) c)).
  { apply Rsum_ge_member; [apply sq_devs_nonneg|]. apply in_map_iff. eauto. }
  lra.
Qed.

(** ** Reductions that skip NaN *)

Lemma nansum_fin (xs : list R) : nansum (map Fin xs) = Fin (Rsum xs).
Proof.
  unfold nansum. induction xs as [|x xs IH]; simpl; [reflexivity|].
  rewrite IH. reflexivity.
Qed.

(** Cells that are finite, or NaN where the intended value is 0, add up to the
    intended sum. *)
Lemma nansum_fill {A : Type} (f : A -> num) (g : A -> R) (l : list A) :
  (forall a, In a l -> fill0 (f a) = Fin (g a)) ->
  nansum (map f l) = Fin (Rsum (map g l)).
Proof.
  unfold nansum. induction l as [|a l IH]; intros H; simpl; [reflexivity|].
  rewrite (H a) by (now left). rewrite IH; [reflexivity|].
  intros b Hb. apply H. now right.
Qed.

(** ** The table of [kappa_adjusted], cell by cell *)

Lemma kappa_row (pk pw : num -> num) (r : list R) (js : list nat)
  (xf : nat -> R) (af sf : nat -> num) :
  r = map xf js ->
  zip_with nmul
    (map nsign (zip_with nsub (map Fin r) (map af js)))
    (map pw (zip_with nmul (map nabs (zip_with nsub (map Fin r) (map af js)))
                      (map (fun j => pk (sf j)) js)))
  = map (fun j => let d := nsub (Fin (xf j)) (af j) in
                  nmul (nsign d) (pw (nmul (nabs d) (pk (sf j))))) js.
Proof.
  intros ->. induction js as [|j js IH]; simpl; [reflexivity|].
  f_equal. exact IH.
Qed.

Lemma kappa_cells_rows (df : DataFrame) (kappa inv : R) :
  wf_frame df ->
  kappa_cells df kappa inv
  = map (fun r => map (fun j => kappa_cell kappa inv (nth j r 0) (column j df))
                      (seq 0 (n_judges df)))
        (df_values df).
Proof.
  intros [_ Hrows].
  unfold kappa_cells, broadcast, cellwise, cells_map, frame_values, df_mean, df_std.
  rewrite values_series_map, !values_reduce_axis0.
  rewrite !map_map, zip_with_map_diag.
  apply map_ext_in. intros r Hr.
  rewrite List.Forall_forall in Hrows. specialize (Hrows r Hr).
  apply (kappa_row (fun s => npow s kappa) (fun v => npow v inv) r
           (seq 0 (n_judges df)) (fun j => nth j r 0)
           (fun j => mean (column j df)) (fun j => std (column j df))).
  now apply row_as_seq.
Qed.

Lemma npow_pos (r y : R) : 0 < r -> npow (Fin r) y = Fin (Rpower r y).
Proof.
  intros H. unfold npow. destruct (Req_dec_T y 0) as [->|_].
  - now rewrite Rpower_O.
  - destruct (Rlt_dec 0 r); [reflexivity | contradiction].
Qed.

Lemma nmul_zero_fill (v : num) : fill0 (nmul (Fin 0) v) = Fin 0.
Proof.
  destruct v as [y| | |]; simpl; unfold fill0; simpl.
  - f_equal. lra.
  - rewrite sgn_0. unfold inf_of_sign.
    destruct (Rlt_dec 0 (0 * 1)); [lra|]. destruct (Rlt_dec (0 * 1) 0); [lra|].
    reflexivity.
  - rewrite sgn_0. unfold inf_of_sign.
    destruct (Rlt_dec 0 (0 * -1)); [lra|]. destruct (Rlt_dec (0 * -1) 0); [lra|].
    reflexivity.
  - reflexivity.
Qed.

Lemma nsub_fin (x y : R) : nsub (Fin x) (Fin y) = Fin (x - y).
Proof. reflexivity. Qed.

(** A cell is the specification's term; where pandas produces NaN (a zero
    deviation against an undefined or infinite spread factor) the term is 0,
    which is what the NaN-skipping row sum makes of it. *)
Lemma kappa_cell_term (kappa x : R) (c : list R) :
  1 + kappa <> 0 -> In x c ->
  fill0 (kappa_cell kappa (1 / (1 + kappa)) x c) = Fin (kappa_term kappa x c).
Proof.
  intros Hk Hin. unfold kappa_cell, kappa_term.
  assert (Hne : c <> []) by (intros ->; inversion Hin).
  rewrite (mean_nonempty c Hne), nsub_fin. cbv zeta.
  destruct (Req_dec_T (x - mu c) 0) as [Hd|Hd].
  - rewrite Hd. simpl nsign. rewrite sgn_0, nmul_zero_fill. f_equal. lra.
  - destruct (deviation_spread c x Hin Hd) as [Hlen Hvar].
    rewrite (std_two c Hlen).
    assert (Hsig : 0 < sigma c) by (apply sqrt_lt_R0; exact Hvar).
    rewrite (npow_pos _ kappa Hsig). simpl nabs. simpl nmul at 2.
    assert (Hb : 0 < Rabs (x - mu c) * Rpower (sigma c) kappa).
    { apply Rmult_lt_0_compat; [now apply Rabs_pos_lt | apply exp_pos]. }
    rewrite (npow_pos _ _ Hb). reflexivity.
Qed.

Lemma nth_in_column (df : DataFrame) (r : list R) (j : nat) :
  In r (df_values df) -> In (nth j r 0) (column j df).
Proof. intros H. unfold column. apply in_map_iff. eauto. Qed.

(** The adjusted scores before normalisation and sorting. *)
Lemma kappa_adjusted_scores (df : DataFrame) (kappa : R) :
  wf_frame df -> 1 + kappa <> 0 ->
  sum_axis1 (df_index df) (kappa_cells df kappa (1 / (1 + kappa)))
  = kappa_spec df kappa.
Proof.
  intros Hwf Hk. unfold sum_axis1, kappa_spec.
  rewrite (kappa_cells_rows df kappa _ Hwf), map_map. f_equal.
  apply map_ext_in. intros r Hr. unfold kappa_score.
  apply nansum_fill. intros j _.
  apply kappa_cell_term; [assumption|]. now apply nth_in_column.
Qed.

(** ** [sort_values] *)

Lemma nleb_total (a b : num) :
  isnan a = false -> isnan b = false -> nleb a b = false -> nleb b a = true.
Proof.
  destruct a as [x| | |], b as [y| | |]; simpl; try congruence.
  intros _ _. destruct (Rle_dec x y), (Rle_dec y x); try congruence. lra.
Qed.

Lemma nleb_trans (a b c : num) :
  nleb a b = true -> nleb b c = true -> nleb a c = true.
Proof.
  destruct a as [x| | |], b as [y| | |], c as [z| | |]; simpl; try congruence.
  destruct (Rle_dec x y), (Rle_dec y z), (Rle_dec x z); try congruence. lra.
Qed.

#[global] Instance desc_entries_trans : Transitive desc_entries.
Proof.
  intros a b c (Ha & _ & Hab) (_ & Hc & Hbc). repeat split; try assumption.
  eapply nleb_trans; eassumption.
Qed.

Lemma insert_desc_perm (e : label * num) (l : Series) :
  Permutation (insert_desc e l) (e :: l).
Proof.
  induction l as [|h t IH]; simpl; [reflexivity|].
  destruct (nltb (snd e) (snd h)); [|reflexivity].
  rewrite IH. apply perm_swap.
Qed.

Lemma sort_desc_perm (s : Series) : Permutation (sort_desc s) s.
Proof.
  induction s as [|e s IH]; simpl; [reflexivity|].
  rewrite insert_desc_perm. now constructor.
Qed.

Lemma filter_split_perm {A : Type} (p : A -> bool) (l : list A) :
  Permutation (List.filter p l ++ List.filter (fun x => negb (p x)) l) l.
Proof.
  induction l as [|x l IH]; simpl; [reflexivity|].
  destruct (p x); simpl.
  - now constructor.
  - rewrite <- Permutation_middle. now constructor.
Qed.

Lemma sort_values_perm (s : Series) : Permutation (sort_values s) s.
Proof.
  unfold sort_values. rewrite sort_desc_perm.
  rewrite (List.filter_ext (fun e => isnan (snd e)) (fun e => negb (notnan (snd e)))).
  - apply (filter_split_perm (fun e => notnan (snd e))).
  - intros e. unfold notnan. now rewrite negb_involutive.
Qed.

Lemma insert_desc_hd (a e : label * num) (l : Series) :
  desc_entries a e -> HdRel desc_entries a l -> HdRel desc_entries a (insert_desc e l).
Proof.
  intros Hae Hl. destruct l as [|h t]; simpl; [now constructor|].
  destruct (nltb (snd e) (snd h)); constructor; [|assumption].
  now inversion Hl.
Qed.

Lemma insert_desc_sorted (e : label * num) (l : Series) :
  isnan (snd e) = false ->
  Forall (fun h => isnan (snd h) = false) l ->
  Sorted desc_entries l -> Sorted desc_entries (insert_desc e l).
Proof.
  intros He Hl Hs. induction Hs as [|h t Ht IH Hhd]; simpl.
  - repeat constructor.
  - apply Forall_cons_1 in Hl as [Hh Hl].
    destruct (nltb (snd e) (snd h)) eqn:E.
    + constructor; [now apply IH|]. apply insert_desc_hd; [|assumption].
      unfold nltb in E. apply andb_prop in E as [E _]. now repeat split.
    + constructor; [now constructor|]. constructor. repeat split; try assumption.
      unfold nltb in E. destruct (nleb (snd e) (snd h)) eqn:E1; simpl in E.
      * now apply negb_false_iff in E.
      * now apply nleb_total.
Qed.

Lemma sort_desc_sorted (s : Series) :
  Forall (fun h => isnan (snd h) = false) s -> Sorted desc_entries (sort_desc s).
Proof.
  induction 1 as [|e s He Hs IH]; simpl; [constructor|].
  apply insert_desc_sorted; try assumption.
  eapply Permutation_Forall; [|exact Hs]. symmetry. apply sort_desc_perm.
Qed.

Lemma strongly_sorted_nan_tail (l1 l2 : Series) :
  StronglySorted desc_entries l1 ->
  Forall (fun e => isnan (snd e) = true) l2 ->
  StronglySorted desc_nan_last (l1 ++ l2).
Proof.
  intros H1 H2. induction H1 as [|a l Hl IH Ha]; simpl.
  - induction H2 as [|e l2 He Hl2 IH]; constructor; [assumption|].
    eapply List.Forall_impl; [|exact Hl2]. intros b Hb. now left.
  - constructor; [assumption|]. apply Forall_app. split.
    + eapply List.Forall_impl; [|exact Ha]. intros b Hb. now right.
    + eapply List.Forall_impl; [|exact H2]. intros b Hb. now left.
Qed.

Lemma sort_values_sorted (s : Series) : StronglySorted desc_nan_last (sort_values s).
Proof.
  unfold sort_values. apply strongly_sorted_nan_tail.
  - apply Sorted_StronglySorted; [apply desc_entries_trans|].
    apply sort_desc_sorted. apply List.Forall_forall.
    intros e [_ He]%List.filter_In. unfold notnan in He.
    now apply negb_true_iff in He.
  - apply List.Forall_forall. now intros e [_ He]%List.filter_In.
Qed.

(** ** Proportional variance, cell by cell *)

Lemma length_column (df : DataFrame) (j : nat) :
  length (column j df) = length (df_values df).
Proof. unfold column. apply length_map. Qed.

Lemma variance_short (c : list R) : (length c <= 1)%nat -> variance c = 0.
Proof.
  intros H. destruct c as [|x [|y c]]; simpl in H; try lia; unfold variance, mu; simpl.
  - unfold Rdiv. lra.
  - replace (x + 0) with x by lra.
    replace (x - x / 1) with 0 by (field). rewrite Rsqr_0. unfold Rdiv. lra.
Qed.

Lemma total_variance_pos (df : DataFrame) :
  (2 <= length (df_values df))%nat ->
  (exists j, (j < n_judges df)%nat /\ variance (column j df) <> 0) ->
  0 < total_variance df.
Proof.
  intros Hlen (j & Hj & Hv). unfold total_variance.
  set (vs := map (fun k => variance (column k df)) (seq 0 (n_judges df))).
  assert (Hnn : Forall (fun y => 0 <= y) vs).
  { apply List.Forall_forall. intros y [k [<- _]]%in_map_iff.
    apply variance_nonneg. now rewrite length_column. }
  assert (Hin : In (variance (column j df)) vs).
  { apply in_map_iff. exists j. split; [reflexivity|]. apply in_seq. lia. }
  pose proof (Rsum_ge_member vs _ Hnn Hin).
  assert (0 <= variance (column j df)).
  { apply variance_nonneg. now rewrite length_column. }
  lra.
Qed.

Lemma some_variance_two_rows (df : DataFrame) :
  (exists j, (j < n_judges df)%nat /\ variance (column j df) <> 0) ->
  (2 <= length (df_values df))%nat.
Proof.
  intros (j & _ & Hv).
  destruct (Nat.le_gt_cases (length (df_values df)) 1) as [H|H]; [|lia].
  exfalso. apply Hv. apply variance_short. now rewrite length_column.
Qed.

Lemma df_var_values (df : DataFrame) :
  (2 <= length (df_values df))%nat ->
  values (df_var df)
  = map Fin (map (fun k => variance (column k df)) (seq 0 (n_judges df))).
Proof.
  intros H. unfold df_var. rewrite values_reduce_axis0, map_map.
  apply map_ext. intros k. apply var_two. now rewrite length_column.
Qed.

Lemma pv_weights_values (df : DataFrame) :
  (exists j, (j < n_judges df)%nat /\ variance (column j df) <> 0) ->
  values (pv_weights df) = map (fun j => Fin (weight df j)) (seq 0 (n_judges df)).
Proof.
  intros Hv. pose proof (some_variance_two_rows df Hv) as Hlen.
  pose proof (total_variance_pos df Hlen Hv) as Hpos.
  unfold pv_weights, series_sum. rewrite values_series_map.
  rewrite (df_var_values df Hlen), nansum_fin, !map_map.
  apply map_ext. intros k. unfold weight. simpl.
  fold (total_variance df).
  destruct (Req_dec_T (total_variance df) 0); [lra | reflexivity].
Qed.

Lemma weights_sum_one (df : DataFrame) :
  (exists j, (j < n_judges df)%nat /\ variance (column j df) <> 0) ->
  Rsum (map (weight df) (seq 0 (n_judges df))) = 1.
Proof.
  intros Hv. pose proof (some_variance_two_rows df Hv) as Hlen.
  pose proof (total_variance_pos df Hlen Hv) as Hpos.
  unfold weight.
  rewrite (Rsum_map_div (fun j => variance (column j df))).
  fold (total_variance df). field. lra.
Qed.

Lemma pv_row (w : nat -> R) (r : list R) (js : list nat) (xf : nat -> R) :
  r = map xf js ->
  zip_with nmul (map (fun j => Fin (w j)) js) (map Fin r)
  = map Fin (map (fun j => w j * xf j) js).
Proof.
  intros ->. induction js as [|j js IH]; simpl; [reflexivity|].
  f_equal. exact IH.
Qed.

Lemma pv_adjusted_of_weights (df : DataFrame) :
  wf_frame df ->
  values (pv_weights df) = map (fun j => Fin (weight df j)) (seq 0 (n_judges df)) ->
  sum_axis1 (df_index df) (pv_cells df) = weighted_spec df.
Proof.
  intros [_ Hrows] Hw. unfold sum_axis1, weighted_spec, pv_cells, frame_values.
  rewrite Hw, !map_map. f_equal.
  apply map_ext_in. intros r Hr.
  rewrite List.Forall_forall in Hrows. specialize (Hrows r Hr).
  rewrite (pv_row (weight df) r (seq 0 (n_judges df)) (fun j => nth j r 0))
    by now apply row_as_seq.
  now rewrite nansum_fin.
Qed.

Lemma pv_adjusted_scores (df : DataFrame) :
  wf_frame df ->
  (exists j, (j < n_judges df)%nat /\ variance (column j df) <> 0) ->
  sum_axis1 (df_index df) (pv_cells df) = weighted_spec df.
Proof.
  intros Hwf Hv. apply pv_adjusted_of_weights; [assumption|].
  now apply pv_weights_values.
Qed.

Lemma kappa_term_zero (x : R) (c : list R) :
  kappa_term 0 x c = sgn (x - mu c) * Rabs (x - mu c).
Proof.
  unfold kappa_term. cbv zeta.
  destruct (Req_dec_T (x - mu c) 0) as [Hd|Hd].
  - rewrite Hd, sgn_0. lra.
  - f_equal. unfold Rpower at 2. rewrite Rmult_0_l, exp_0.
    replace (1 / (1 + 0)) with 1 by field.
    rewrite Rmult_1_r. apply Rpower_1. now apply Rabs_pos_lt.
Qed.

Lemma deviation_score_sum (df : DataFrame) (row : list R) :
  deviation_score df row
  = Rsum (map (fun j => nth j row 0 - mu (column j df)) (seq 0 (n_judges df))).
Proof.
  unfold deviation_score. f_equal. apply map_ext. intros j. apply sgn_mul_abs.
Qed.

Lemma kappa_spec_zero (df : DataFrame) : kappa_spec df 0 = deviation_spec df.
Proof.
  unfold kappa_spec, deviation_spec. f_equal. apply map_ext. intros r.
  unfold kappa_score, deviation_score. f_equal. f_equal.
  apply map_ext. intros j. apply kappa_term_zero.
Qed.

Lemma demo_scores_wf : wf_frame demo_scores.
Proof. split; [reflexivity | repeat constructor]. Qed.

Lemma var_fin (c : list R) (v : R) :
  var c = Fin v -> (2 <= length c)%nat /\ v = variance c.
Proof.
  intros H. destruct (le_gt_dec (length c) 1) as [Hs|Hl].
  - rewrite var_short in H by assumption. discriminate.
  - assert (Hlen : (2 <= length c)%nat) by lia.
    rewrite var_two in H by assumption. injection H as <-. auto.
Qed.

Lemma demo_scores_variance : var (column 0 demo_scores) = Fin 8.
Proof.
  rewrite var_two by (simpl; lia). f_equal.
  assert (Hmu : mu [8; 4] = 6) by (unfold mu, Rsum; simpl; lra).
  unfold variance, column. simpl. rewrite Hmu. unfold Rsqr.
  replace (1 + 1 - 1) with 1 by lra. lra.
Qed.

(** ** Label lookups *)

Lemma label_eqb_eq (a b : label) : label_eqb a b = true <-> a = b.
Proof. unfold label_eqb. apply bool_decide_eq_true. Qed.

Lemma label_eqb_neq (a b : label) : label_eqb a b = false <-> a <> b.
Proof. unfold label_eqb. apply bool_decide_eq_false. Qed.

Lemma label_mem_In (k : label) (ks : list label) : label_mem k ks = true <-> In k ks.
Proof.
  unfold label_mem. rewrite existsb_exists. split.
  - intros (x & Hx & E). apply label_eqb_eq in E. now subst.
  - intros H. exists k. split; [assumption | now apply label_eqb_eq].
Qed.

Lemma label_mem_not_In (k : label) (ks : list label) :
  label_mem k ks = false <-> ~ In k ks.
Proof.
  rewrite <- label_mem_In. destruct (label_mem k ks); split; congruence.
Qed.

Lemma series_get_in (s : Series) (k : label) :
  In k (index s) -> exists v, series_get s k = Some v /\ In (k, v) s.
Proof.
  induction s as [|[l v] s IH]; simpl; [tauto|]. intros H.
  destruct (label_eqb l k) eqn:E.
  - apply label_eqb_eq in E. subst. eauto.
  - apply label_eqb_neq in E. destruct H as [H|H]; [contradiction|].
    destruct (IH H) as (w & Hw & Hin). eauto.
Qed.

Lemma filter_label_absent (s : Series) (k : label) :
  ~ In k (index s) -> List.filter (fun e => label_eqb (fst e) k) s = [].
Proof.
  induction s as [|[l v] s IH]; simpl; [reflexivity|]. intros H.
  destruct (label_eqb l k) eqn:E.
  - apply label_eqb_eq in E. tauto.
  - apply IH. tauto.
Qed.

Lemma filter_label_unique (s : Series) (k : label) :
  List.NoDup (index s) -> In k (index s) ->
  List.filter (fun e => label_eqb (fst e) k) s = [(k, series_at s k)].
Proof.
  unfold series_at.
  induction s as [|[l v] s IH]; simpl; [tauto|]. intros Hnd Hin.
  apply List.NoDup_cons_iff in Hnd as [Hl Hnd].
  destruct (label_eqb l k) eqn:E.
  - apply label_eqb_eq in E. subst. now rewrite filter_label_absent.
  - apply label_eqb_neq in E. destruct Hin as [Hin|Hin]; [contradiction|].
    now apply IH.
Qed.

Lemma loc_present (s : Series) (keys : list label) :
  List.NoDup (index s) -> (forall k, In k keys -> In k (index s)) ->
  loc s keys = Ok (map (fun k => (k, series_at s k)) keys).
Proof.
  intros Hnd Hall. unfold loc.
  assert (Hnone : List.filter (fun k => negb (label_mem k (index s))) keys = []).
  { induction keys as [|k keys IH]; simpl; [reflexivity|].
    rewrite (proj2 (label_mem_In k (index s))) by (apply Hall; now left).
    simpl. apply IH. intros k' Hk'. apply Hall. now right. }
  rewrite Hnone. f_equal.
  induction keys as [|k keys IH]; simpl; [reflexivity|].
  rewrite filter_label_unique by (try assumption; apply Hall; now left).
  simpl. f_equal. apply IH.
  - intros k' Hk'. apply Hall. now right.
  - simpl in Hnone. destruct (label_mem k (index s)); simpl in Hnone; congruence.
Qed.

Lemma loc_missing (s : Series) (keys : list label) (p : label) :
  In p keys -> ~ In p (index s) ->
  exists ks, loc s keys = KeyError ks /\ In p ks /\
             Forall (fun k => In k keys /\ ~ In k (index s)) ks.
Proof.
  intros Hin Hmiss. unfold loc.
  set (missing := List.filter (fun k => negb (label_mem k (index s))) keys).
  assert (Hp : In p missing).
  { apply List.filter_In. split; [assumption|].
    now rewrite (proj2 (label_mem_not_In p (index s))). }
  assert (Hall : Forall (fun k => In k keys /\ ~ In k (index s)) missing).
  { apply List.Forall_forall. intros k [Hk Hm]%List.filter_In. split; [assumption|].
    apply label_mem_not_In. now apply negb_true_iff. }
  destruct missing as [|k ks] eqn:E; [inversion Hp|]. eauto.
Qed.

Lemma blend_after_loc (scores : Series) (f : label -> num) (c1 c2 : R) :
  series_add (series_scale scores c1)
             (series_scale (map (fun k => (k, f k)) (index scores)) c2)
  = Ok (map (fun e => (fst e, nadd (nmul (snd e) (Fin c1)) (nmul (f (fst e)) (Fin c2))))
            scores).
Proof.
  unfold series_add, series_scale.
  rewrite !index_series_map, !values_series_map.
  assert (Hidx : index (map (fun k => (k, f k)) (index scores)) = index scores).
  { unfold index. rewrite map_map. simpl. apply map_id. }
  rewrite Hidx. destruct (decide (index scores = index scores)); [|contradiction].
  f_equal. unfold mkSeries, index, values. rewrite !map_map. simpl.
  clear. induction scores as [|[l v] scores IH]; simpl; [reflexivity|].
  now rewrite IH.
Qed.

(** What the blend returns whenever its lookups succeed. *)
Lemma showcase_ok (scores attendance attendance' : Series) (r : R)
  (mapping : option (gmap label label)) :
  remap_attendance attendance mapping = Ok attendance' ->
  List.NoDup (index attendance') ->
  (forall p, In p (index scores) -> In p (index attendance')) ->
  showcase_prescreening_score scores attendance r mapping
  = Ok (map (fun e => (fst e, nadd (nmul (snd e) (Fin (1 - r)))
                                   (nmul (series_at attendance' (fst e)) (Fin r))))
            scores).
Proof.
  intros Hre Hnd Hall. unfold showcase_prescreening_score.
  rewrite Hre. unfold mbind, result_bind, bind.
  rewrite (loc_present attendance' (index scores) Hnd Hall).
  apply blend_after_loc.
Qed.

(** ** The attendance blend *)

Lemma translate_index_outcome (m : gmap label label) (idx : list label) :
  (exists ys, translate_index m idx = Ok ys /\ Forall2 (fun x y => m !! x = Some y) idx ys)
  \/ (exists x, translate_index m idx = KeyError [x] /\ In x idx /\ m !! x = None).
Proof.
  induction idx as [|x idx IH]; simpl.
  - left. exists []. split; [reflexivity | constructor].
  - destruct (m !! x) as [y|] eqn:E.
    + destruct IH as [(ys & -> & Hys) | (z & -> & Hz & Hm)].
      * left. exists (y :: ys). split; [reflexivity | now constructor].
      * right. exists z. repeat split; [now right | assumption].
    + right. exists x. repeat split; [now left | assumption].
Qed.

Lemma Forall2_in_r {A B : Type} (P : A -> B -> Prop) (xs : list A) (ys : list B) (y : B) :
  Forall2 P xs ys -> In y ys -> exists x, In x xs /\ P x y.
Proof.
  induction 1 as [|x y' xs ys Hxy _ IH]; simpl; [tauto|].
  intros [<-|Hin].
  - exists x. auto.
  - destruct (IH Hin) as (x' & Hx' & Hp). exists x'. auto.
Qed.

Lemma index_mkSeries_incl (idx : list label) (vs : list num) (k : label) :
  In k (index (mkSeries idx vs)) -> In k idx.
Proof.
  unfold index, mkSeries. intros [[k' v] [<- H]]%in_map_iff.
  simpl. eapply in_combine_l. exact H.
Qed.

Lemma values_mkSeries_incl (idx : list label) (vs : list num) (v : num) :
  In v (values (mkSeries idx vs)) -> In v vs.
Proof.
  unfold values, mkSeries. intros [[k' v'] [<- H]]%in_map_iff.
  simpl. eapply in_combine_r. exact H.
Qed.

Lemma is_str_not_int (l : label) : is_str l -> is_int l -> False.
Proof. destruct l; simpl; tauto. Qed.

Lemma remap_attendance_values (attendance attendance' : Series)
  (mapping : option (gmap label label)) (v : num) :
  remap_attendance attendance mapping = Ok attendance' ->
  In v (values attendance') -> In v (values attendance).
Proof.
  destruct mapping as [m|]; simpl.
  - destruct (translate_index_outcome m (index attendance))
      as [(ys & E & _) | (x & E & _)]; rewrite E; simpl; [|discriminate].
    intros [= <-]. apply values_mkSeries_incl.
  - now intros [= <-].
Qed.

Lemma series_at_fin (s : Series) (k : label) :
  Forall is_fin (values s) -> In k (index s) -> is_fin (series_at s k).
Proof.
  intros Hfin Hin. destruct (series_get_in s k Hin) as (v & Hget & Hv).
  unfold series_at. rewrite Hget. rewrite List.Forall_forall in Hfin.
  apply Hfin. unfold values. apply in_map_iff. exists (k, v). auto.
Qed.

Lemma finite_series_values (s : list (label * R)) : Forall is_fin (values (finite_series s)).
Proof.
  unfold values, finite_series. rewrite map_map. simpl.
  apply List.Forall_forall. intros v [e [<- _]]%in_map_iff. exact I.
Qed.

Lemma finite_series_index (s : list (label * R)) : index (finite_series s) = map fst s.
Proof. unfold index, finite_series. now rewrite map_map. Qed.

Lemma demo_mapping_P1 : demo_mapping !! LStr "P1" = Some (LInt 1).
Proof. reflexivity. Qed.

Lemma demo_mapping_P2 : demo_mapping !! LStr "P2" = Some (LInt 2).
Proof. reflexivity. Qed.

Lemma demo_mapping_1 : demo_mapping !! LInt 1 = None.
Proof. reflexivity. Qed.

Lemma demo_mapping_str_int : str_int_mapping demo_mapping.
Proof.
  intros k v. unfold demo_mapping.
  rewrite !lookup_insert_Some, lookup_empty.
  intros [[<- <-] | [_ [[<- <-] | [_ ?]]]]; simpl; auto. discriminate.
Qed.

(** With a mapping as the annotation [dict[str, int]] has it and an
    attendance vector keyed by numbers, the call raises for the first
    attendance label, whatever the scores are. *)
Lemma annotated_mapping_raises (scores : Series) (x : label) (v : num)
  (attendance : Series) (r : R) (m : gmap label label) :
  str_int_mapping m -> is_int x ->
  showcase_prescreening_score scores ((x, v) :: attendance) r (Some m) = KeyError [x].
Proof.
  intros Hm Hx. unfold showcase_prescreening_score, remap_attendance. simpl.
  destruct (m !! x) as [y|] eqn:E; [|reflexivity].
  destruct (is_str_not_int x); [exact (proj1 (Hm x y E)) | exact Hx].
Qed.

(** Without a mapping and with every score identifier in a duplicate-free
    attendance index, the code computes the specification's blend. *)
Lemma showcase_no_mapping (scores attendance : Series) (r : R) :
  List.NoDup (index attendance) ->
  (forall p, In p (index scores) -> In p (index attendance)) ->
  exists res, showcase_prescreening_score scores attendance r None = Ok res /\
              blend_spec scores attendance r None = Some res.
Proof.
  intros Hnd Hall. eexists. split.
  - now apply (showcase_ok scores attendance attendance r None).
  - induction scores as [|[l v] scores IH]; [reflexivity|].
    assert (Hl : In l (index attendance)) by (apply Hall; now left).
    destruct (series_get_in attendance l Hl) as (w & Hw & _).
    simpl. rewrite Hw.
    rewrite IH by (intros p Hp; apply Hall; now right).
    unfold series_at. now rewrite Hw.
Qed.

(** ** Minimum and maximum of finite values *)

Section Extremum.
Variable le : R -> R -> Prop.
Variable sel : R -> R -> R.
Hypothesis le_refl : forall x, le x x.
Hypothesis le_trans : forall x y z, le x y -> le y z -> le x z.
Hypothesis sel_cases : forall x y, (sel x y = x /\ le x y) \/ (sel x y = y /\ le y x).

Lemma fold_sel_extremum (rest : list R) (x : R) :
  In (fold_left sel rest x) (x :: rest) /\
  Forall (fun y => le (fold_left sel rest x) y) (x :: rest).
Proof using le_refl le_trans sel_cases.
  revert x. induction rest as [|y rest IH]; intros x; simpl.
  - split; [now left | repeat constructor; apply le_refl].
  - destruct (IH (sel x y)) as [Hin Hall].
    apply Forall_cons_1 in Hall as [Hhd Hall].
    destruct (sel_cases x y) as [[E Hle] | [E Hle]]; rewrite E in *.
    + split.
      * destruct Hin as [Hin|Hin]; [now left | right; now right].
      * constructor; [assumption|]. constructor; [|assumption].
        eapply le_trans; eassumption.
    + split.
      * destruct Hin as [Hin|Hin]; [right; now left | right; now right].
      * constructor; [eapply le_trans; eassumption|]. now constructor.
Qed.
End Extremum.

Lemma filter_notnan_fin (xs : list R) : List.filter notnan (map Fin xs) = map Fin xs.
Proof. induction xs as [|x xs IH]; simpl; [reflexivity | now rewrite IH]. Qed.

Lemma fold_nmin_fin (rest : list R) (x : R) :
  fold_left nmin (map Fin rest) (Fin x) = Fin (fold_left Rmin rest x).
Proof.
  revert x. induction rest as [|y rest IH]; intros x; simpl; [reflexivity|].
  rewrite <- IH. f_equal. unfold nmin, Rmin. simpl. now destruct (Rle_dec x y).
Qed.

Lemma fold_nmax_fin (rest : list R) (x : R) :
  fold_left nmax (map Fin rest) (Fin x) = Fin (fold_left Rmax rest x).
Proof.
  revert x. induction rest as [|y rest IH]; intros x; simpl; [reflexivity|].
  rewrite <- IH. f_equal. unfold nmax, Rmax. simpl. now destruct (Rle_dec x y).
Qed.

Lemma nanmin_fin (x : R) (rest : list R) :
  exists m, nanmin (map Fin (x :: rest)) = Fin m /\ is_min m (x :: rest).
Proof.
  exists (fold_left Rmin rest x). split.
  - unfold nanmin. rewrite filter_notnan_fin. simpl. apply fold_nmin_fin.
  - apply (fold_sel_extremum Rle Rmin Rle_refl Rle_trans).
    intros a b. unfold Rmin. destruct (Rle_dec a b); [left | right]; split; lra.
Qed.

Lemma nanmax_fin (x : R) (rest : list R) :
  exists m, nanmax (map Fin (x :: rest)) = Fin m /\ is_max m (x :: rest).
Proof.
  exists (fold_left Rmax rest x). split.
  - unfold nanmax. rewrite filter_notnan_fin. simpl. apply fold_nmax_fin.
  - apply (fold_sel_extremum (fun a b => b <= a) Rmax).
    + intros a. lra.
    + intros a b c ? ?. lra.
    + intros a b. unfold Rmax. destruct (Rle_dec a b); [right | left]; split; lra.
Qed.

Lemma is_min_unique (m m' : R) (xs : list R) : is_min m xs -> is_min m' xs -> m = m'.
Proof.
  intros [Hin Hall] [Hin' Hall']. rewrite List.Forall_forall in Hall, Hall'.
  pose proof (Hall m' Hin'). pose proof (Hall' m Hin). lra.
Qed.

Lemma is_max_unique (m m' : R) (xs : list R) : is_max m xs -> is_max m' xs -> m = m'.
Proof.
  intros [Hin Hall] [Hin' Hall']. rewrite List.Forall_forall in Hall, Hall'.
  pose proof (Hall m' Hin'). pose proof (Hall' m Hin). lra.
Qed.

Lemma nanmin_is_min (m : R) (xs : list R) : is_min m xs -> nanmin (map Fin xs) = Fin m.
Proof.
  intros H. destruct xs as [|x rest]; [destruct H as [[] _]|].
  destruct (nanmin_fin x rest) as (m' & -> & H'). f_equal.
  eapply is_min_unique; eassumption.
Qed.

Lemma nanmax_is_max (m : R) (xs : list R) : is_max m xs -> nanmax (map Fin xs) = Fin m.
Proof.
  intros H. destruct xs as [|x rest]; [destruct H as [[] _]|].
  destruct (nanmax_fin x rest) as (m' & -> & H'). f_equal.
  eapply is_max_unique; eassumption.
Qed.

Lemma is_min_perm (m : R) (xs ys : list R) : Permutation xs ys -> is_min m xs -> is_min m ys.
Proof.
  intros Hp [Hin Hall]. split.
  - eapply Permutation_in; eassumption.
  - eapply Permutation_Forall; eassumption.
Qed.

Lemma is_max_perm (m : R) (xs ys : list R) : Permutation xs ys -> is_max m xs -> is_max m ys.
Proof.
  intros Hp [Hin Hall]. split.
  - eapply Permutation_in; eassumption.
  - eapply Permutation_Forall; eassumption.
Qed.

(** ** Normalisation *)

Lemma rescale_extremes (a b : R) (xs : list R) :
  is_min a xs -> is_max b xs -> a < b ->
  is_min 0 (map (rescale a b) xs) /\ is_max 1 (map (rescale a b) xs).
Proof.
  intros [Ha Hlo] [Hb Hhi] Hab.
  assert (Ht : 0 < / (b - a)) by (apply Rinv_0_lt_compat; lra).
  assert (Hinv : (b - a) * / (b - a) = 1) by (apply Rinv_r; lra).
  assert (H0 : rescale a b a = 0) by (unfold rescale, Rdiv; lra).
  assert (H1 : rescale a b b = 1) by (unfold rescale, Rdiv; lra).
  rewrite List.Forall_forall in Hlo, Hhi.
  split; split.
  - rewrite <- H0. now apply in_map.
  - apply List.Forall_forall. intros y [x [<- Hx]]%in_map_iff.
    specialize (Hlo x Hx). unfold rescale, Rdiv. nra.
  - rewrite <- H1. now apply in_map.
  - apply List.Forall_forall. intros y [x [<- Hx]]%in_map_iff.
    specialize (Hhi x Hx). unfold rescale, Rdiv. nra.
Qed.

Lemma normalize_cell (a b x : R) :
  a < b -> ndiv (nsub (Fin x) (Fin a)) (nsub (Fin b) (Fin a)) = Fin (rescale a b x).
Proof.
  intros Hab. simpl. destruct (Req_dec_T (b + - a) 0); [lra | reflexivity].
Qed.

Lemma normalize_finite (s : Series) (xs : list R) (a b : R) :
  values s = map Fin xs -> is_min a xs -> is_max b xs -> a < b ->
  values (_normalize s) = map Fin (map (rescale a b) xs).
Proof.
  intros Hv Ha Hb Hab. unfold _normalize.
  rewrite values_series_map, Hv, (nanmin_is_min a xs Ha), (nanmax_is_max b xs Hb).
  rewrite !map_map. apply map_ext. intros x. now apply normalize_cell.
Qed.

Lemma index_normalize (s : Series) : index (_normalize s) = index s.
Proof. unfold _normalize. apply index_series_map. Qed.

Lemma values_perm (s t : Series) : Permutation s t -> Permutation (values s) (values t).
Proof. apply Permutation_map. Qed.

Lemma index_perm (s t : Series) : Permutation s t -> Permutation (index s) (index t).
Proof. apply Permutation_map. Qed.

Lemma extremes_apart (a b u v : R) (xs : list R) :
  is_min a xs -> is_max b xs -> In u xs -> In v xs -> u <> v -> a < b.
Proof.
  intros [_ Hlo] [_ Hhi] Hu Hv Hne. rewrite List.Forall_forall in Hlo, Hhi.
  pose proof (Hlo u Hu). pose proof (Hlo v Hv).
  pose proof (Hhi u Hu). pose proof (Hhi v Hv).
  destruct (Rlt_dec a b); [assumption|]. exfalso. apply Hne. lra.
Qed.

(** Normalising and sorting finite scores with two distinct values. *)
Lemma normalize_then_sort (adj : Series) (xs : list R) :
  values adj = map Fin xs ->
  (exists u v, In u (values (sort_values adj)) /\ In v (values (sort_values adj)) /\ u <> v) ->
  nanmin (values (sort_values (_normalize adj))) = Fin 0 /\
  nanmax (values (sort_values (_normalize adj))) = Fin 1.
Proof.
  intros Hv (u & v & Hu & Hv' & Hne).
  pose proof (values_perm _ _ (sort_values_perm adj)) as Hp. rewrite Hv in Hp.
  apply (Permutation_in _ Hp) in Hu. apply (Permutation_in _ Hp) in Hv'.
  apply in_map_iff in Hu as (x & <- & Hx). apply in_map_iff in Hv' as (y & <- & Hy).
  assert (Hxy : x <> y) by congruence.
  destruct xs as [|x0 rest]; [inversion Hx|].
  destruct (nanmin_fin x0 rest) as (a & _ & Ha).
  destruct (nanmax_fin x0 rest) as (b & _ & Hb).
  pose proof (extremes_apart a b x y _ Ha Hb Hx Hy Hxy) as Hab.
  pose proof (normalize_finite adj _ a b Hv Ha Hb Hab) as Hn.
  destruct (rescale_extremes a b _ Ha Hb Hab) as [Hmin Hmax].
  pose proof (values_perm _ _ (sort_values_perm (_normalize adj))) as Hq.
  rewrite Hn in Hq.
  apply Permutation_map_inv in Hq as (zs & Hz & Hperm).
  rewrite Hz. split.
  - apply nanmin_is_min. eapply is_min_perm; eassumption.
  - apply nanmax_is_max. eapply is_max_perm; eassumption.
Qed.

Lemma nsub_self_div (c : num) : ndiv (nsub c c) (nsub c c) = NaN.
Proof.
  destruct c as [x| | |]; simpl; try reflexivity.
  destruct (Req_dec_T (x + - x) 0); [|lra].
  replace (x + - x) with 0 by lra. rewrite sgn_0. unfold inf_of_sign.
  destruct (Rlt_dec 0 0); [lra | reflexivity].
Qed.

Lemma fold_nmin_const (c : num) (n : nat) :
  isnan c = false -> fold_left nmin (repeat c n) c = c.
Proof.
  intros Hc. induction n as [|n IH]; simpl; [reflexivity|].
  assert (nmin c c = c) as -> by (unfold nmin; now destruct (nleb c c)).
  exact IH.
Qed.

Lemma fold_nmax_const (c : num) (n : nat) :
  isnan c = false -> fold_left nmax (repeat c n) c = c.
Proof.
  intros Hc. induction n as [|n IH]; simpl; [reflexivity|].
  assert (nmax c c = c) as -> by (unfold nmax; now destruct (nleb c c)).
  exact IH.
Qed.

Lemma constant_values (vs : list num) (c : num) :
  Forall (fun v => v = c) vs -> vs = repeat c (length vs).
Proof. induction 1 as [|v vs -> _ IH]; simpl; [reflexivity | now rewrite <- IH]. Qed.

Lemma filter_notnan_repeat (c : num) (n : nat) :
  List.filter notnan (repeat c n) = if isnan c then [] else repeat c n.
Proof.
  induction n as [|n IH]; simpl; [now destruct (isnan c)|].
  rewrite IH. unfold notnan. now destruct (isnan c).
Qed.

(** [_normalize] on a constant vector: every element becomes NaN. *)
Lemma normalize_constant (arr : Series) (c : num) :
  Forall (fun v => v = c) (values arr) ->
  _normalize arr = constant_series (index arr) NaN.
Proof.
  intros Hc. unfold _normalize, constant_series, series_map, index.
  rewrite map_map. apply map_ext_in. intros [l v] Hin. simpl. f_equal.
  assert (Hv : v = c).
  { rewrite List.Forall_forall in Hc. apply Hc. unfold values.
    apply in_map_iff. exists (l, v). auto. }
  subst v. rewrite (constant_values _ c Hc).
  assert (Hpos : exists n, length (values arr) = S n).
  { unfold values. rewrite length_map. destruct arr; [inversion Hin|]. simpl. eauto. }
  destruct Hpos as (n & ->).
  unfold nanmin, nanmax. rewrite filter_notnan_repeat.
  destruct (isnan c) eqn:E.
  - destruct c; try discriminate. reflexivity.
  - simpl. rewrite fold_nmin_const, fold_nmax_const by assumption.
    apply nsub_self_div.
Qed.

Lemma sort_values_nan (idx : list label) :
  sort_values (constant_series idx NaN) = constant_series idx NaN.
Proof.
  unfold sort_values, constant_series.
  induction idx as [|p idx IH]; simpl; [reflexivity|].
  simpl in IH.
  assert (H : List.filter (fun e : label * num => notnan (snd e))
                (map (fun p => (p, NaN)) idx) = []).
  { clear. induction idx as [|p idx IH]; simpl; [reflexivity | exact IH]. }
  rewrite H in *. simpl in *. now rewrite IH.
Qed.

Lemma sort_values_fin_constant (idx : list label) (x : R) :
  sort_values (constant_series idx (Fin x)) = constant_series idx (Fin x).
Proof.
  unfold sort_values, constant_series.
  assert (H1 : List.filter (fun e : label * num => isnan (snd e))
                 (map (fun p => (p, Fin x)) idx) = []).
  { induction idx as [|p idx IH]; simpl; [reflexivity | exact IH]. }
  assert (H2 : List.filter (fun e : label * num => notnan (snd e))
                 (map (fun p => (p, Fin x)) idx) = map (fun p => (p, Fin x)) idx).
  { induction idx as [|p idx IH]; simpl; [reflexivity | now rewrite IH]. }
  rewrite H1, H2, app_nil_r. clear H1 H2.
  induction idx as [|p idx IH]; simpl; [reflexivity|].
  rewrite IH. destruct idx as [|q idx]; simpl; [reflexivity|].
  unfold nltb. simpl. destruct (Rle_dec x x); [reflexivity | lra].
Qed.

Lemma index_constant_series (idx : list label) (c : num) :
  index (constant_series idx c) = idx.
Proof.
  unfold index, constant_series. rewrite map_map. simpl. apply map_id.
Qed.

Lemma values_constant_series (idx : list label) (c : num) :
  Forall (fun v => v = c) (values (constant_series idx c)).
Proof.
  unfold values, constant_series. rewrite map_map. simpl.
  apply List.Forall_forall. now intros v [p [<- _]]%in_map_iff.
Qed.

Lemma normalize_sort_constant (adj : Series) (c : num) :
  Forall (fun v => v = c) (values (sort_values adj)) ->
  sort_values (_normalize adj) = constant_series (index adj) NaN.
Proof.
  intros Hc.
  assert (Hc' : Forall (fun v => v = c) (values adj)).
  { eapply Permutation_Forall; [|exact Hc]. apply values_perm, sort_values_perm. }
  rewrite (normalize_constant adj c Hc'). apply sort_values_nan.
Qed.

(** ** Degenerate weights *)

Lemma Rsum_zeros {A : Type} (l : list A) : Rsum (map (fun _ => 0) l) = 0.
Proof. induction l as [|a l IH]; simpl; [reflexivity | rewrite IH; lra]. Qed.

Lemma nansum_nans {A : Type} (l : list A) : nansum (map (fun _ => NaN) l) = Fin 0.
Proof.
  rewrite (nansum_fill (fun _ => NaN) (fun _ => 0) l) by reflexivity.
  now rewrite Rsum_zeros.
Qed.

Lemma mkSeries_constant {A : Type} (idx : list label) (l : list A) (c : num) :
  length idx = length l -> mkSeries idx (map (fun _ => c) l) = constant_series idx c.
Proof.
  unfold mkSeries, constant_series. revert l.
  induction idx as [|p idx IH]; intros [|a l] H; simpl in *; try congruence.
  f_equal. apply IH. congruence.
Qed.

(** The weights are the specification's, or all NaN when the variances are
    undefined (fewer than two projects) or add up to zero. *)
Lemma pv_weights_cases (df : DataFrame) :
  values (pv_weights df) = map (fun j => Fin (weight df j)) (seq 0 (n_judges df))
  \/ values (pv_weights df) = map (fun _ => NaN) (seq 0 (n_judges df)).
Proof.
  unfold pv_weights, series_sum. rewrite values_series_map.
  destruct (le_gt_dec (length (df_values df)) 1) as [Hshort|Hlong].
  - right. unfold df_var. rewrite values_reduce_axis0, map_map.
    apply map_ext. intros j. rewrite var_short by now rewrite length_column.
    reflexivity.
  - assert (Hlen : (2 <= length (df_values df))%nat) by lia.
    rewrite (df_var_values df Hlen), nansum_fin, !map_map.
    fold (total_variance df).
    destruct (Req_dec_T (total_variance df) 0) as [Hz|Hnz].
    + right. apply map_ext_in. intros j Hj. simpl. rewrite Hz.
      destruct (Req_dec_T 0 0); [|lra].
      assert (Hv : variance (column j df) = 0).
      { assert (0 <= variance (column j df))
          by (apply variance_nonneg; now rewrite length_column).
        assert (variance (column j df) <= total_variance df).
        { unfold total_variance. apply Rsum_ge_member.
          - apply List.Forall_forall. intros y [k [<- _]]%in_map_iff.
            apply variance_nonneg. now rewrite length_column.
          - apply in_map_iff. eauto. }
        lra. }
      rewrite Hv, sgn_0. unfold inf_of_sign.
      destruct (Rlt_dec 0 0); [lra | reflexivity].
    + left. apply map_ext. intros j. simpl. unfold weight.
      destruct (Req_dec_T (total_variance df) 0); [contradiction | reflexivity].
Qed.

Lemma pv_row_nan (r : list R) (js : list nat) (xf : nat -> R) :
  r = map xf js ->
  zip_with nmul (map (fun _ => NaN) js) (map Fin r) = map (fun _ => NaN) js.
Proof.
  intros ->. induction js as [|j js IH]; simpl; [reflexivity | now rewrite IH].
Qed.

Lemma pv_adjusted_cases (df : DataFrame) :
  wf_frame df ->
  sum_axis1 (df_index df) (pv_cells df) = weighted_spec df
  \/ sum_axis1 (df_index df) (pv_cells df) = constant_series (df_index df) (Fin 0).
Proof.
  intros Hwf. destruct (pv_weights_cases df) as [Hw|Hw].
  - left. now apply pv_adjusted_of_weights.
  - right. destruct Hwf as [Hlen Hrows].
    unfold sum_axis1, pv_cells, frame_values. rewrite Hw, !map_map.
    rewrite <- (mkSeries_constant (df_index df) (df_values df) (Fin 0) Hlen).
    f_equal. apply map_ext_in. intros r Hr.
    rewrite List.Forall_forall in Hrows. specialize (Hrows r Hr).
    rewrite (pv_row_nan r (seq 0 (n_judges df)) (fun j => nth j r 0))
      by now apply row_as_seq.
    apply nansum_nans.
Qed.

Lemma kappa_spec_values (df : DataFrame) (kappa : R) :
  wf_frame df ->
  values (kappa_spec df kappa) = map Fin (map (kappa_score df kappa) (df_values df)).
Proof.
  intros [Hlen _]. unfold kappa_spec. rewrite map_map.
  apply values_mkSeries. now rewrite length_map.
Qed.

Lemma kappa_spec_index (df : DataFrame) (kappa : R) :
  wf_frame df -> index (kappa_spec df kappa) = df_index df.
Proof.
  intros [Hlen _]. unfold kappa_spec. apply index_mkSeries. now rewrite length_map.
Qed.

Lemma weighted_spec_values (df : DataFrame) :
  wf_frame df ->
  values (weighted_spec df) = map Fin (map (weighted_score df) (df_values df)).
Proof.
  intros [Hlen _]. unfold weighted_spec. rewrite map_map.
  apply values_mkSeries. now rewrite length_map.
Qed.

Lemma weighted_spec_index (df : DataFrame) :
  wf_frame df -> index (weighted_spec df) = df_index df.
Proof.
  intros [Hlen _]. unfold weighted_spec. apply index_mkSeries. now rewrite length_map.
Qed.

Lemma constant_series_values_fin (idx : list label) (x : R) :
  values (constant_series idx (Fin x)) = map Fin (map (fun _ => x) idx).
Proof. unfold values, constant_series. now rewrite !map_map. Qed.

(** Before normalisation the scores of [proportional_variance] are finite
    and labelled by the projects. *)
Lemma pv_adjusted_finite (df : DataFrame) :
  wf_frame df ->
  index (sum_axis1 (df_index df) (pv_cells df)) = df_index df /\
  exists xs, values (sum_axis1 (df_index df) (pv_cells df)) = map Fin xs.
Proof.
  intros Hwf. destruct (pv_adjusted_cases df Hwf) as [-> | ->].
  - split; [now apply weighted_spec_index|]. eexists. now apply weighted_spec_values.
  - split; [apply index_constant_series|]. eexists. apply constant_series_values_fin.
Qed.

Lemma kappa_adjusted_unfold (df : DataFrame) (kappa : R) (normalize : bool) :
  wf_frame df -> kappa <> -1 ->
  kappa_adjusted df kappa normalize
  = Ok (sort_values (if normalize then _normalize (kappa_spec df kappa)
                     else kappa_spec df kappa)).
Proof.
  intros Hwf Hk. assert (Hk' : 1 + kappa <> 0) by lra.
  unfold kappa_adjusted, py_div.
  destruct (Req_dec_T (1 + kappa) 0); [contradiction|]. simpl.
  now rewrite kappa_adjusted_scores.
Qed.

Lemma kappa_adjusted_ok_inv (df : DataFrame) (kappa : R) (normalize : bool) (res : Series) :
  kappa_adjusted df kappa normalize = Ok res -> kappa <> -1.
Proof.
  unfold kappa_adjusted, py_div. intros H ->.
  destruct (Req_dec_T (1 + -1) 0); [discriminate | lra].
Qed.

Lemma flat_judge_wf : wf_frame flat_judge.
Proof. split; [reflexivity | repeat constructor]. Qed.

Lemma no_projects_wf : wf_frame no_projects.
Proof. split; [reflexivity | constructor]. Qed.

Lemma no_judges_wf : wf_frame no_judges.
Proof. split; [reflexivity | repeat constructor]. Qed.

Lemma one_project_wf : wf_frame one_project.
Proof. split; [reflexivity | repeat constructor]. Qed.

Lemma demo_index_nodup : List.NoDup (df_index demo_scores).
Proof.
  simpl. apply List.NoDup_cons; [simpl; intros [H|[]]; discriminate H|].
  apply List.NoDup_cons; [simpl; tauto | apply List.NoDup_nil].
Qed.

Lemma kappa_spec_degenerate (df : DataFrame) (kappa : R) :
  wf_frame df -> df_index df = [] \/ df_columns df = [] ->
  kappa_spec df kappa = constant_series (df_index df) (Fin 0).
Proof.
  intros [Hlen _] [Hidx | Hcols]; unfold kappa_spec.
  - now rewrite Hidx.
  - rewrite <- (mkSeries_constant (df_index df) (df_values df) (Fin 0) Hlen).
    f_equal. apply map_ext. intros r. unfold kappa_score, n_judges.
    now rewrite Hcols.
Qed.

Lemma weighted_spec_degenerate (df : DataFrame) :
  wf_frame df -> df_index df = [] \/ df_columns df = [] ->
  weighted_spec df = constant_series (df_index df) (Fin 0).
Proof.
  intros [Hlen _] [Hidx | Hcols]; unfold weighted_spec.
  - now rewrite Hidx.
  - rewrite <- (mkSeries_constant (df_index df) (df_values df) (Fin 0) Hlen).
    f_equal. apply map_ext. intros r. unfold weighted_score, n_judges.
    now rewrite Hcols.
Qed.

Lemma finish_constant (idx : list label) (normalize : bool) :
  sort_values (if normalize then _normalize (constant_series idx (Fin 0))
               else constant_series idx (Fin 0))
  = constant_series idx (if normalize then NaN else Fin 0).
Proof.
  destruct normalize.
  - rewrite (normalize_constant _ (Fin 0)) by apply values_constant_series.
    rewrite index_constant_series. apply sort_values_nan.
  - apply sort_values_fin_constant.
Qed.

Lemma degenerate_shape_outputs (df : DataFrame) (kappa : R) (normalize : bool) :
  wf_frame df -> kappa <> -1 ->
  df_index df = [] \/ df_columns df = [] ->
  kappa_adjusted df kappa normalize
  = Ok (constant_series (df_index df) (if normalize then NaN else Fin 0)) /\
  proportional_variance df normalize
  = Ok (constant_series (df_index df) (if normalize then NaN else Fin 0)).
Proof.
  intros Hwf Hk Hshape. split.
  - rewrite (kappa_adjusted_unfold df kappa normalize Hwf Hk).
    rewrite (kappa_spec_degenerate df kappa Hwf Hshape).
    now rewrite finish_constant.
  - unfold proportional_variance.
    assert (Hadj : sum_axis1 (df_index df) (pv_cells df)
                   = constant_series (df_index df) (Fin 0)).
    { destruct (pv_adjusted_cases df Hwf) as [-> | ->]; [|reflexivity].
      now apply weighted_spec_degenerate. }
    rewrite Hadj. now rewrite finish_constant.
Qed.

Lemma length_zip_with_same {A B C : Type} (f : A -> B -> C) (xs : list A) (ys : list B) :
  length xs = length ys -> length (zip_with f xs ys) = length xs.
Proof.
  revert ys. induction xs as [|x xs IH]; intros [|y ys] H; simpl in *; try congruence.
  f_equal. apply IH. congruence.
Qed.

Lemma series_add_index (a b res : Series) :
  series_add a b = Ok res -> index res = index a.
Proof.
  unfold series_add. destruct (decide (index a = index b)) as [Hidx|]; [|discriminate].
  intros [= <-]. apply index_mkSeries.
  apply (f_equal (@length label)) in Hidx. unfold index, values in *.
  rewrite !length_map in Hidx. rewrite length_zip_with_same; rewrite !length_map; auto.
Qed.

(** ** Worked examples *)

(** The specification's blend scenario, both vectors keyed by project name. *)
Example blend_scenario :
  exists v1 v2,
    showcase_prescreening_score demo_adjusted demo_attendance_by_name (2 / 10) None
    = Ok [(LStr "P1", Fin v1); (LStr "P2", Fin v2)] /\
    v1 = 74 / 100 /\ v2 = 44 / 100.
Proof.
  eexists _, _. split.
  - rewrite (showcase_ok _ _ demo_attendance_by_name (2 / 10) None eq_refl).
    + unfold series_at. simpl. reflexivity.
    + simpl. apply List.NoDup_cons; [simpl; intros [H|[]]; discriminate H|].
      apply List.NoDup_cons; [simpl; tauto | apply List.NoDup_nil].
    + simpl. tauto.
  - split; lra.
Qed.

Lemma number_name_pairs_1 : number_name_pairs !! LInt 1 = Some (LStr "P1").
Proof. reflexivity. Qed.

Lemma number_name_pairs_2 : number_name_pairs !! LInt 2 = Some (LStr "P2").
Proof. reflexivity. Qed.

(** With the attendance keyed by project number, the call succeeds when the
    mapping goes from attendance labels to score labels. *)
Example blend_number_name_pairs :
  exists v1 v2,
    showcase_prescreening_score demo_adjusted demo_attendance (2 / 10)
      (Some number_name_pairs)
    = Ok [(LStr "P1", Fin v1); (LStr "P2", Fin v2)] /\
    v1 = 74 / 100 /\ v2 = 44 / 100.
Proof.
  assert (Hre : remap_attendance demo_attendance (Some number_name_pairs)
                = Ok demo_attendance_by_name).
  { unfold remap_attendance. simpl.
    rewrite number_name_pairs_1, number_name_pairs_2. reflexivity. }
  eexists _, _. split.
  - rewrite (showcase_ok _ _ demo_attendance_by_name (2 / 10) _ Hre).
    + unfold series_at. simpl. reflexivity.
    + simpl. apply List.NoDup_cons; [simpl; intros [H|[]]; discriminate H|].
      apply List.NoDup_cons; [simpl; tauto | apply List.NoDup_nil].
    + simpl. tauto.
  - split; lra.
Qed.

(** With a single project the standard deviation is NaN and so is every cell
    for [kappa = 1]; the row sum skips them and the score is 0. *)
Example single_project_cell : kappa_cell 1 (1 / 2) 8 (column 0 one_project) = NaN.
Proof.
  unfold kappa_cell, column. simpl map.
  rewrite (std_short [8]) by (simpl; lia).
  rewrite (mean_nonempty [8]) by discriminate.
  unfold npow at 2. destruct (Req_dec_T 1 0); [lra|]. simpl.
  unfold npow. destruct (Req_dec_T (1 / 2) 0); [lra | reflexivity].
Qed.

Lemma kappa_term_single (kappa x : R) : kappa_term kappa x [x] = 0.
Proof.
  unfold kappa_term, mu. simpl.
  replace (x - (x + 0) / 1) with 0 by field. rewrite sgn_0. lra.
Qed.

Example single_project_score :
  kappa_adjusted one_project 1 false = Ok [(LStr "P1", Fin 0)].
Proof.
  rewrite (kappa_adjusted_unfold one_project 1 false one_project_wf) by lra.
  assert (Hspec : kappa_spec one_project 1 = constant_series [LStr "P1"] (Fin 0)).
  { unfold kappa_spec, kappa_score, column. simpl.
    rewrite !kappa_term_single. do 3 f_equal. lra. }
  rewrite Hspec, sort_values_fin_constant. reflexivity.
Qed.

(** The specification's scenario, [kappa = 0]: P1 scores 1/2 and comes first,
    P2 scores -1/2. *)
Example kappa_zero_scenario :
  exists a b,
    kappa_adjusted demo_scores 0 false = Ok [(LStr "P1", Fin a); (LStr "P2", Fin b)] /\
    a = 1 / 2 /\ b = - (1 / 2).
Proof.
  assert (HA : mu (column 0 demo_scores) = 6) by (unfold mu, column; simpl; lra).
  assert (HB : mu (column 1 demo_scores) = 15 / 2) by (unfold mu, column; simpl; lra).
  assert (H1 : deviation_score demo_scores [8; 6] = 1 / 2).
  { rewrite deviation_score_sum. unfold n_judges. simpl. rewrite HA, HB. lra. }
  assert (H2 : deviation_score demo_scores [4; 9] = - (1 / 2)).
  { rewrite deviation_score_sum. unfold n_judges. simpl. rewrite HA, HB. lra. }
  exists (1 / 2), (- (1 / 2)). split; [|split; reflexivity].
  rewrite (kappa_adjusted_unfold demo_scores 0 false demo_scores_wf) by lra.
  rewrite kappa_spec_zero. unfold deviation_spec. simpl. rewrite H1, H2.
  unfold sort_values. simpl. unfold nltb. simpl.
  destruct (Rle_dec (1 / 2) (- (1 / 2))); [lra | reflexivity].
Qed.

(** * The claims *)

(** C1. With [normalize=False] and [kappa <> -1], [kappa_adjusted] returns,
    for every project, the sum over the judges [j] of
    [sign(d) * (|d| * sigma_j^kappa)^(1/(1+kappa))] with [d = score - mu_j];
    [mu_j] and [sigma_j] are judge [j]'s mean and sample standard deviation over
    all projects, and a cell whose deviation is zero adds exactly zero to the
    sum. *)
Theorem kappa_adjusted_formula (df : DataFrame) (kappa : R) :
  wf_frame df -> kappa <> -1 ->
  (exists res, kappa_adjusted df kappa false = Ok res /\
               Permutation res (kappa_spec df kappa)) /\
  (forall x c, In x c -> x - mu c = 0 ->
     fill0 (kappa_cell kappa (1 / (1 + kappa)) x c) = Fin 0 /\
     kappa_term kappa x c = 0).
Proof.
  intros Hwf Hk. assert (Hk' : 1 + kappa <> 0) by lra. split.
  - exists (sort_values (kappa_spec df kappa)). split; [|apply sort_values_perm].
    unfold kappa_adjusted, py_div.
    destruct (Req_dec_T (1 + kappa) 0); [contradiction|]. simpl.
    now rewrite kappa_adjusted_scores.
  - intros x c Hin Hd.
    assert (Ht : kappa_term kappa x c = 0).
    { unfold kappa_term. cbv zeta. rewrite Hd, sgn_0. lra. }
    split; [|exact Ht]. rewrite kappa_cell_term by assumption. now rewrite Ht.
Qed.

Lemma kappa_adjusted_formula_witness :
  exists res, kappa_adjusted demo_scores 1 false = Ok res /\
              Permutation res (kappa_spec demo_scores 1).
Proof.
  apply (kappa_adjusted_formula demo_scores 1); [exact demo_scores_wf | lra].
Defined.

(** C2. With [normalize=False], on a table in which at least one judge has a
    nonzero variance, [proportional_variance] returns for every project the
    weighted average [sum_j w_j * score[p,j]] with [w_j = v_j / sum_k v_k], and
    the weights computed by the code are these [w_j] and sum to 1. *)
Theorem proportional_variance_weighted_average (df : DataFrame) :
  wf_frame df ->
  (exists j v, (j < n_judges df)%nat /\ var (column j df) = Fin v /\ v <> 0) ->
  (exists res, proportional_variance df false = Ok res /\
               Permutation res (weighted_spec df)) /\
  values (pv_weights df) = map (fun j => Fin (weight df j)) (seq 0 (n_judges df)) /\
  Rsum (map (weight df) (seq 0 (n_judges df))) = 1 /\
  series_sum (pv_weights df) = Fin 1.
Proof.
  intros Hwf (j & v & Hj & Hvar & Hnz).
  assert (Hv : exists j, (j < n_judges df)%nat /\ variance (column j df) <> 0).
  { exists j. split; [assumption|]. destruct (var_fin _ _ Hvar) as [_ <-]. exact Hnz. }
  repeat split.
  - exists (sort_values (weighted_spec df)). split; [|apply sort_values_perm].
    unfold proportional_variance. now rewrite pv_adjusted_scores.
  - now apply pv_weights_values.
  - now apply weights_sum_one.
  - unfold series_sum. rewrite (pv_weights_values df Hv).
    rewrite <- (map_map (weight df) Fin), nansum_fin.
    now rewrite weights_sum_one.
Qed.

Lemma proportional_variance_weighted_average_witness :
  exists res, proportional_variance demo_scores false = Ok res /\
              Permutation res (weighted_spec demo_scores).
Proof.
  apply (proportional_variance_weighted_average demo_scores);
    [exact demo_scores_wf|].
  exists 0%nat, 8. split; [unfold n_judges; simpl; lia|].
  split; [exact demo_scores_variance | lra].
Defined.

(** C3. The blend with a mapping, at the specification's scenario: scores
    keyed by project name, attendance keyed by project number, and the name to
    number mapping of the docstring.  The specification's blend is defined
    there (0.74 and 0.44); the code sends the attendance labels through the
    mapping instead of the score labels and raises [KeyError]. *)
Theorem showcase_mapping_direction :
  showcase_prescreening_score demo_adjusted demo_attendance (2 / 10) (Some demo_mapping)
  = KeyError [LInt 1] /\
  exists v1 v2,
    blend_spec demo_adjusted demo_attendance (2 / 10) (Some demo_mapping)
    = Some [(LStr "P1", Fin v1); (LStr "P2", Fin v2)] /\
    v1 = 74 / 100 /\ v2 = 44 / 100.
Proof.
  split.
  - unfold showcase_prescreening_score, remap_attendance. simpl.
    rewrite demo_mapping_1. reflexivity.
  - eexists _, _. split.
    + simpl. rewrite demo_mapping_P1, demo_mapping_P2. simpl.
      reflexivity.
    + split; lra.
Qed.

(** Without a mapping the lookup is [attendance.loc[scores.index]] itself: a
    score identifier that is no attendance label raises [KeyError], and the
    error carries exactly score identifiers that were not found, that one
    among them. *)
Lemma missing_identifier_no_mapping (scores attendance : Series) (r : R) (p : label) :
  In p (index scores) -> ~ In p (index attendance) ->
  exists ks,
    showcase_prescreening_score scores attendance r None = KeyError ks /\
    In p ks /\
    Forall (fun k => In k (index scores) /\ ~ In k (index attendance)) ks.
Proof.
  intros Hp Hmiss. unfold showcase_prescreening_score. simpl.
  destruct (loc_missing _ _ p Hp Hmiss) as (ks & -> & Hin & Hall).
  exists ks. auto.
Qed.

(** C4. With a mapping the claim fails on the code, by the defect of C3 (the
    attendance labels, not the score identifiers, are sent through the
    mapping).  In the renumbering scenario the score identifier 2 translates
    to 3, which is no attendance label, so the specification's blend is
    undefined and the claim asks for a lookup error; the code re-labels the
    attendance row 1 as 2 and returns, under project 2, a blend with the
    attendance of another row.  In the docstring's scenario with the
    attendance row of project 2 missing, the code does raise [KeyError], but
    for the label 1, which is present, and not for the missing 2. *)
Theorem missing_identifier_not_detected :
  (In (LInt 2) (index renumbered_scores) /\
   translate (Some renumbering) (LInt 2) = Some (LInt 3) /\
   ~ In (LInt 3) (index first_attendance) /\
   blend_spec renumbered_scores first_attendance (2 / 10) (Some renumbering) = None /\
   showcase_prescreening_score renumbered_scores first_attendance (2 / 10)
     (Some renumbering)
   = Ok [(LInt 2, Fin (8 / 10 * (1 - 2 / 10) + 5 / 10 * (2 / 10)))]) /\
  (translate (Some demo_mapping) (LStr "P2") = Some (LInt 2) /\
   ~ In (LInt 2) (index demo_attendance_short) /\
   In (LInt 1) (index demo_attendance_short) /\
   showcase_prescreening_score demo_adjusted demo_attendance_short (2 / 10)
     (Some demo_mapping)
   = KeyError [LInt 1]).
Proof.
  split; [split; [|split; [|split; [|split]]] | split; [|split; [|split]]].
  - simpl. now left.
  - reflexivity.
  - simpl. intros [H|[]]. discriminate H.
  - reflexivity.
  - assert (Hre : remap_attendance first_attendance (Some renumbering)
                  = Ok (finite_series [(LInt 2, 5 / 10)])) by reflexivity.
    rewrite (showcase_ok _ _ _ (2 / 10) _ Hre).
    + unfold series_at. simpl. reflexivity.
    + simpl. apply List.NoDup_cons; [simpl; tauto | apply List.NoDup_nil].
    + simpl. tauto.
  - reflexivity.
  - simpl. intros [H|[]]. discriminate H.
  - simpl. now left.
  - unfold showcase_prescreening_score, remap_attendance. simpl.
    rewrite demo_mapping_1. reflexivity.
Qed.

(** C5. With [kappa = 0] and [normalize=False], [kappa_adjusted] returns for
    every project the plain sum over the judges of
    [sign(score - mu_j) * |score - mu_j|], which is the sum of the deviations
    [score - mu_j]; a judge whose column has zero standard deviation is no
    exception. *)
Theorem kappa_zero_signed_deviation_sum (df : DataFrame) :
  wf_frame df ->
  (exists res, kappa_adjusted df 0 false = Ok res /\
               Permutation res (deviation_spec df)) /\
  (forall row,
     deviation_score df row
     = Rsum (map (fun j => nth j row 0 - mu (column j df)) (seq 0 (n_judges df)))).
Proof.
  intros Hwf. split.
  - exists (sort_values (deviation_spec df)). split; [|apply sort_values_perm].
    rewrite (kappa_adjusted_unfold df 0 false Hwf) by lra.
    now rewrite kappa_spec_zero.
  - apply deviation_score_sum.
Qed.

Lemma kappa_zero_signed_deviation_sum_witness :
  exists res, kappa_adjusted flat_judge 0 false = Ok res /\
              Permutation res (deviation_spec flat_judge).
Proof.
  apply (kappa_zero_signed_deviation_sum flat_judge). exact flat_judge_wf.
Defined.

(** C6. [_normalize] sends a finite sequence whose maximum [b] exceeds its
    minimum [a] to the sequence of the [(x - a) / (b - a)], of the same length,
    with minimum 0 and maximum 1; hence [kappa_adjusted] and
    [proportional_variance] with [normalize=True] return values with minimum 0
    and maximum 1 whenever the scores before normalisation contain two
    distinct values. *)
Theorem normalize_min_max (df : DataFrame) :
  wf_frame df ->
  (forall (arr : list (label * R)) (a b : R),
     is_min a (map snd arr) -> is_max b (map snd arr) -> a < b ->
     _normalize (finite_series arr)
     = finite_series (map (fun e => (fst e, rescale a b (snd e))) arr) /\
     length (_normalize (finite_series arr)) = length arr /\
     nanmin (values (_normalize (finite_series arr))) = Fin 0 /\
     nanmax (values (_normalize (finite_series arr))) = Fin 1) /\
  (forall kappa raw,
     kappa_adjusted df kappa false = Ok raw -> two_distinct (values raw) ->
     exists res, kappa_adjusted df kappa true = Ok res /\
                 nanmin (values res) = Fin 0 /\ nanmax (values res) = Fin 1) /\
  (forall raw,
     proportional_variance df false = Ok raw -> two_distinct (values raw) ->
     exists res, proportional_variance df true = Ok res /\
                 nanmin (values res) = Fin 0 /\ nanmax (values res) = Fin 1).
Proof.
  intros Hwf. split; [|split].
  - intros arr a b Ha Hb Hab.
    assert (Hv : values (finite_series arr) = map Fin (map snd arr)).
    { unfold values, finite_series. now rewrite !map_map. }
    assert (Heq : _normalize (finite_series arr)
                  = finite_series (map (fun e => (fst e, rescale a b (snd e))) arr)).
    { unfold _normalize. rewrite Hv, (nanmin_is_min a _ Ha), (nanmax_is_max b _ Hb).
      unfold series_map, finite_series. rewrite !map_map.
      apply map_ext. intros [l x]. simpl fst. simpl snd.
      now rewrite normalize_cell. }
    destruct (rescale_extremes a b _ Ha Hb Hab) as [Hmin Hmax].
    pose proof (normalize_finite _ _ a b Hv Ha Hb Hab) as Hn.
    repeat split.
    + exact Heq.
    + rewrite Heq. unfold finite_series. now rewrite !length_map.
    + rewrite Hn. now apply nanmin_is_min.
    + rewrite Hn. now apply nanmax_is_max.
  - intros kappa raw Hraw Hd.
    pose proof (kappa_adjusted_ok_inv _ _ _ _ Hraw) as Hk.
    rewrite (kappa_adjusted_unfold df kappa false Hwf Hk) in Hraw.
    injection Hraw as <-.
    rewrite (kappa_adjusted_unfold df kappa true Hwf Hk).
    eexists. split; [reflexivity|].
    eapply normalize_then_sort; [now apply kappa_spec_values | exact Hd].
  - intros raw Hraw Hd. unfold proportional_variance in *.
    injection Hraw as <-.
    destruct (pv_adjusted_finite df Hwf) as [_ (xs & Hxs)].
    eexists. split; [reflexivity|].
    eapply normalize_then_sort; [exact Hxs | exact Hd].
Qed.

Lemma normalize_min_max_witness :
  _normalize (finite_series [(LStr "P1", 2); (LStr "P2", 5)])
  = finite_series (map (fun e => (fst e, rescale 2 5 (snd e)))
                       [(LStr "P1", 2); (LStr "P2", 5)]).
Proof.
  apply (proj1 (normalize_min_max demo_scores demo_scores_wf)
           [(LStr "P1", 2); (LStr "P2", 5)] 2 5).
  - split; [now left | repeat constructor; simpl; lra].
  - split; [right; now left | repeat constructor; simpl; lra].
  - lra.
Defined.

(** When the lookups of the code succeed (the attendance labels, as the code
    re-labels them, are distinct and contain every score identifier) and all
    values are finite: with ratio 0 the blend is the input scores, with ratio
    1 the attendance values found under the score identifiers, whatever the
    scores are.  Without a mapping, where nothing is re-labelled, this is the
    claim C7. *)
Lemma ratio_extremes_after_lookup (scores scores2 attendance : list (label * R))
  (mapping : option (gmap label label)) (attendance' : Series) :
  remap_attendance (finite_series attendance) mapping = Ok attendance' ->
  List.NoDup (index attendance') ->
  (forall p, In p (map fst scores) -> In p (index attendance')) ->
  map fst scores2 = map fst scores ->
  showcase_prescreening_score (finite_series scores) (finite_series attendance) 0 mapping
  = Ok (finite_series scores) /\
  showcase_prescreening_score (finite_series scores) (finite_series attendance) 1 mapping
  = Ok (map (fun p => (p, series_at attendance' p)) (map fst scores)) /\
  showcase_prescreening_score (finite_series scores2) (finite_series attendance) 1 mapping
  = showcase_prescreening_score (finite_series scores) (finite_series attendance) 1 mapping.
Proof.
  intros Hre Hnd Hall Hsame.
  assert (Hfin : forall p, In p (index attendance') -> is_fin (series_at attendance' p)).
  { intros p Hp. apply series_at_fin; [|assumption].
    apply List.Forall_forall. intros v Hv.
    pose proof (remap_attendance_values _ _ _ v Hre Hv) as Hv'.
    pose proof (finite_series_values attendance) as Hf.
    rewrite List.Forall_forall in Hf. now apply Hf. }
  assert (Hone : forall sc, map fst sc = map fst scores ->
            showcase_prescreening_score (finite_series sc) (finite_series attendance) 1 mapping
            = Ok (map (fun p => (p, series_at attendance' p)) (map fst scores))).
  { intros sc Hsc.
    rewrite (showcase_ok _ _ attendance' 1 mapping Hre Hnd)
      by (rewrite finite_series_index, Hsc; exact Hall).
    f_equal. rewrite <- Hsc. unfold finite_series. rewrite !map_map.
    apply map_ext_in. intros [l x] Hin. simpl.
    assert (Hl : In l (index attendance')).
    { apply Hall. rewrite <- Hsc. apply in_map_iff. exists (l, x). auto. }
    specialize (Hfin l Hl). destruct (series_at attendance' l); try contradiction.
    simpl. do 2 f_equal. lra. }
  repeat split.
  - rewrite (showcase_ok _ _ attendance' 0 mapping Hre Hnd)
      by (rewrite finite_series_index; exact Hall).
    f_equal. unfold finite_series. rewrite map_map.
    apply map_ext_in. intros [l x] Hin. simpl.
    assert (Hl : In l (index attendance')).
    { apply Hall. apply in_map_iff. exists (l, x). auto. }
    specialize (Hfin l Hl). destruct (series_at attendance' l); try contradiction.
    simpl. do 2 f_equal. lra.
  - now apply Hone.
  - rewrite (Hone scores2 Hsame). symmetry. now apply Hone.
Qed.

(** C7. With a mapping the claim fails on the code, by the defect of C3.  In
    the docstring's scenario every score identifier translates to an
    attendance label, so the key precondition holds and the specification's
    blend is the scores at ratio 0 and the attendance values at ratio 1; the
    code looks the attendance label 1 up in the mapping and raises
    [KeyError], at ratio 0 and at ratio 1. *)
Theorem blend_ratio_extremes_raise :
  Forall (fun p => exists a, translate (Some demo_mapping) p = Some a /\
                             In a (index demo_attendance))
         (index demo_adjusted) /\
  (exists v1 v2,
     blend_spec demo_adjusted demo_attendance 0 (Some demo_mapping)
     = Some [(LStr "P1", Fin v1); (LStr "P2", Fin v2)] /\
     v1 = 8 / 10 /\ v2 = 3 / 10) /\
  (exists v1 v2,
     blend_spec demo_adjusted demo_attendance 1 (Some demo_mapping)
     = Some [(LStr "P1", Fin v1); (LStr "P2", Fin v2)] /\
     v1 = 5 / 10 /\ v2 = 1) /\
  showcase_prescreening_score demo_adjusted demo_attendance 0 (Some demo_mapping)
  = KeyError [LInt 1] /\
  showcase_prescreening_score demo_adjusted demo_attendance 1 (Some demo_mapping)
  = KeyError [LInt 1].
Proof.
  split; [|split; [|split; [|split]]].
  - repeat constructor.
    + exists (LInt 1). split; [exact demo_mapping_P1 | simpl; now left].
    + exists (LInt 2). split; [exact demo_mapping_P2 | simpl; right; now left].
  - eexists _, _. split.
    + simpl. rewrite demo_mapping_P1, demo_mapping_P2. simpl. reflexivity.
    + split; lra.
  - eexists _, _. split.
    + simpl. rewrite demo_mapping_P1, demo_mapping_P2. simpl. reflexivity.
    + split; lra.
  - unfold showcase_prescreening_score, remap_attendance. simpl.
    rewrite demo_mapping_1. reflexivity.
  - unfold showcase_prescreening_score, remap_attendance. simpl.
    rewrite demo_mapping_1. reflexivity.
Qed.

(** C8. On a table with distinct project identifiers, [kappa_adjusted] and
    [proportional_variance] return exactly one entry for each project
    identifier of the table, in descending order of score (NaN, which has no
    order, comes last). *)
Theorem one_entry_per_project_sorted (df : DataFrame) (kappa : R) (normalize : bool) :
  wf_frame df -> List.NoDup (df_index df) -> kappa <> -1 ->
  (exists res, kappa_adjusted df kappa normalize = Ok res /\
               Permutation (index res) (df_index df) /\
               List.NoDup (index res) /\
               StronglySorted desc_nan_last res) /\
  (exists res, proportional_variance df normalize = Ok res /\
               Permutation (index res) (df_index df) /\
               List.NoDup (index res) /\
               StronglySorted desc_nan_last res).
Proof.
  intros Hwf Hnd Hk.
  assert (Hfin : forall adj, index adj = df_index df ->
            let res := sort_values (if normalize then _normalize adj else adj) in
            Permutation (index res) (df_index df) /\ List.NoDup (index res) /\
            StronglySorted desc_nan_last res).
  { intros adj Hidx res.
    assert (Hp : Permutation (index res) (df_index df)).
    { unfold res. rewrite (index_perm _ _ (sort_values_perm _)).
      destruct normalize; [rewrite index_normalize|]; now rewrite Hidx. }
    repeat split; [exact Hp | | apply sort_values_sorted].
    eapply Permutation_NoDup; [symmetry; exact Hp | exact Hnd]. }
  split.
  - eexists. split; [now apply kappa_adjusted_unfold|].
    apply Hfin. now apply kappa_spec_index.
  - eexists. split; [reflexivity|].
    apply Hfin. now apply pv_adjusted_finite.
Qed.

Lemma one_entry_per_project_sorted_witness :
  exists res, kappa_adjusted demo_scores 1 true = Ok res /\
              Permutation (index res) (df_index demo_scores) /\
              List.NoDup (index res) /\
              StronglySorted desc_nan_last res.
Proof.
  apply (one_entry_per_project_sorted demo_scores 1 true);
    [exact demo_scores_wf | exact demo_index_nodup | lra].
Defined.

(** C9, as the code has it.  A table without projects or without judges is
    not rejected: [kappa_adjusted] (for [kappa <> -1]) and
    [proportional_variance] raise nothing and return one entry per project,
    none for a table without projects, whose value is 0 with
    [normalize=False] and NaN with [normalize=True]. *)
Theorem degenerate_shape_returns (df : DataFrame) (kappa : R) (normalize : bool) :
  wf_frame df -> kappa <> -1 ->
  df_index df = [] \/ df_columns df = [] ->
  let out := constant_series (df_index df) (if normalize then NaN else Fin 0) in
  kappa_adjusted df kappa normalize = Ok out /\
  proportional_variance df normalize = Ok out /\
  ~ raises (kappa_adjusted df kappa normalize) /\
  ~ raises (proportional_variance df normalize).
Proof.
  intros Hwf Hk Hshape out.
  destruct (degenerate_shape_outputs df kappa normalize Hwf Hk Hshape) as [H1 H2].
  fold out in H1, H2. rewrite H1, H2. simpl. tauto.
Qed.

Lemma degenerate_shape_returns_witness :
  kappa_adjusted no_judges 1 true
  = Ok (constant_series (df_index no_judges) NaN) /\
  proportional_variance no_judges true
  = Ok (constant_series (df_index no_judges) NaN) /\
  ~ raises (kappa_adjusted no_judges 1 true) /\
  ~ raises (proportional_variance no_judges true).
Proof.
  apply (degenerate_shape_returns no_judges 1 true);
    [exact no_judges_wf | lra | now right].
Defined.

(** C9, as stated, fails: on the table without projects and on the table
    without judges neither function raises. *)
Lemma degenerate_shape_not_rejected :
  ~ raises (kappa_adjusted no_projects 1 true) /\
  ~ raises (proportional_variance no_projects true) /\
  ~ raises (kappa_adjusted no_judges 1 false) /\
  ~ raises (proportional_variance no_judges false).
Proof.
  assert (H1 : (1 : R) <> -1) by lra.
  destruct (degenerate_shape_outputs no_projects 1 true no_projects_wf H1
              (or_introl eq_refl)) as [-> ->].
  destruct (degenerate_shape_outputs no_judges 1 false no_judges_wf H1
              (or_intror eq_refl)) as [-> ->].
  simpl. tauto.
Qed.

(** C10. [_normalize] raises nothing on a constant vector and returns a
    vector of the same labels whose every element is NaN; hence
    [kappa_adjusted] and [proportional_variance] with [normalize=True], on a
    table whose scores before normalisation are all equal, return NaN for
    every project: no zeros, no exception. *)
Theorem normalize_constant_all_nan (arr : Series) (c : num) :
  all_equal c (values arr) ->
  (_normalize arr = constant_series (index arr) NaN /\
   length (_normalize arr) = length arr) /\
  (forall df kappa raw,
     kappa_adjusted df kappa false = Ok raw -> all_equal c (values raw) ->
     exists res, kappa_adjusted df kappa true = Ok res /\
                 all_equal NaN (values res) /\
                 Permutation (index res) (index raw)) /\
  (forall df raw,
     proportional_variance df false = Ok raw -> all_equal c (values raw) ->
     exists res, proportional_variance df true = Ok res /\
                 all_equal NaN (values res) /\
                 Permutation (index res) (index raw)).
Proof.
  intros Hc.
  assert (Hgen : forall adj, all_equal c (values (sort_values adj)) ->
            all_equal NaN (values (sort_values (_normalize adj))) /\
            Permutation (index (sort_values (_normalize adj))) (index (sort_values adj))).
  { intros adj Hadj. rewrite (normalize_sort_constant adj c Hadj). split.
    - apply values_constant_series.
    - rewrite index_constant_series. symmetry. apply index_perm, sort_values_perm. }
  split; [|split].
  - split; [now apply (normalize_constant arr c)|].
    unfold _normalize. apply length_series_map.
  - intros df kappa raw Hraw Hall.
    unfold kappa_adjusted in *. destruct (py_div 1 (1 + kappa)); try discriminate.
    simpl in *. injection Hraw as <-. eexists. split; [reflexivity|].
    now apply Hgen.
  - intros df raw Hraw Hall. unfold proportional_variance in *.
    injection Hraw as <-. eexists. split; [reflexivity|]. now apply Hgen.
Qed.

Lemma normalize_constant_all_nan_witness :
  _normalize (constant_series [LStr "P1"; LStr "P2"] (Fin 3))
  = constant_series (index (constant_series [LStr "P1"; LStr "P2"] (Fin 3))) NaN.
Proof.
  apply (normalize_constant_all_nan
           (constant_series [LStr "P1"; LStr "P2"] (Fin 3)) (Fin 3)).
  apply values_constant_series.
Defined.

(** * Further properties *)

(** ** Normalisation keeps the ranking and lands in the unit interval *)

Lemma finite_extremes (adj : Series) (xs : list R) :
  values adj = map Fin xs -> two_distinct (values (sort_values adj)) ->
  exists a b, is_min a xs /\ is_max b xs /\ a < b.
Proof.
  intros Hv (u & v & Hu & Hv' & Hne).
  pose proof (values_perm _ _ (sort_values_perm adj)) as Hp. rewrite Hv in Hp.
  apply (Permutation_in _ Hp) in Hu. apply (Permutation_in _ Hp) in Hv'.
  apply in_map_iff in Hu as (x & <- & Hx). apply in_map_iff in Hv' as (y & <- & Hy).
  assert (Hxy : x <> y) by congruence.
  destruct xs as [|x0 rest]; [inversion Hx|].
  destruct (nanmin_fin x0 rest) as (a & _ & Ha).
  destruct (nanmax_fin x0 rest) as (b & _ & Hb).
  exists a, b. split; [exact Ha|]. split; [exact Hb|].
  exact (extremes_apart a b x y _ Ha Hb Hx Hy Hxy).
Qed.

Lemma normalize_as_map (s : Series) (xs : list R) (a b : R) :
  values s = map Fin xs -> is_min a xs -> is_max b xs ->
  _normalize s = series_map (fun v => ndiv (nsub v (Fin a)) (nsub (Fin b) (Fin a))) s.
Proof.
  intros Hv Ha Hb. unfold _normalize.
  now rewrite Hv, (nanmin_is_min a xs Ha), (nanmax_is_max b xs Hb).
Qed.

Lemma nltb_fin (x y : R) : nltb (Fin x) (Fin y) = if Rlt_dec x y then true else false.
Proof.
  unfold nltb. simpl.
  destruct (Rle_dec x y), (Rle_dec y x), (Rlt_dec x y); simpl; try reflexivity; lra.
Qed.

Lemma rescale_lt (a b x y : R) : a < b -> (rescale a b x < rescale a b y <-> x < y).
Proof.
  intros Hab. unfold rescale, Rdiv.
  assert (Ht : 0 < / (b - a)) by (apply Rinv_0_lt_compat; lra).
  split; intros H; nra.
Qed.

Lemma insert_desc_map (g : num -> num) (e : label * num) (t : Series) :
  (forall h, In h t -> nltb (g (snd e)) (g (snd h)) = nltb (snd e) (snd h)) ->
  insert_desc (fst e, g (snd e)) (series_map g t) = series_map g (insert_desc e t).
Proof.
  induction t as [|h t IH]; intros H; simpl; [reflexivity|].
  rewrite (H h) by (now left).
  destruct (nltb (snd e) (snd h)); simpl; [|reflexivity].
  f_equal. apply IH. intros h' Hh'. apply H. now right.
Qed.

Lemma sort_desc_map (g : num -> num) (s : Series) :
  (forall u v, In u s -> In v s ->
     nltb (g (snd u)) (g (snd v)) = nltb (snd u) (snd v)) ->
  sort_desc (series_map g s) = series_map g (sort_desc s).
Proof.
  induction s as [|e s IH]; intros H; simpl; [reflexivity|].
  rewrite IH by (intros u v Hu Hv; apply H; now right).
  apply insert_desc_map. intros h Hh. apply H; [now left|].
  right. eapply Permutation_in; [apply sort_desc_perm | exact Hh].
Qed.

Lemma filter_series_map (g : num -> num) (p : num -> bool) (s : Series) :
  (forall e, In e s -> p (g (snd e)) = p (snd e)) ->
  List.filter (fun e => p (snd e)) (series_map g s)
  = series_map g (List.filter (fun e => p (snd e)) s).
Proof.
  induction s as [|e s IH]; intros H; simpl; [reflexivity|].
  rewrite (H e) by (now left).
  rewrite IH by (intros e' He'; apply H; now right).
  now destruct (p (snd e)).
Qed.

(** Sorting commutes with a value map that keeps NaN apart and the strict
    order of the values. *)
Lemma sort_values_map (g : num -> num) (s : Series) :
  (forall e, In e s -> isnan (g (snd e)) = isnan (snd e)) ->
  (forall u v, In u s -> In v s ->
     nltb (g (snd u)) (g (snd v)) = nltb (snd u) (snd v)) ->
  sort_values (series_map g s) = series_map g (sort_values s).
Proof.
  intros Hnan Hlt. unfold sort_values.
  rewrite (filter_series_map g notnan), (filter_series_map g isnan).
  - unfold series_map at 3. rewrite map_app. f_equal.
    apply sort_desc_map. intros u v [Hu _]%List.filter_In [Hv _]%List.filter_In.
    now apply Hlt.
  - assumption.
  - intros e He. unfold notnan. now rewrite Hnan.
Qed.

Lemma finite_entry (s : Series) (xs : list R) (e : label * num) :
  values s = map Fin xs -> In e s -> exists x, snd e = Fin x /\ In x xs.
Proof.
  intros Hv He.
  assert (Hin : In (snd e) (values s)) by (unfold values; now apply in_map).
  rewrite Hv in Hin. apply in_map_iff in Hin as (x & Hx & Hxs). eauto.
Qed.

(** Normalising before sorting is the same as rescaling the sorted scores. *)
Lemma sort_normalize_finite (adj : Series) (xs : list R) (a b : R) :
  values adj = map Fin xs -> is_min a xs -> is_max b xs -> a < b ->
  sort_values (_normalize adj)
  = series_map (fun v => ndiv (nsub v (Fin a)) (nsub (Fin b) (Fin a))) (sort_values adj).
Proof.
  intros Hv Ha Hb Hab. rewrite (normalize_as_map adj xs a b Hv Ha Hb).
  apply sort_values_map.
  - intros e He. destruct (finite_entry adj xs e Hv He) as (x & -> & _).
    now rewrite normalize_cell.
  - intros u v Hu Hv'.
    destruct (finite_entry adj xs u Hv Hu) as (x & -> & _).
    destruct (finite_entry adj xs v Hv Hv') as (y & -> & _).
    rewrite !normalize_cell, !nltb_fin by assumption.
    pose proof (rescale_lt a b x y Hab).
    destruct (Rlt_dec (rescale a b x) (rescale a b y)), (Rlt_dec x y);
      try reflexivity; tauto.
Qed.

Lemma normalized_sorted_facts (adj : Series) (xs : list R) :
  values adj = map Fin xs -> two_distinct (values (sort_values adj)) ->
  index (sort_values (_normalize adj)) = index (sort_values adj) /\
  Forall (fun v => exists y, v = Fin y /\ 0 <= y <= 1)
         (values (sort_values (_normalize adj))).
Proof.
  intros Hv Hd. destruct (finite_extremes adj xs Hv Hd) as (a & b & Ha & Hb & Hab).
  rewrite (sort_normalize_finite adj xs a b Hv Ha Hb Hab). split.
  - apply index_series_map.
  - rewrite values_series_map. apply List.Forall_forall.
    intros v (u & <- & Hu)%in_map_iff.
    pose proof (values_perm _ _ (sort_values_perm adj)) as Hp. rewrite Hv in Hp.
    apply (Permutation_in _ Hp) in Hu. apply in_map_iff in Hu as (x & <- & Hx).
    rewrite normalize_cell by assumption. exists (rescale a b x). split; [reflexivity|].
    destruct (rescale_extremes a b xs Ha Hb Hab) as [[_ Hlo] [_ Hhi]].
    rewrite List.Forall_forall in Hlo, Hhi.
    split; [apply Hlo | apply Hhi]; now apply in_map.
Qed.

(** Normalising before or after the sort gives the same entries. *)
Lemma normalize_sort_perm (adj : Series) (xs : list R) :
  values adj = map Fin xs ->
  Permutation (sort_values (_normalize adj)) (_normalize (sort_values adj)).
Proof.
  intros Hv. destruct xs as [|x0 rest].
  - destruct adj; [reflexivity | discriminate Hv].
  - destruct (nanmin_fin x0 rest) as (a & _ & Ha).
    destruct (nanmax_fin x0 rest) as (b & _ & Hb).
    pose proof (values_perm _ _ (sort_values_perm adj)) as Hp. rewrite Hv in Hp.
    destruct (Permutation_map_inv Fin (x0 :: rest) Hp) as (ys & Hys & Hperm).
    rewrite (normalize_as_map adj _ a b Hv Ha Hb).
    rewrite (normalize_as_map (sort_values adj) ys a b Hys
               (is_min_perm _ _ _ Hperm Ha) (is_max_perm _ _ _ Hperm Hb)).
    etransitivity; [apply sort_values_perm|].
    unfold series_map. apply Permutation_map, Permutation_sym, sort_values_perm.
Qed.

(** X1. Sorting and normalising commute: with [normalize=True],
    [kappa_adjusted] and [proportional_variance] return the entries of
    [_normalize] applied to their own [normalize=False] result - every label
    with the value [(x - a) / (b - a)] of its value [x] there, [a] and [b]
    the least and the greatest value there - up to the order of the
    entries. *)
Theorem normalized_result_of_raw_result (df : DataFrame) :
  wf_frame df ->
  (forall kappa raw,
     kappa_adjusted df kappa false = Ok raw ->
     exists res, kappa_adjusted df kappa true = Ok res /\
                 Permutation res (_normalize raw)) /\
  (forall raw,
     proportional_variance df false = Ok raw ->
     exists res, proportional_variance df true = Ok res /\
                 Permutation res (_normalize raw)).
Proof.
  intros Hwf. split.
  - intros kappa raw Hraw.
    pose proof (kappa_adjusted_ok_inv _ _ _ _ Hraw) as Hk.
    rewrite (kappa_adjusted_unfold df kappa false Hwf Hk) in Hraw.
    injection Hraw as <-.
    rewrite (kappa_adjusted_unfold df kappa true Hwf Hk).
    eexists. split; [reflexivity|].
    eapply normalize_sort_perm. now apply kappa_spec_values.
  - intros raw Hraw. unfold proportional_variance in *.
    injection Hraw as <-.
    destruct (pv_adjusted_finite df Hwf) as [_ (xs & Hxs)].
    eexists. split; [reflexivity|].
    eapply normalize_sort_perm. exact Hxs.
Qed.

(** X2. With [normalize=True] and two distinct scores before normalisation,
    every value [kappa_adjusted] and [proportional_variance] return is a
    finite number between 0 and 1. *)
Theorem normalized_scores_in_unit_interval (df : DataFrame) :
  wf_frame df ->
  (forall kappa raw res,
     kappa_adjusted df kappa false = Ok raw -> two_distinct (values raw) ->
     kappa_adjusted df kappa true = Ok res ->
     Forall (fun v => exists y, v = Fin y /\ 0 <= y <= 1) (values res)) /\
  (forall raw res,
     proportional_variance df false = Ok raw -> two_distinct (values raw) ->
     proportional_variance df true = Ok res ->
     Forall (fun v => exists y, v = Fin y /\ 0 <= y <= 1) (values res)).
Proof.
  intros Hwf. split.
  - intros kappa raw res Hraw Hd Hres.
    pose proof (kappa_adjusted_ok_inv _ _ _ _ Hraw) as Hk.
    rewrite (kappa_adjusted_unfold df kappa false Hwf Hk) in Hraw.
    rewrite (kappa_adjusted_unfold df kappa true Hwf Hk) in Hres.
    injection Hraw as <-. injection Hres as <-.
    eapply normalized_sorted_facts; [now apply kappa_spec_values | exact Hd].
  - intros raw res Hraw Hd Hres. unfold proportional_variance in *.
    injection Hraw as <-. injection Hres as <-.
    destruct (pv_adjusted_finite df Hwf) as [_ (xs & Hxs)].
    eapply normalized_sorted_facts; [exact Hxs | exact Hd].
Qed.

Lemma kappa_zero_demo :
  kappa_adjusted demo_scores 0 false
  = Ok [(LStr "P1", Fin (1 / 2)); (LStr "P2", Fin (- (1 / 2)))].
Proof.
  assert (HA : mu (column 0 demo_scores) = 6) by (unfold mu, column; simpl; lra).
  assert (HB : mu (column 1 demo_scores) = 15 / 2) by (unfold mu, column; simpl; lra).
  assert (H1 : deviation_score demo_scores [8; 6] = 1 / 2).
  { rewrite deviation_score_sum. unfold n_judges. simpl. rewrite HA, HB. lra. }
  assert (H2 : deviation_score demo_scores [4; 9] = - (1 / 2)).
  { rewrite deviation_score_sum. unfold n_judges. simpl. rewrite HA, HB. lra. }
  rewrite (kappa_adjusted_unfold demo_scores 0 false demo_scores_wf) by lra.
  rewrite kappa_spec_zero. unfold deviation_spec. simpl. rewrite H1, H2.
  unfold sort_values. simpl. unfold nltb. simpl.
  destruct (Rle_dec (1 / 2) (- (1 / 2))); [lra | reflexivity].
Qed.

Lemma kappa_zero_demo_distinct :
  two_distinct (values [(LStr "P1", Fin (1 / 2)); (LStr "P2", Fin (- (1 / 2)))]).
Proof.
  exists (Fin (1 / 2)), (Fin (- (1 / 2))). simpl.
  split; [now left|]. split; [right; now left|]. intros [= H]. lra.
Qed.

Lemma normalized_result_of_raw_result_witness :
  exists res,
    kappa_adjusted demo_scores 0 true = Ok res /\
    Permutation res (_normalize [(LStr "P1", Fin (1 / 2)); (LStr "P2", Fin (- (1 / 2)))]).
Proof.
  exact (proj1 (normalized_result_of_raw_result demo_scores demo_scores_wf) 0 _
           kappa_zero_demo).
Defined.

Lemma normalized_scores_in_unit_interval_witness :
  exists res, kappa_adjusted demo_scores 0 true = Ok res /\
    Forall (fun v => exists y, v = Fin y /\ 0 <= y <= 1) (values res).
Proof.
  assert (H : exists res, kappa_adjusted demo_scores 0 true = Ok res).
  { unfold kappa_adjusted, py_div.
    destruct (Req_dec_T (1 + 0) 0) as [H|H]; [lra | simpl; eauto]. }
  destruct H as [res H]. exists res. split; [exact H|].
  exact (proj1 (normalized_scores_in_unit_interval demo_scores demo_scores_wf)
           0 _ res kappa_zero_demo kappa_zero_demo_distinct H).
Defined.

Lemma normalize_finite_series (arr : list (label * R)) (a b : R) :
  is_min a (map snd arr) -> is_max b (map snd arr) -> a < b ->
  _normalize (finite_series arr)
  = finite_series (map (fun e => (fst e, rescale a b (snd e))) arr).
Proof.
  intros Ha Hb Hab.
  assert (Hv : values (finite_series arr) = map Fin (map snd arr)).
  { unfold values, finite_series. now rewrite !map_map. }
  rewrite (normalize_as_map _ _ a b Hv Ha Hb).
  unfold series_map, finite_series. rewrite !map_map.
  apply map_ext. intros [l x]. simpl fst. simpl snd. now rewrite normalize_cell.
Qed.

Lemma rescale_unit (x : R) : rescale 0 1 x = x.
Proof. unfold rescale. field. Qed.

(** X3. [_normalize] is idempotent on a finite vector whose maximum exceeds
    its minimum: a vector that is already normalised comes back unchanged. *)
Theorem normalize_idempotent (arr : list (label * R)) (a b : R) :
  is_min a (map snd arr) -> is_max b (map snd arr) -> a < b ->
  _normalize (_normalize (finite_series arr)) = _normalize (finite_series arr).
Proof.
  intros Ha Hb Hab. rewrite (normalize_finite_series arr a b Ha Hb Hab).
  destruct (rescale_extremes a b _ Ha Hb Hab) as [Hmin Hmax].
  set (arr' := map (fun e => (fst e, rescale a b (snd e))) arr).
  assert (Hsnd : map snd arr' = map (rescale a b) (map snd arr)).
  { unfold arr'. now rewrite !map_map. }
  rewrite (normalize_finite_series arr' 0 1) by (rewrite ?Hsnd; try assumption; lra).
  f_equal. rewrite <- (map_id arr') at 2. apply map_ext.
  intros [l x]. simpl. now rewrite rescale_unit.
Qed.

Lemma normalize_idempotent_witness :
  _normalize (_normalize (finite_series [(LStr "P1", 2); (LStr "P2", 5)]))
  = _normalize (finite_series [(LStr "P1", 2); (LStr "P2", 5)]).
Proof.
  apply (normalize_idempotent [(LStr "P1", 2); (LStr "P2", 5)] 2 5).
  - split; [now left | repeat constructor; simpl; lra].
  - split; [right; now left | repeat constructor; simpl; lra].
  - lra.
Defined.

(** ** Degenerate and bounded inputs of [proportional_variance] *)

Lemma pv_weights_degenerate (df : DataFrame) :
  (forall j, (j < n_judges df)%nat ->
     var (column j df) = NaN \/ var (column j df) = Fin 0) ->
  values (pv_weights df) = map (fun _ => NaN) (seq 0 (n_judges df)).
Proof.
  intros Hdeg. unfold pv_weights, series_sum. rewrite values_series_map.
  destruct (le_gt_dec (length (df_values df)) 1) as [Hshort|Hlong].
  - unfold df_var. rewrite values_reduce_axis0, map_map.
    apply map_ext. intros j. rewrite var_short by now rewrite length_column.
    reflexivity.
  - assert (Hlen : (2 <= length (df_values df))%nat) by lia.
    assert (Hzero : forall j, In j (seq 0 (n_judges df)) -> variance (column j df) = 0).
    { intros j Hj%in_seq. destruct (Hdeg j) as [H|H]; [lia | |];
        rewrite var_two in H by (now rewrite length_column); congruence. }
    rewrite (df_var_values df Hlen), nansum_fin, !map_map.
    rewrite (Rsum_map_ext _ (fun _ => 0) _ Hzero), Rsum_zeros.
    apply map_ext_in. intros j Hj. simpl. rewrite (Hzero j Hj).
    destruct (Req_dec_T 0 0); [|lra]. rewrite sgn_0. unfold inf_of_sign.
    destruct (Rlt_dec 0 0); [lra | reflexivity].
Qed.

Lemma pv_adjusted_of_nan_weights (df : DataFrame) :
  wf_frame df ->
  values (pv_weights df) = map (fun _ => NaN) (seq 0 (n_judges df)) ->
  sum_axis1 (df_index df) (pv_cells df) = constant_series (df_index df) (Fin 0).
Proof.
  intros [Hlen Hrows] Hw.
  unfold sum_axis1, pv_cells, frame_values. rewrite Hw, !map_map.
  rewrite <- (mkSeries_constant (df_index df) (df_values df) (Fin 0) Hlen).
  f_equal. apply map_ext_in. intros r Hr.
  rewrite List.Forall_forall in Hrows. specialize (Hrows r Hr).
  rewrite (pv_row_nan r (seq 0 (n_judges df)) (fun j => nth j r 0))
    by now apply row_as_seq.
  apply nansum_nans.
Qed.

(** X4. When no judge has a usable variance (every column variance is NaN,
    as with a single project, or zero), [proportional_variance] raises
    nothing: the weights are NaN, the NaN products are skipped by the row
    sum, and every project gets 0 with [normalize=False] and NaN with
    [normalize=True]. *)
Theorem proportional_variance_degenerate (df : DataFrame) (normalize : bool) :
  wf_frame df ->
  (forall j, (j < n_judges df)%nat ->
     var (column j df) = NaN \/ var (column j df) = Fin 0) ->
  all_equal NaN (values (pv_weights df)) /\
  proportional_variance df normalize
  = Ok (constant_series (df_index df) (if normalize then NaN else Fin 0)).
Proof.
  intros Hwf Hdeg. pose proof (pv_weights_degenerate df Hdeg) as Hw. split.
  - rewrite Hw. apply List.Forall_forall. now intros v (j & <- & _)%in_map_iff.
  - unfold proportional_variance.
    rewrite (pv_adjusted_of_nan_weights df Hwf Hw). now rewrite finish_constant.
Qed.

Lemma one_project_var (j : nat) : var (column j one_project) = NaN.
Proof. apply var_short. reflexivity. Qed.

Lemma proportional_variance_degenerate_witness :
  proportional_variance one_project true
  = Ok (constant_series (df_index one_project) NaN).
Proof.
  apply (proportional_variance_degenerate one_project true one_project_wf).
  intros j _. left. apply one_project_var.
Defined.

Lemma weighted_sum_bounds (w x : nat -> R) (lo hi : R) (js : list nat) :
  (forall j, In j js -> 0 <= w j /\ lo <= x j <= hi) ->
  lo * Rsum (map w js) <= Rsum (map (fun j => w j * x j) js)
  /\ Rsum (map (fun j => w j * x j) js) <= hi * Rsum (map w js).
Proof.
  induction js as [|j js IH]; intros H; simpl; [lra|].
  destruct (H j) as [Hw Hx]; [now left|].
  destruct IH as [IH1 IH2]; [intros k Hk; apply H; now right|].
  split; nra.
Qed.

Lemma weight_nonneg (df : DataFrame) (j : nat) :
  (2 <= length (df_values df))%nat -> 0 < total_variance df -> 0 <= weight df j.
Proof.
  intros Hlen Hpos. unfold weight.
  assert (0 <= variance (column j df))
    by (apply variance_nonneg; now rewrite length_column).
  apply Rmult_le_pos; [assumption|]. left. now apply Rinv_0_lt_compat.
Qed.

(** X5. The proportional-variance score of a project is a weighted average
    with nonnegative weights: when every score of the table lies in
    [[lo, hi]] (and some judge has a nonzero variance), so does every value
    returned with [normalize=False]. *)
Theorem proportional_variance_within_score_range (df : DataFrame) (lo hi : R)
  (res : Series) :
  wf_frame df ->
  (exists j v, (j < n_judges df)%nat /\ var (column j df) = Fin v /\ v <> 0) ->
  scores_within lo hi df ->
  proportional_variance df false = Ok res ->
  Forall (fun v => exists y, v = Fin y /\ lo <= y <= hi) (values res).
Proof.
  intros Hwf (j & v & Hj & Hvar & Hnz) Hin Hres.
  assert (Hv : exists j, (j < n_judges df)%nat /\ variance (column j df) <> 0).
  { exists j. split; [assumption|]. destruct (var_fin _ _ Hvar) as [_ <-]. exact Hnz. }
  pose proof (some_variance_two_rows df Hv) as Hlen.
  pose proof (total_variance_pos df Hlen Hv) as Hpos.
  pose proof (weights_sum_one df Hv) as Hone.
  unfold proportional_variance in Hres. injection Hres as <-.
  rewrite (pv_adjusted_scores df Hwf Hv).
  eapply Permutation_Forall;
    [symmetry; apply values_perm, sort_values_perm|].
  rewrite (weighted_spec_values df Hwf). apply List.Forall_forall.
  intros u (y & <- & (r & <- & Hr)%in_map_iff)%in_map_iff.
  exists (weighted_score df r). split; [reflexivity|].
  destruct Hwf as [_ Hrows]. rewrite List.Forall_forall in Hrows.
  unfold scores_within in Hin. rewrite List.Forall_forall in Hin.
  pose proof (Hrows r Hr) as Hlr. pose proof (Hin r Hr) as Hbr.
  rewrite List.Forall_forall in Hbr.
  destruct (weighted_sum_bounds (weight df) (fun k => nth k r 0) lo hi
              (seq 0 (n_judges df))) as [H1 H2].
  { intros k Hk%in_seq. split; [now apply weight_nonneg|].
    apply Hbr. apply nth_In. unfold n_judges in Hk. lia. }
  unfold weighted_score. rewrite Hone in H1, H2. lra.
Qed.

Lemma demo_scores_within : scores_within 0 10 demo_scores.
Proof. repeat constructor; simpl; lra. Qed.

Lemma proportional_variance_within_score_range_witness :
  exists res, proportional_variance demo_scores false = Ok res /\
    Forall (fun v => exists y, v = Fin y /\ 0 <= y <= 10) (values res).
Proof.
  assert (H : exists res, proportional_variance demo_scores false = Ok res)
    by (unfold proportional_variance; eauto).
  destruct H as [res H]. exists res. split; [exact H|].
  apply (proportional_variance_within_score_range demo_scores 0 10 res).
  - exact demo_scores_wf.
  - exists 0%nat, 8. split; [unfold n_judges; simpl; lia|].
    split; [exact demo_scores_variance | lra].
  - exact demo_scores_within.
  - exact H.
Defined.

(** ** Invariances of [kappa_adjusted] *)












(** ** The attendance blend: alignment, bounds and the mapping *)

Lemma blend_demo_ok :
  showcase_prescreening_score demo_adjusted demo_attendance_by_name (2 / 10) None
  = Ok [(LStr "P1", Fin (8 / 10 * (1 - 2 / 10) + 5 / 10 * (2 / 10)));
        (LStr "P2", Fin (3 / 10 * (1 - 2 / 10) + 1 * (2 / 10)))].
Proof.
  rewrite (showcase_ok _ _ demo_attendance_by_name (2 / 10) None eq_refl).
  - unfold series_at. simpl. reflexivity.
  - simpl. apply List.NoDup_cons; [simpl; intros [H|[]]; discriminate H|].
    apply List.NoDup_cons; [simpl; tauto | apply List.NoDup_nil].
  - simpl. tauto.
Qed.

(** With distinct attendance labels (as the code re-labels them) the two
    lookups decide the outcome: all score identifiers are found and the blend
    is computed row by row, or [.loc] raises for the ones that are not. *)
Lemma showcase_distinct_outcome (scores attendance attendance' : Series) (r : R)
  (mapping : option (gmap label label)) :
  remap_attendance attendance mapping = Ok attendance' ->
  List.NoDup (index attendance') ->
  (showcase_prescreening_score scores attendance r mapping
   = Ok (map (fun e => (fst e, nadd (nmul (snd e) (Fin (1 - r)))
                                    (nmul (series_at attendance' (fst e)) (Fin r))))
             scores) /\
   forall p, In p (index scores) -> In p (index attendance'))
  \/
  (exists ks,
     showcase_prescreening_score scores attendance r mapping = KeyError ks /\
     ks <> [] /\
     forall p, In p ks <-> In p (index scores) /\ ~ In p (index attendance')).
Proof.
  intros Hre Hnd.
  destruct (List.filter (fun k => negb (label_mem k (index attendance'))) (index scores))
    as [|k ks] eqn:E.
  - left.
    assert (Hall : forall p, In p (index scores) -> In p (index attendance')).
    { intros p Hp. apply label_mem_In.
      destruct (label_mem p (index attendance')) eqn:Hm; [reflexivity|].
      assert (Hin : In p (List.filter (fun k => negb (label_mem k (index attendance')))
                            (index scores))).
      { apply List.filter_In. split; [assumption | now rewrite Hm]. }
      rewrite E in Hin. inversion Hin. }
    split; [now apply showcase_ok | exact Hall].
  - right. exists (k :: ks). split.
    + unfold showcase_prescreening_score. rewrite Hre.
      cbn [mbind result_bind bind]. unfold loc. rewrite E. reflexivity.
    + split; [discriminate|]. intros p.
      rewrite <- E, List.filter_In, negb_true_iff. now rewrite label_mem_not_In.
Qed.

(** X8. When the attendance labels (re-labelled by the mapping when one is
    given) are distinct, the blend either returns a Series with exactly the
    index of [scores], in the same order - and then every score identifier
    is one of those labels - or raises [KeyError] naming exactly the score
    identifiers that are not among them: no project is dropped, added or
    given a default. *)
Theorem blend_returns_every_project (scores attendance attendance' : Series) (r : R)
  (mapping : option (gmap label label)) :
  remap_attendance attendance mapping = Ok attendance' ->
  List.NoDup (index attendance') ->
  (exists res,
     showcase_prescreening_score scores attendance r mapping = Ok res /\
     index res = index scores /\
     length res = length scores /\
     forall p, In p (index scores) -> In p (index attendance'))
  \/
  (exists ks,
     showcase_prescreening_score scores attendance r mapping = KeyError ks /\
     ks <> [] /\
     forall p, In p ks <-> In p (index scores) /\ ~ In p (index attendance')).
Proof.
  intros Hre Hnd.
  destruct (showcase_distinct_outcome scores attendance attendance' r mapping Hre Hnd)
    as [[E Hall] | H]; [left | right; exact H].
  eexists. split; [exact E|]. split; [|split; [|exact Hall]].
  - unfold index. rewrite map_map. reflexivity.
  - apply length_map.
Qed.

Lemma blend_returns_every_project_witness :
  exists res,
    showcase_prescreening_score demo_adjusted demo_attendance_by_name (2 / 10) None
    = Ok res /\
    index res = index demo_adjusted /\
    length res = length demo_adjusted.
Proof.
  destruct (blend_returns_every_project demo_adjusted demo_attendance_by_name
              demo_attendance_by_name (2 / 10) None eq_refl)
    as [(res & H1 & H2 & H3 & _) | (ks & H & _)].
  - simpl. apply List.NoDup_cons; [simpl; intros [H|[]]; discriminate H|].
    apply List.NoDup_cons; [simpl; tauto | apply List.NoDup_nil].
  - exists res. auto.
  - rewrite blend_demo_ok in H. discriminate H.
Defined.

Lemma translate_index_first (m : gmap label label) (pre post : list label) (x : label) :
  (forall y, In y pre -> m !! y <> None) -> m !! x = None ->
  translate_index m (pre ++ x :: post) = KeyError [x].
Proof.
  intros Hpre Hx. induction pre as [|y pre IH]; simpl.
  - now rewrite Hx.
  - destruct (m !! y) as [z|] eqn:E.
    + rewrite IH by (intros w Hw; apply Hpre; now right). reflexivity.
    + exfalso. apply (Hpre y); [now left | exact E].
Qed.

(** X9. With a mapping, every attendance label must be a key of the mapping:
    if one is not, the blend raises [KeyError] naming the first such label
    (the labels before it are keys, it is not), whatever the scores are -
    even when no score needs that attendance row. *)
Theorem unmapped_attendance_label_raises (scores attendance : Series) (r : R)
  (m : gmap label label) (pre post : list label) (x : label) :
  index attendance = pre ++ x :: post ->
  (forall y, In y pre -> m !! y <> None) ->
  m !! x = None ->
  showcase_prescreening_score scores attendance r (Some m) = KeyError [x].
Proof.
  intros Hidx Hpre Hx. unfold showcase_prescreening_score, remap_attendance.
  rewrite Hidx, (translate_index_first m pre post x Hpre Hx). reflexivity.
Qed.

Lemma unmapped_attendance_label_raises_witness :
  showcase_prescreening_score [] demo_attendance (2 / 10) (Some number_name_pairs_partial)
  = KeyError [LInt 2].
Proof.
  apply (unmapped_attendance_label_raises [] demo_attendance (2 / 10)
           number_name_pairs_partial [LInt 1] [] (LInt 2)).
  - reflexivity.
  - intros y [<-|[]]. discriminate.
  - reflexivity.
Defined.

Lemma series_get_none (s : Series) (k : label) :
  ~ In k (index s) -> series_get s k = None.
Proof.
  induction s as [|[l v] s IH]; simpl; [reflexivity|]. intros H.
  destruct (label_eqb l k) eqn:E.
  - apply label_eqb_eq in E. tauto.
  - apply IH. tauto.
Qed.

Lemma series_get_nodup (s : Series) (k : label) (v : num) :
  List.NoDup (index s) -> In (k, v) s -> series_get s k = Some v.
Proof.
  induction s as [|[l w] s IH]; simpl; [tauto|]. intros Hnd Hin.
  apply List.NoDup_cons_iff in Hnd as [Hl Hnd].
  destruct (label_eqb l k) eqn:E.
  - apply label_eqb_eq in E. subst l. destruct Hin as [[= ->]|Hin]; [reflexivity|].
    exfalso. apply Hl. unfold index. apply in_map_iff. exists (k, v). auto.
  - apply label_eqb_neq in E. destruct Hin as [[= -> _]|Hin]; [congruence|].
    now apply IH.
Qed.

Lemma series_at_perm (s t : Series) (k : label) :
  List.NoDup (index s) -> Permutation s t -> series_at s k = series_at t k.
Proof.
  intros Hnd Hp. unfold series_at.
  assert (Hnd' : List.NoDup (index t))
    by (eapply Permutation_NoDup; [apply index_perm; exact Hp | exact Hnd]).
  destruct (in_dec label_eq_dec k (index s)) as [Hin|Hout].
  - destruct (series_get_in s k Hin) as (v & -> & Hv).
    rewrite (series_get_nodup t k v Hnd'); [reflexivity|].
    eapply Permutation_in; eassumption.
  - rewrite (series_get_none s k Hout), (series_get_none t k); [reflexivity|].
    intros Hin. apply Hout.
    eapply Permutation_in; [symmetry; apply index_perm; exact Hp | exact Hin].
Qed.

Lemma label_mem_perm (k : label) (ks ks' : list label) :
  Permutation ks ks' -> label_mem k ks = label_mem k ks'.
Proof.
  intros Hp. destruct (label_mem k ks') eqn:E.
  - apply label_mem_In. apply label_mem_In in E.
    eapply Permutation_in; [symmetry; exact Hp | exact E].
  - apply label_mem_not_In. apply label_mem_not_In in E. intros Hin. apply E.
    eapply Permutation_in; eassumption.
Qed.

Lemma filter_label_perm (s t : Series) (k : label) :
  List.NoDup (index s) -> Permutation s t ->
  List.filter (fun e => label_eqb (fst e) k) s
  = List.filter (fun e => label_eqb (fst e) k) t.
Proof.
  intros Hnd Hp.
  assert (Hnd' : List.NoDup (index t))
    by (eapply Permutation_NoDup; [apply index_perm; exact Hp | exact Hnd]).
  destruct (in_dec label_eq_dec k (index s)) as [Hin|Hout].
  - rewrite (filter_label_unique s k Hnd Hin), (filter_label_unique t k Hnd').
    + now rewrite (series_at_perm s t k Hnd Hp).
    + eapply Permutation_in; [apply index_perm; exact Hp | exact Hin].
  - rewrite (filter_label_absent s k Hout), (filter_label_absent t k); [reflexivity|].
    intros Hin. apply Hout.
    eapply Permutation_in; [symmetry; apply index_perm; exact Hp | exact Hin].
Qed.

Lemma loc_perm (s t : Series) (keys : list label) :
  List.NoDup (index s) -> Permutation s t -> loc s keys = loc t keys.
Proof.
  intros Hnd Hp. unfold loc.
  rewrite (List.filter_ext (fun k => negb (label_mem k (index s)))
             (fun k => negb (label_mem k (index t))))
    by (intros k; f_equal; apply label_mem_perm, index_perm, Hp).
  destruct (List.filter _ keys); [|reflexivity]. f_equal.
  induction keys as [|k keys IH]; simpl; [reflexivity|].
  now rewrite IH, (filter_label_perm s t k Hnd Hp).
Qed.

(** X10. The blend lines scores and attendance up by label, not by position:
    without a mapping and with distinct attendance labels, reordering the
    attendance vector changes neither the result nor the error. *)
Theorem blend_ignores_attendance_order (scores attendance attendance2 : Series)
  (r : R) :
  List.NoDup (index attendance) -> Permutation attendance attendance2 ->
  showcase_prescreening_score scores attendance2 r None
  = showcase_prescreening_score scores attendance r None.
Proof.
  intros Hnd Hp. unfold showcase_prescreening_score. simpl.
  now rewrite (loc_perm attendance attendance2 (index scores) Hnd Hp).
Qed.

Lemma blend_ignores_attendance_order_witness :
  showcase_prescreening_score demo_adjusted
    (finite_series [(LStr "P2", 1); (LStr "P1", 5 / 10)]) (2 / 10) None
  = showcase_prescreening_score demo_adjusted demo_attendance_by_name (2 / 10) None.
Proof.
  apply blend_ignores_attendance_order.
  - simpl. apply List.NoDup_cons; [simpl; intros [H|[]]; discriminate H|].
    apply List.NoDup_cons; [simpl; tauto | apply List.NoDup_nil].
  - apply perm_swap.
Defined.

Lemma in_zip_with {A B C : Type} (f : A -> B -> C) (xs : list A) (ys : list B) (z : C) :
  In z (zip_with f xs ys) -> exists x y, In x xs /\ In y ys /\ z = f x y.
Proof.
  revert ys. induction xs as [|x xs IH]; intros [|y ys]; simpl; try tauto.
  intros [<-|Hin].
  - exists x, y. auto.
  - destruct (IH ys Hin) as (x' & y' & Hx & Hy & ->). exists x', y'. auto.
Qed.

Lemma loc_picks_entries (s picked : Series) (keys : list label) :
  loc s keys = Ok picked -> forall e, In e picked -> In e s.
Proof.
  unfold loc. destruct (List.filter _ keys); [|discriminate].
  intros [= <-] e (k & _ & He)%in_flat_map.
  now apply List.filter_In in He as [He _].
Qed.

(** Every value the row by row sum produces is a convex combination of a
    score and an attendance value. *)
Lemma blend_values_unit (scores attendance : Series) (r : R)
  (mapping : option (gmap label label)) (res : Series) :
  unit_valued scores -> unit_valued attendance -> 0 <= r <= 1 ->
  showcase_prescreening_score scores attendance r mapping = Ok res ->
  unit_valued res.
Proof.
  intros Hs Ha Hr. unfold showcase_prescreening_score.
  destruct (remap_attendance attendance mapping) as [att| | |] eqn:Hre;
    simpl; try discriminate.
  destruct (loc att (index scores)) as [picked| | |] eqn:Hloc; simpl; try discriminate.
  unfold series_add. destruct (decide _); [|discriminate]. intros [= <-].
  unfold unit_valued in *. rewrite List.Forall_forall in Hs, Ha.
  apply List.Forall_forall. intros z Hz%values_mkSeries_incl.
  apply in_zip_with in Hz as (u & w & Hu & Hw & ->).
  unfold series_scale in Hu, Hw. rewrite values_series_map in Hu, Hw.
  apply in_map_iff in Hu as (s & <- & Hs').
  apply in_map_iff in Hw as (a & <- & Ha').
  destruct (Hs s Hs') as (x & -> & Hx).
  assert (Hin : In a (values attendance)).
  { apply (remap_attendance_values _ _ _ a Hre).
    unfold values in *. apply in_map_iff in Ha' as (en & <- & Hen).
    apply in_map. eapply loc_picks_entries; eassumption. }
  destruct (Ha a Hin) as (y & -> & Hy).
  simpl. eexists. split; [reflexivity|]. nra.
Qed.

(** X11. The blend is a convex combination: when the scores and the
    attendance values are finite numbers in [[0, 1]], the ratio is in
    [[0, 1]] and the attendance labels (re-labelled by the mapping when one
    is given) are distinct, the call raises [KeyError] or returns a Series
    whose values are all in [[0, 1]]. *)
Theorem blend_stays_in_unit_interval (scores attendance attendance' : Series) (r : R)
  (mapping : option (gmap label label)) :
  unit_valued scores -> unit_valued attendance -> 0 <= r <= 1 ->
  remap_attendance attendance mapping = Ok attendance' ->
  List.NoDup (index attendance') ->
  (exists res,
     showcase_prescreening_score scores attendance r mapping = Ok res /\
     unit_valued res)
  \/
  (exists ks, showcase_prescreening_score scores attendance r mapping = KeyError ks).
Proof.
  intros Hs Ha Hr Hre Hnd.
  destruct (showcase_distinct_outcome scores attendance attendance' r mapping Hre Hnd)
    as [[E _] | (ks & E & _)]; [left | right; eauto].
  eexists. split; [exact E|].
  exact (blend_values_unit scores attendance r mapping _ Hs Ha Hr E).
Qed.

Lemma demo_adjusted_unit : unit_valued demo_adjusted.
Proof.
  unfold unit_valued. simpl. repeat constructor; eexists; (split; [reflexivity | lra]).
Qed.

Lemma demo_attendance_by_name_unit : unit_valued demo_attendance_by_name.
Proof.
  unfold unit_valued. simpl. repeat constructor; eexists; (split; [reflexivity | lra]).
Qed.

Lemma blend_stays_in_unit_interval_witness :
  exists res,
    showcase_prescreening_score demo_adjusted demo_attendance_by_name (2 / 10) None
    = Ok res /\
    unit_valued res.
Proof.
  destruct (blend_stays_in_unit_interval demo_adjusted demo_attendance_by_name
              demo_attendance_by_name (2 / 10) None)
    as [H | (ks & H)].
  - exact demo_adjusted_unit.
  - exact demo_attendance_by_name_unit.
  - lra.
  - reflexivity.
  - simpl. apply List.NoDup_cons; [simpl; intros [H|[]]; discriminate H|].
    apply List.NoDup_cons; [simpl; tauto | apply List.NoDup_nil].
  - exact H.
  - rewrite blend_demo_ok in H. discriminate H.
Defined.

Lemma remapped_entry (m : gmap label label) (att : Series) (ys : list label)
  (x : label) (v : num) :
  Forall2 (fun x y => m !! x = Some y) (index att) ys ->
  In (x, v) att ->
  exists y, m !! x = Some y /\ In (y, v) (mkSeries ys (values att)).
Proof.
  revert ys. induction att as [|[l w] att IH]; intros ys H Hin; [inversion Hin|].
  simpl in H. inversion H as [|? y ? ys' Hly Hrest]; subst.
  destruct Hin as [[= -> ->]|Hin].
  - exists y. split; [assumption | now left].
  - destruct (IH ys' Hrest Hin) as (y' & Hy' & Hin'). exists y'.
    split; [assumption | now right].
Qed.

(** The blend when the re-labelled attendance vector can be looked up. *)
Lemma showcase_with_remap (scores attendance attendance' : Series)
  (r : R) (m : gmap label label) :
  remap_attendance attendance (Some m) = Ok attendance' ->
  List.NoDup (index attendance') ->
  (forall p, In p (index scores) -> In p (index attendance')) ->
  exists res,
    showcase_prescreening_score scores attendance r (Some m) = Ok res /\
    index res = index scores /\
    forall p s x v,
      In (p, s) scores -> In (x, v) attendance -> m !! x = Some p ->
      In (p, nadd (nmul s (Fin (1 - r))) (nmul v (Fin r))) res.
Proof.
  intros Hre Hnd Hall. eexists. split; [|split].
  - exact (showcase_ok scores attendance attendance' r (Some m) Hre Hnd Hall).
  - unfold index. rewrite map_map. reflexivity.
  - intros p s x v Hps Hxv Hm.
    assert (Hat : series_at attendance' p = v).
    { unfold remap_attendance in Hre.
      destruct (translate_index_outcome m (index attendance))
        as [(ys & E & Hys) | (x' & E & _)]; rewrite E in Hre; simpl in Hre;
        [|discriminate].
      injection Hre as <-.
      destruct (remapped_entry m attendance ys x v Hys Hxv) as (y & Hy & Hin).
      assert (y = p) by congruence. subst y.
      unfold series_at. now rewrite (series_get_nodup _ p v Hnd Hin). }
    apply in_map_iff. exists (p, s). simpl. rewrite Hat. auto.
Qed.

(** X12. How the code uses the mapping: it re-labels the attendance vector,
    sending each attendance label [x] to [mapping[x]], and then looks the
    score identifiers up among the new labels.  When the new labels are
    distinct and contain every score identifier, the entry of project [p] is
    [scores[p] * (1 - r) + attendance[x] * r] for the attendance label [x]
    with [mapping[x] = p]. *)
Theorem blend_translates_attendance_labels (scores attendance attendance' : Series)
  (r : R) (m : gmap label label) :
  remap_attendance attendance (Some m) = Ok attendance' ->
  List.NoDup (index attendance') ->
  (forall p, In p (index scores) -> In p (index attendance')) ->
  exists res,
    showcase_prescreening_score scores attendance r (Some m) = Ok res /\
    index res = index scores /\
    forall p s x v,
      In (p, s) scores -> In (x, v) attendance -> m !! x = Some p ->
      In (p, nadd (nmul s (Fin (1 - r))) (nmul v (Fin r))) res.
Proof.
  exact (showcase_with_remap scores attendance attendance' r m).
Qed.

Lemma blend_translates_attendance_labels_witness :
  exists res,
    showcase_prescreening_score demo_adjusted demo_attendance (2 / 10)
      (Some number_name_pairs) = Ok res /\
    index res = index demo_adjusted.
Proof.
  destruct (blend_translates_attendance_labels demo_adjusted demo_attendance
              demo_attendance_by_name (2 / 10) number_name_pairs)
    as (res & H1 & H2 & _).
  - unfold remap_attendance. simpl.
    rewrite number_name_pairs_1, number_name_pairs_2. reflexivity.
  - simpl. apply List.NoDup_cons; [simpl; intros [H|[]]; discriminate H|].
    apply List.NoDup_cons; [simpl; tauto | apply List.NoDup_nil].
  - simpl. tauto.
  - exists res. split; assumption.
Defined.

(** ** The preprocessing tools: argument checks *)

Lemma filter_name_nil (cols : list Column) (key : label) :
  ~ In key (map col_name cols) ->
  List.filter (fun c => label_eqb (col_name c) key) cols = [].
Proof.
  induction cols as [|c cols IH]; simpl; [reflexivity|]. intros H.
  destruct (label_eqb (col_name c) key) eqn:E.
  - apply label_eqb_eq in E. tauto.
  - apply IH. tauto.
Qed.

Lemma filter_name_single (cols : list Column) (key : label) :
  List.NoDup (map col_name cols) ->
  (length (List.filter (fun c => label_eqb (col_name c) key) cols) <= 1)%nat.
Proof.
  induction cols as [|c cols IH]; simpl; [lia|].
  intros [Hc Hnd]%List.NoDup_cons_iff.
  destruct (label_eqb (col_name c) key) eqn:E; [|now apply IH].
  apply label_eqb_eq in E. subst key. rewrite filter_name_nil by assumption.
  simpl. lia.
Qed.

Lemma get_column_cases (raw : RawFrame) (key : label) :
  (exists c, get_column raw key = Done c /\ In c (rf_columns raw) /\ col_name c = key)
  \/ (get_column raw key = ColumnKeyError [key] /\ ~ In key (column_names raw))
  \/ (get_column raw key = Unmodelled /\ ~ List.NoDup (column_names raw)).
Proof.
  pose proof (filter_name_single (rf_columns raw) key) as Hsingle.
  unfold get_column.
  destruct (List.filter _ (rf_columns raw)) as [|c [|c' rest]] eqn:E.
  - right. left. split; [reflexivity|]. intros (c & Hc & Hin)%in_map_iff.
    assert (H : In c []); [|destruct H].
    rewrite <- E. apply List.filter_In. split; [assumption|].
    now apply label_eqb_eq.
  - left. exists c. split; [reflexivity|].
    assert (H : In c [c]) by now left.
    rewrite <- E in H. apply List.filter_In in H as [Hin Heq].
    apply label_eqb_eq in Heq. auto.
  - right. right. split; [reflexivity|]. intros Hnd.
    specialize (Hsingle Hnd). simpl in Hsingle. lia.
Qed.

(** With distinct column labels a lookup finds the column or raises. *)
Lemma get_column_distinct (raw : RawFrame) (key : label) :
  List.NoDup (column_names raw) ->
  (exists c, get_column raw key = Done c /\ In c (rf_columns raw) /\ col_name c = key)
  \/ (get_column raw key = ColumnKeyError [key] /\ ~ In key (column_names raw)).
Proof.
  intros Hnd. destruct (get_column_cases raw key) as [H | [H | [_ H]]]; auto.
  contradiction.
Qed.

Lemma drop_columns_cases (raw : RawFrame) (labels : list label) :
  (drop_columns raw labels
   = Done (mkRawFrame (rf_index raw)
             (List.filter (fun c => negb (label_mem (col_name c) labels))
                          (rf_columns raw)))
   /\ forall k, In k labels -> In k (column_names raw))
  \/ (exists ks, drop_columns raw labels = ColumnKeyError ks /\ ks <> [] /\
        forall k, In k ks <-> In k labels /\ ~ In k (column_names raw)).
Proof.
  unfold drop_columns.
  set (missing := List.filter (fun k => negb (label_mem k (column_names raw))) labels).
  assert (Hspec : forall k, In k missing <-> In k labels /\ ~ In k (column_names raw)).
  { intros k. unfold missing. rewrite List.filter_In, negb_true_iff.
    now rewrite label_mem_not_In. }
  destruct missing as [|k ks] eqn:E.
  - left. split; [reflexivity|]. intros k Hk.
    destruct (in_dec label_eq_dec k (column_names raw)) as [H|H]; [exact H|].
    exfalso. apply (proj2 (Hspec k)). auto.
  - right. exists (k :: ks). split; [reflexivity|]. split; [discriminate | exact Hspec].
Qed.

Lemma past_checks_bind {A B : Type} (r : outcome A) (k : A -> outcome B) :
  past_checks r -> (forall a, past_checks (k a)) -> past_checks (r ≫= k).
Proof. destruct r; simpl; auto. Qed.

Lemma past_checks_loaded (x : option RawFrame) : past_checks (loaded x).
Proof. now destruct x. Qed.

Lemma past_checks_get_column (raw : RawFrame) (key : label) :
  past_checks (get_column raw key).
Proof. unfold get_column. now destruct (List.filter _ _) as [|c [|c' rest]]. Qed.

Lemma past_checks_set_index (raw : RawFrame) (key : label) :
  past_checks (set_index raw key).
Proof.
  unfold set_index. apply past_checks_bind; [apply past_checks_get_column | now intros].
Qed.

Lemma past_checks_drop_columns (raw : RawFrame) (labels : list label) :
  past_checks (drop_columns raw labels).
Proof. unfold drop_columns. now destruct (List.filter _ labels). Qed.

Lemma past_checks_dict_zip (ks vs : list cell) (acc : gmap label label) :
  past_checks (dict_zip ks vs acc).
Proof.
  revert vs acc. induction ks as [|k ks IH]; intros vs acc; simpl; [exact I|].
  destruct k; destruct vs as [|v vs]; try exact I. destruct v; try exact I. apply IH.
Qed.

Section ToolChecks.

Variable read_csv : string -> option RawFrame.
Variable first_sheet : option string -> string -> option RawFrame.
Variable sheet_page : option string -> string -> Z -> option RawFrame.

Lemma reshape_scores_past_checks (r : outcome RawFrame) (index : label)
  (ignored_cols : list label) :
  past_checks r ->
  past_checks (raw_data ← r; raw_data ← set_index raw_data index;
               raw_data ← drop_columns raw_data ignored_cols;
               Done (select_number raw_data)).
Proof using Type.
  intros H. apply past_checks_bind; [exact H|]. intros raw.
  apply past_checks_bind; [apply past_checks_set_index|]. intros raw'.
  apply past_checks_bind; [apply past_checks_drop_columns | now intros].
Qed.

Lemma reshape_attendance_past_checks (r : outcome RawFrame) (index : label)
  (ignored_cols : list label) :
  past_checks r ->
  past_checks (raw_data ← r; raw_data ← set_index raw_data index;
               raw_data ← drop_columns raw_data ignored_cols;
               Done (count_ratio raw_data)).
Proof using Type.
  intros H. apply past_checks_bind; [exact H|]. intros raw.
  apply past_checks_bind; [apply past_checks_set_index|]. intros raw'.
  apply past_checks_bind; [apply past_checks_drop_columns | now intros].
Qed.

Lemma reshape_pairs_past_checks (r : outcome RawFrame) (name_col num_col : label) :
  past_checks r ->
  past_checks (raw_data ← r; nums ← get_column raw_data num_col;
               names ← get_column raw_data name_col;
               dict_zip (col_cells nums) (col_cells names) ∅).
Proof using Type.
  intros H. apply past_checks_bind; [exact H|]. intros raw.
  apply past_checks_bind; [apply past_checks_get_column|]. intros nums.
  apply past_checks_bind; [apply past_checks_get_column|]. intros names.
  apply past_checks_dict_zip.
Qed.

(** Which of the checks fires, by the arguments that are given. *)
Lemma get_project_scores_shape (csv_or_frame : option (string + RawFrame))
  (sheet_id credentials : option string) (index : label) (ignored_cols : list label) :
  let res := get_project_scores read_csv first_sheet csv_or_frame sheet_id
               credentials index ignored_cols in
  match given sheet_id, given csv_or_frame, given credentials with
  | true, true, _ => res = ValueError
  | true, false, false | false, _, true => res = TypeError
  | false, false, false => res = AttributeError
  | _, _, _ => past_checks res
  end.
Proof using Type.
  unfold get_project_scores, check_source.
  destruct sheet_id as [id|], csv_or_frame as [[path|frame]|], credentials as [cred|];
    simpl; try reflexivity;
    try (apply reshape_scores_past_checks; apply past_checks_loaded);
    apply (reshape_scores_past_checks (Done frame)); exact I.
Qed.

Lemma get_attendance_scores_shape (csv_or_frame : option (string + RawFrame))
  (sheet_id credentials : option string) (page_num : Z)
  (index : label) (ignored_cols : list label) :
  let res := get_attendance_scores read_csv sheet_page csv_or_frame sheet_id
               credentials page_num index ignored_cols in
  match given sheet_id, given csv_or_frame, given credentials with
  | true, true, _ => res = ValueError
  | true, false, false | false, _, true => res = TypeError
  | false, false, false => res = AttributeError
  | _, _, _ => past_checks res
  end.
Proof using Type.
  unfold get_attendance_scores, check_source.
  destruct sheet_id as [id|], csv_or_frame as [[path|frame]|], credentials as [cred|];
    simpl; try reflexivity;
    try (apply reshape_attendance_past_checks; apply past_checks_loaded);
    apply (reshape_attendance_past_checks (Done frame)); exact I.
Qed.

Lemma get_number_name_pairs_shape (csv_or_frame : option (string + RawFrame))
  (sheet_id credentials : option string) (name_col num_col : label) :
  let res := get_number_name_pairs read_csv first_sheet csv_or_frame sheet_id
               credentials name_col num_col in
  match given sheet_id, given csv_or_frame, given credentials with
  | true, true, _ => res = ValueError
  | true, false, false | false, _, true | false, false, false => res = TypeError
  | _, _, _ => past_checks res
  end.
Proof using Type.
  unfold get_number_name_pairs, check_source.
  destruct sheet_id as [id|], csv_or_frame as [[path|frame]|], credentials as [cred|];
    simpl; try reflexivity;
    try (apply reshape_pairs_past_checks; apply past_checks_loaded);
    apply (reshape_pairs_past_checks (Done frame)); exact I.
Qed.

Ltac by_shape H :=
  split;
  [ intros Hres;
    first [ solve [rewrite Hres in H; simpl in H; contradiction]
          | solve [congruence]
          | solve [repeat split; (reflexivity || discriminate || congruence)]
          | solve [left; simpl; discriminate]
          | solve [right; split; reflexivity] ]
  | intros Hc;
    first [ exact H
          | solve [exfalso; simpl in Hc; intuition congruence] ] ].

(** X13. The three tools raise [ValueError] exactly when both a sheet id and
    a CSV file or DataFrame are given - whatever the credentials are, and
    before anything is read. *)
Theorem tools_value_error (csv_or_frame : option (string + RawFrame))
  (sheet_id credentials : option string) (page_num : Z)
  (index name_col num_col : label) (ignored_cols : list label) :
  (get_project_scores read_csv first_sheet csv_or_frame sheet_id credentials
     index ignored_cols = ValueError
   <-> sheet_id <> None /\ csv_or_frame <> None) /\
  (get_attendance_scores read_csv sheet_page csv_or_frame sheet_id credentials
     page_num index ignored_cols = ValueError
   <-> sheet_id <> None /\ csv_or_frame <> None) /\
  (get_number_name_pairs read_csv first_sheet csv_or_frame sheet_id credentials
     name_col num_col = ValueError
   <-> sheet_id <> None /\ csv_or_frame <> None).
Proof using Type.
  pose proof (get_project_scores_shape csv_or_frame sheet_id credentials
                index ignored_cols) as H1.
  pose proof (get_attendance_scores_shape csv_or_frame sheet_id credentials
                page_num index ignored_cols) as H2.
  pose proof (get_number_name_pairs_shape csv_or_frame sheet_id credentials
                name_col num_col) as H3.
  destruct sheet_id as [id|], csv_or_frame as [cf|], credentials as [cred|];
    simpl in H1, H2, H3; (split; [by_shape H1 | split; [by_shape H2 | by_shape H3]]).
Qed.

(** X14. With a single source given, the tools raise [TypeError] exactly when
    one of sheet id and credentials comes without the other - also when the
    credentials accompany a CSV file or DataFrame.  With no source and no
    credentials at all the checks pass: [get_project_scores] and
    [get_attendance_scores] then raise [AttributeError], and
    [get_number_name_pairs] raises [TypeError]. *)
Theorem tools_type_error (csv_or_frame : option (string + RawFrame))
  (sheet_id credentials : option string) (page_num : Z)
  (index name_col num_col : label) (ignored_cols : list label) :
  (sheet_id = None \/ csv_or_frame = None) ->
  let scores := get_project_scores read_csv first_sheet csv_or_frame sheet_id
                  credentials index ignored_cols in
  let attendance := get_attendance_scores read_csv sheet_page csv_or_frame sheet_id
                      credentials page_num index ignored_cols in
  let pairs := get_number_name_pairs read_csv first_sheet csv_or_frame sheet_id
                 credentials name_col num_col in
  (scores = TypeError <-> given sheet_id <> given credentials) /\
  (attendance = TypeError <-> given sheet_id <> given credentials) /\
  (pairs = TypeError <->
     given sheet_id <> given credentials \/
     (sheet_id = None /\ csv_or_frame = None)) /\
  (scores = AttributeError <->
     sheet_id = None /\ credentials = None /\ csv_or_frame = None) /\
  (attendance = AttributeError <->
     sheet_id = None /\ credentials = None /\ csv_or_frame = None).
Proof using Type.
  intros Hone scores attendance pairs. subst scores attendance pairs.
  pose proof (get_project_scores_shape csv_or_frame sheet_id credentials
                index ignored_cols) as H1.
  pose proof (get_attendance_scores_shape csv_or_frame sheet_id credentials
                page_num index ignored_cols) as H2.
  pose proof (get_number_name_pairs_shape csv_or_frame sheet_id credentials
                name_col num_col) as H3.
  destruct sheet_id as [id|], csv_or_frame as [cf|], credentials as [cred|];
    simpl in H1, H2, H3; try (destruct Hone; discriminate);
    (split; [by_shape H1 | split; [by_shape H2 | split; [by_shape H3 |
      split; [by_shape H1 | by_shape H2]]]]).
Qed.

End ToolChecks.

Lemma tools_type_error_witness :
  get_project_scores no_csv no_sheet (Some (inl "data.csv"%string)) None
    (Some "key.json"%string) project_name [project_number] = TypeError.
Proof.
  destruct (tools_type_error no_csv no_sheet no_page (Some (inl "data.csv"%string))
              None (Some "key.json"%string) 0%Z project_name project_name
              project_number [project_number]) as [H _].
  - now left.
  - apply H. simpl. discriminate.
Defined.

(** ** The preprocessing tools: reshaping a DataFrame *)

Lemma filter_filter_and {A : Type} (p q : A -> bool) (l : list A) :
  List.filter q (List.filter p l) = List.filter (fun x => p x && q x) l.
Proof.
  induction l as [|x l IH]; simpl; [reflexivity|].
  destruct (p x); simpl; [destruct (q x)|]; now rewrite IH.
Qed.

Lemma names_after_set_index (raw : RawFrame) (key k : label) (cells : list cell) :
  In k (column_names
          (mkRawFrame cells
             (List.filter (fun c => negb (label_eqb (col_name c) key)) (rf_columns raw))))
  <-> In k (column_names raw) /\ k <> key.
Proof.
  unfold column_names. simpl. rewrite !in_map_iff. split.
  - intros (c & <- & [Hc Hne]%List.filter_In). split; [eauto|].
    apply negb_true_iff, label_eqb_neq in Hne. exact Hne.
  - intros [(c & <- & Hc) Hne]. exists c. split; [reflexivity|].
    apply List.filter_In. split; [assumption|].
    now apply negb_true_iff, label_eqb_neq.
Qed.

(** The reshaping steps shared by [get_project_scores] and
    [get_attendance_scores]. *)
Lemma reshape_cases (raw : RawFrame) (index : label) (ignored_cols : list label) :
  (~ In index (column_names raw) /\
   (raw_data ← set_index raw index; drop_columns raw_data ignored_cols)
   = ColumnKeyError [index])
  \/
  (In index (column_names raw) /\
   exists ks, ks <> [] /\
     (forall k, In k ks <->
        In k ignored_cols /\ (k = index \/ ~ In k (column_names raw))) /\
     (raw_data ← set_index raw index; drop_columns raw_data ignored_cols)
     = ColumnKeyError ks)
  \/
  (In index (column_names raw) /\
   (forall k, In k ignored_cols -> k <> index /\ In k (column_names raw)) /\
   exists c, get_column raw index = Done c /\ In c (rf_columns raw) /\
     (raw_data ← set_index raw index; drop_columns raw_data ignored_cols)
     = Done (mkRawFrame (col_cells c) (kept_columns raw index ignored_cols)))
  \/
  (~ List.NoDup (column_names raw) /\
   (raw_data ← set_index raw index; drop_columns raw_data ignored_cols)
   = Unmodelled).
Proof.
  destruct (get_column_cases raw index)
    as [(c & Hc & Hin & Hname) | [[Hc Hout] | [Hc Hdup]]].
  - assert (Hidx : In index (column_names raw)).
    { unfold column_names. apply in_map_iff. eauto. }
    pose (raw' := mkRawFrame (col_cells c)
                    (List.filter (fun c => negb (label_eqb (col_name c) index))
                                 (rf_columns raw))).
    assert (Hs : set_index raw index = Done raw')
      by (unfold set_index; now rewrite Hc).
    rewrite Hs. cbn [mbind outcome_mbind outcome_bind].
    destruct (drop_columns_cases raw' ignored_cols) as [[Hd Hall] | (ks & Hd & Hne & Hks)].
    + right. right. left. split; [assumption|]. split.
      * intros k Hk. apply (names_after_set_index raw index k (col_cells c)) in Hall;
          [tauto | exact Hk].
      * exists c. split; [assumption|]. split; [assumption|].
        rewrite Hd. unfold raw'. simpl.
        unfold kept_columns. now rewrite filter_filter_and.
    + right. left. split; [assumption|]. exists ks. split; [assumption|]. split.
      * intros k. rewrite Hks.
        unfold raw'. rewrite (names_after_set_index raw index k (col_cells c)).
        destruct (label_eq_dec k index); tauto.
      * exact Hd.
  - left. split; [assumption|]. unfold set_index. now rewrite Hc.
  - right. right. right. split; [assumption|]. unfold set_index. now rewrite Hc.
Qed.

Section ToolReshape.

Variable read_csv : string -> option RawFrame.
Variable first_sheet : option string -> string -> option RawFrame.
Variable sheet_page : option string -> string -> Z -> option RawFrame.

Lemma get_project_scores_frame (raw : RawFrame) (index : label)
  (ignored_cols : list label) :
  get_project_scores read_csv first_sheet (Some (inr raw)) None None index ignored_cols
  = (r ← (raw_data ← set_index raw index; drop_columns raw_data ignored_cols);
     Done (select_number r)).
Proof using Type.
  unfold get_project_scores. simpl. now destruct (set_index raw index).
Qed.

Lemma get_attendance_scores_frame (raw : RawFrame) (page_num : Z) (index : label)
  (ignored_cols : list label) :
  get_attendance_scores read_csv sheet_page (Some (inr raw)) None None page_num
    index ignored_cols
  = (r ← (raw_data ← set_index raw index; drop_columns raw_data ignored_cols);
     Done (count_ratio r)).
Proof using Type.
  unfold get_attendance_scores. simpl. now destruct (set_index raw index).
Qed.

(** X15. On a DataFrame with distinct column labels, [get_project_scores]
    and [get_attendance_scores] raise [KeyError] when the index column is not
    a column (naming it), and otherwise when a label of [ignored_cols] is not
    a column or is the index column itself (naming exactly those labels); in
    every other case they return. *)
Theorem tools_missing_column (raw : RawFrame) (page_num : Z) (index : label)
  (ignored_cols : list label) :
  List.NoDup (column_names raw) ->
  let scores := get_project_scores read_csv first_sheet (Some (inr raw)) None None
                  index ignored_cols in
  let attendance := get_attendance_scores read_csv sheet_page (Some (inr raw)) None
                      None page_num index ignored_cols in
  (~ In index (column_names raw) /\
   scores = ColumnKeyError [index] /\ attendance = ColumnKeyError [index])
  \/
  (In index (column_names raw) /\
   exists ks, ks <> [] /\
     (forall k, In k ks <->
        In k ignored_cols /\ (k = index \/ ~ In k (column_names raw))) /\
     scores = ColumnKeyError ks /\ attendance = ColumnKeyError ks)
  \/
  (In index (column_names raw) /\
   (forall k, In k ignored_cols -> k <> index /\ In k (column_names raw)) /\
   (exists out, scores = Done out) /\ (exists out, attendance = Done out)).
Proof using Type.
  intros Hnd scores attendance. subst scores attendance.
  rewrite get_project_scores_frame, get_attendance_scores_frame.
  destruct (reshape_cases raw index ignored_cols)
    as [[Hout E] | [(Hin & ks & Hne & Hks & E)
                   | [(Hin & Hall & c & Hc & _ & E) | [Hdup _]]]];
    [rewrite E; simpl .. | contradiction].
  - left. auto.
  - right. left. split; [assumption|]. exists ks. auto.
  - right. right. split; [assumption|]. split; [assumption|]. eauto.
Qed.

End ToolReshape.

Lemma NoDup_map_filter {A B : Type} (f : A -> B) (p : A -> bool) (l : list A) :
  List.NoDup (map f l) -> List.NoDup (map f (List.filter p l)).
Proof.
  induction l as [|x l IH]; simpl; [auto|]. intros [Hx Hl]%List.NoDup_cons_iff.
  destruct (p x); simpl; [|now apply IH].
  apply List.NoDup_cons; [|now apply IH].
  intros (y & Hy & [Hin _]%List.filter_In)%in_map_iff.
  apply Hx. apply in_map_iff. eauto.
Qed.

Lemma Forall_filter_keep {A : Type} (P : A -> Prop) (p : A -> bool) (l : list A) :
  Forall P l -> Forall P (List.filter p l).
Proof.
  intros H. apply List.Forall_forall. intros x [Hx _]%List.filter_In.
  rewrite List.Forall_forall in H. auto.
Qed.

Lemma wf_raw_filter (n : nat) (raw : RawFrame) (p : Column -> bool) (cells : list cell) :
  wf_raw n raw -> wf_raw n (mkRawFrame cells (List.filter p (rf_columns raw))).
Proof.
  intros [Hnd Hlen]. split.
  - unfold column_names. simpl. now apply NoDup_map_filter.
  - simpl. now apply Forall_filter_keep.
Qed.

Lemma map_fst_combine_seq {A B : Type} (l : list A) (f : nat -> B) (k : nat) :
  map fst (combine l (map f (seq k (length l)))) = l.
Proof.
  revert k. induction l as [|x l IH]; intros k; simpl; [reflexivity|].
  now rewrite IH.
Qed.

Lemma map_snd_combine_seq {A B : Type} (l : list A) (f : nat -> B) (k : nat) :
  map snd (combine l (map f (seq k (length l)))) = map f (seq k (length l)).
Proof.
  revert k. induction l as [|x l IH]; intros k; simpl; [reflexivity|].
  now rewrite IH.
Qed.

Lemma count_row_le (cols : list Column) (i : nat) :
  (count_row cols i <= length cols)%nat.
Proof.
  unfold count_row. induction cols as [|c cols IH]; simpl; [lia|].
  destruct (present _); simpl; lia.
Qed.

Lemma ratio_cases (cnt len : nat) :
  (cnt <= len)%nat ->
  (len = 0%nat /\ ndiv (Fin (INR cnt)) (Fin (INR len)) = NaN)
  \/ ((0 < len)%nat /\
      ndiv (Fin (INR cnt)) (Fin (INR len)) = Fin (INR cnt / INR len) /\
      0 <= INR cnt / INR len <= 1).
Proof.
  intros Hle. destruct len as [|len].
  - left. split; [reflexivity|]. assert (cnt = 0%nat) as -> by lia. simpl.
    destruct (Req_dec_T 0 0); [|lra]. rewrite sgn_0. unfold inf_of_sign.
    destruct (Rlt_dec 0 0); [lra | reflexivity].
  - right. split; [lia|].
    assert (Hpos : 0 < INR (S len)) by (apply lt_0_INR; lia).
    assert (Hc : 0 <= INR cnt) by apply pos_INR.
    assert (Hcl : INR cnt <= INR (S len)) by (apply le_INR; exact Hle).
    split.
    + unfold ndiv. destruct (Req_dec_T (INR (S len)) 0); [lra | reflexivity].
    + assert (Ht : 0 < / INR (S len)) by (now apply Rinv_0_lt_compat).
      assert (Hinv : INR (S len) * / INR (S len) = 1) by (apply Rinv_r; lra).
      unfold Rdiv. split; nra.
Qed.

Lemma as_series_values (s : list (cell * num)) (att : Series) :
  as_series s = Some att -> values att = map snd s.
Proof.
  revert att. induction s as [|[c v] s IH]; intros att; simpl.
  - now intros [= <-].
  - destruct (cell_label c); [|discriminate].
    destruct (as_series s) as [rest|]; [|discriminate].
    intros [= <-]. simpl. f_equal. now apply IH.
Qed.

Section ToolResults.

Variable read_csv : string -> option RawFrame.
Variable first_sheet : option string -> string -> option RawFrame.
Variable sheet_page : option string -> string -> Z -> option RawFrame.

(** X16. On a rectangular DataFrame with distinct column labels, whose index
    column exists and whose ignored columns are other existing columns, [get_project_scores] returns the rows
    labelled by the cells of the index column and keeps, in their order,
    exactly the columns of a number dtype that are neither the index nor
    ignored; columns of another dtype disappear without notice.  The result
    is rectangular with as many rows as the input. *)
Theorem project_scores_numeric_columns (raw : RawFrame) (n : nat) (index : label)
  (ignored_cols : list label) :
  wf_raw n raw ->
  In index (column_names raw) ->
  (forall k, In k ignored_cols -> k <> index /\ In k (column_names raw)) ->
  exists c out,
    get_column raw index = Done c /\
    get_project_scores read_csv first_sheet (Some (inr raw)) None None
      index ignored_cols = Done out /\
    rf_index out = col_cells c /\
    rf_columns out = List.filter col_numeric (kept_columns raw index ignored_cols) /\
    wf_raw n out /\ length (rf_index out) = n.
Proof using Type.
  intros Hwf Hidx Hign. rewrite get_project_scores_frame.
  destruct (reshape_cases raw index ignored_cols)
    as [[Hout _] | [(_ & ks & Hne & Hks & _)
                   | [(_ & _ & c & Hc & Hin & E) | [Hdup _]]]];
    [| | | destruct Hwf; contradiction].
  - contradiction.
  - exfalso. destruct ks as [|k ks]; [congruence|].
    destruct (proj1 (Hks k)) as [Hk Hbad]; [now left|].
    destruct (Hign k Hk). tauto.
  - exists c. eexists. split; [exact Hc|]. rewrite E. simpl.
    split; [reflexivity|]. split; [reflexivity|]. split; [reflexivity|]. split.
    + unfold select_number, kept_columns. simpl. rewrite filter_filter_and.
      now apply wf_raw_filter.
    + simpl. destruct Hwf as [_ Hlen]. rewrite List.Forall_forall in Hlen.
      now apply Hlen.
Qed.

(** X17. On a DataFrame, what [get_attendance_scores] returns is labelled by
    the cells of the index column and holds, for each row, the number of
    non-empty cells over the number of the remaining columns: a number
    between 0 and 1 when a column remains, and NaN in every row when none
    does.  Read as an attendance vector, it has all values in [[0, 1]]. *)
Theorem attendance_scores_are_ratios (raw : RawFrame) (page_num : Z) (index : label)
  (ignored_cols : list label) (out : list (cell * num)) :
  get_attendance_scores read_csv sheet_page (Some (inr raw)) None None page_num
    index ignored_cols = Done out ->
  let kept := kept_columns raw index ignored_cols in
  (exists c, get_column raw index = Done c /\ map fst out = col_cells c) /\
  map snd out
  = map (fun i => ndiv (Fin (INR (count_row kept i))) (Fin (INR (length kept))))
        (seq 0 (length out)) /\
  (kept = [] -> Forall (fun e => snd e = NaN) out) /\
  (kept <> [] -> Forall (fun e => exists y, snd e = Fin y /\ 0 <= y <= 1) out) /\
  (kept <> [] -> forall att, as_series out = Some att -> unit_valued att).
Proof using Type.
  intros Hres kept. rewrite get_attendance_scores_frame in Hres.
  destruct (reshape_cases raw index ignored_cols)
    as [[_ E] | [(_ & ks & _ & _ & E) | [(_ & _ & c & Hc & _ & E) | [_ E]]]];
    rewrite E in Hres; cbn [mbind outcome_mbind outcome_bind] in Hres;
    try discriminate.
  injection Hres as <-. unfold count_ratio. cbn [rf_index rf_columns]. fold kept.
  set (f := fun i => ndiv (Fin (INR (count_row kept i))) (Fin (INR (length kept)))).
  set (out := combine (col_cells c) (map f (seq 0 (length (col_cells c))))).
  assert (Hlen : length out = length (col_cells c)).
  { unfold out. rewrite length_combine, length_map, length_seq. lia. }
  assert (Hvals : forall e, In e out -> exists i, snd e = f i).
  { intros [x v] Hin. apply in_combine_r in Hin.
    apply in_map_iff in Hin as (i & <- & _). eauto. }
  assert (Hunit : kept <> [] ->
            Forall (fun e : cell * num => exists y, snd e = Fin y /\ 0 <= y <= 1) out).
  { intros Hne. apply List.Forall_forall. intros e He.
    destruct (Hvals e He) as (i & ->). unfold f.
    destruct (ratio_cases _ _ (count_row_le kept i)) as [[H0 _] | (_ & -> & Hb)].
    - destruct kept; [congruence | discriminate].
    - eauto. }
  split; [|split; [|split; [|split]]].
  - exists c. split; [assumption|]. apply map_fst_combine_seq.
  - rewrite Hlen. apply map_snd_combine_seq.
  - intros Hk. apply List.Forall_forall. intros e He.
    destruct (Hvals e He) as (i & ->). unfold f. rewrite Hk. simpl.
    destruct (Req_dec_T 0 0); [|lra]. rewrite sgn_0. unfold inf_of_sign.
    destruct (Rlt_dec 0 0); [lra | reflexivity].
  - exact Hunit.
  - intros Hne att Hatt. unfold unit_valued.
    rewrite (as_series_values _ _ Hatt). specialize (Hunit Hne).
    rewrite List.Forall_forall in Hunit. apply List.Forall_forall.
    intros v (e & <- & He)%in_map_iff. now apply Hunit.
Qed.

End ToolResults.

(** ** The preprocessing tools: the number to name dictionary *)

Lemma demo_roster_wf : wf_raw 2 demo_roster.
Proof.
  split.
  - unfold column_names, demo_roster, project_name, project_number. simpl.
    repeat (apply List.NoDup_cons;
            [simpl; intros H; decompose [or] H; try discriminate; assumption|]).
    apply List.NoDup_nil.
  - repeat constructor.
Qed.

Lemma project_scores_numeric_columns_witness :
  exists c out,
    get_column demo_roster project_name = Done c /\
    get_project_scores no_csv no_sheet (Some (inr demo_roster)) None None
      project_name [project_number] = Done out /\
    rf_index out = col_cells c /\
    rf_columns out
    = List.filter col_numeric (kept_columns demo_roster project_name [project_number]) /\
    wf_raw 2 out /\ length (rf_index out) = 2%nat.
Proof.
  apply (project_scores_numeric_columns no_csv no_sheet demo_roster 2
           project_name [project_number]).
  - exact demo_roster_wf.
  - simpl. now left.
  - intros k [<-|[]]. split; [discriminate|]. simpl. right. now left.
Defined.

Lemma demo_checkins_ratio :
  get_attendance_scores no_csv no_page (Some (inr demo_checkins)) None None 0
    project_number []
  = Done [(CLabel (LInt 1), ndiv (Fin (INR 1)) (Fin (INR 2)));
          (CLabel (LInt 2), ndiv (Fin (INR 2)) (Fin (INR 2)))].
Proof. reflexivity. Qed.

Lemma attendance_scores_are_ratios_witness :
  Forall (fun e : cell * num => exists y, snd e = Fin y /\ 0 <= y <= 1)
    [(CLabel (LInt 1), ndiv (Fin (INR 1)) (Fin (INR 2)));
     (CLabel (LInt 2), ndiv (Fin (INR 2)) (Fin (INR 2)))].
Proof.
  destruct (attendance_scores_are_ratios no_csv no_page demo_checkins 0
              project_number [] _ demo_checkins_ratio) as (_ & _ & _ & H & _).
  apply H. discriminate.
Defined.

Lemma dict_zip_labels (ns ss : list label) (acc : gmap label label) :
  dict_zip (map CLabel ns) (map CLabel ss) acc
  = Done (fold_left (fun m kv => <[fst kv := snd kv]> m) (combine ns ss) acc).
Proof.
  revert ss acc. induction ns as [|n ns IH]; intros [|s ss] acc; simpl;
    try reflexivity.
  apply IH.
Qed.

Lemma fold_insert_other (pairs : list (label * label)) (acc : gmap label label)
  (k : label) :
  ~ In k (map fst pairs) ->
  fold_left (fun m kv => <[fst kv := snd kv]> m) pairs acc !! k = acc !! k.
Proof.
  revert acc. induction pairs as [|[a b] pairs IH]; intros acc H; simpl; [reflexivity|].
  simpl in H. rewrite IH by tauto. apply lookup_insert_ne. tauto.
Qed.

Lemma fold_insert_last (pre post : list (label * label)) (acc : gmap label label)
  (k v : label) :
  ~ In k (map fst post) ->
  fold_left (fun m kv => <[fst kv := snd kv]> m) (pre ++ (k, v) :: post) acc !! k
  = Some v.
Proof.
  intros H. rewrite fold_left_app. simpl. rewrite fold_insert_other by assumption.
  apply lookup_insert_eq.
Qed.

Lemma fold_insert_none_acc (pairs : list (label * label)) (acc : gmap label label)
  (k : label) :
  fold_left (fun m kv => <[fst kv := snd kv]> m) pairs acc !! k = None
  <-> acc !! k = None /\ ~ In k (map fst pairs).
Proof.
  revert acc. induction pairs as [|[a b] pairs IH]; intros acc; simpl; [tauto|].
  rewrite IH, lookup_insert_None. intuition congruence.
Qed.

Lemma NoDup_fst_combine (ns ss : list label) :
  List.NoDup ns -> List.NoDup (map fst (combine ns ss)).
Proof.
  revert ss. induction ns as [|n ns IH]; intros [|s ss] H; simpl;
    try apply List.NoDup_nil.
  apply List.NoDup_cons_iff in H as [Hn Hns]. apply List.NoDup_cons; [|now apply IH].
  intros ([a b] & <- & Hin)%in_map_iff. apply Hn. simpl.
  eapply in_combine_l. exact Hin.
Qed.

Lemma NoDup_split_after {A B : Type} (l pre post : list (A * B)) (k : A) (v : B) :
  List.NoDup (map fst l) -> l = pre ++ (k, v) :: post -> ~ In k (map fst post).
Proof.
  intros Hnd -> Hin. rewrite map_app in Hnd. simpl in Hnd.
  apply List.NoDup_remove_2 in Hnd. apply Hnd. apply in_or_app. now right.
Qed.

Lemma dict_zip_outcome (ks vs : list cell) (acc : gmap label label) :
  (exists m, dict_zip ks vs acc = Done m) \/ dict_zip ks vs acc = Unmodelled.
Proof.
  revert vs acc. induction ks as [|k ks IH]; intros vs acc; simpl; [eauto|].
  destruct k; destruct vs as [|v vs]; eauto. destruct v; eauto.
Qed.

(** The dictionary built from a number column and a name column. *)
Lemma pairs_dictionary (ns ss : list label) :
  exists m,
    dict_zip (map CLabel ns) (map CLabel ss) ∅ = Done m /\
    (forall k, m !! k = None <-> ~ In k (map fst (combine ns ss))) /\
    (forall pre k v post,
       combine ns ss = pre ++ (k, v) :: post -> ~ In k (map fst post) ->
       m !! k = Some v) /\
    (List.NoDup ns -> forall k v, In (k, v) (combine ns ss) -> m !! k = Some v).
Proof.
  eexists. split; [apply dict_zip_labels|]. split; [|split].
  - intros k. rewrite fold_insert_none_acc, lookup_empty. tauto.
  - intros pre k v post -> Hpost. now apply fold_insert_last.
  - intros Hnd k v Hin. apply in_split in Hin as (pre & post & E).
    rewrite E. apply fold_insert_last.
    eapply NoDup_split_after; [|exact E]. now apply NoDup_fst_combine.
Qed.

Section ToolPairs.

Variable read_csv : string -> option RawFrame.
Variable first_sheet : option string -> string -> option RawFrame.

(** X18. On a DataFrame whose number and name columns hold strings or
    integers, [get_number_name_pairs] returns a dictionary from the cells of
    the number column to the cells of the name column of the same row: its
    keys are exactly the numbers, a number that occurs in several rows gets
    the name of the last of them, and with distinct numbers every row's
    number is sent to that row's name. *)
Theorem number_name_pairs_lookup (raw : RawFrame) (name_col num_col : label)
  (cn cs : Column) (ns ss : list label) :
  get_column raw num_col = Done cn -> col_cells cn = map CLabel ns ->
  get_column raw name_col = Done cs -> col_cells cs = map CLabel ss ->
  exists m,
    get_number_name_pairs read_csv first_sheet (Some (inr raw)) None None
      name_col num_col = Done m /\
    (forall k, m !! k = None <-> ~ In k (map fst (combine ns ss))) /\
    (forall pre k v post,
       combine ns ss = pre ++ (k, v) :: post -> ~ In k (map fst post) ->
       m !! k = Some v) /\
    (List.NoDup ns -> forall k v, In (k, v) (combine ns ss) -> m !! k = Some v).
Proof using Type.
  intros Hn Hns Hs Hss. unfold get_number_name_pairs. simpl.
  rewrite Hn. simpl. rewrite Hs. simpl. rewrite Hns, Hss.
  apply pairs_dictionary.
Qed.

(** X19. [get_number_name_pairs] on a DataFrame with distinct column labels
    looks the number column up first: without it the call raises [KeyError]
    naming [num_col], and with it but without the name column [KeyError]
    naming [name_col].  With both columns it raises no [KeyError]. *)
Theorem number_name_pairs_missing_column (raw : RawFrame) (name_col num_col : label) :
  List.NoDup (column_names raw) ->
  let pairs := get_number_name_pairs read_csv first_sheet (Some (inr raw)) None None
                 name_col num_col in
  (~ In num_col (column_names raw) -> pairs = ColumnKeyError [num_col]) /\
  (In num_col (column_names raw) -> ~ In name_col (column_names raw) ->
   pairs = ColumnKeyError [name_col]) /\
  (In num_col (column_names raw) -> In name_col (column_names raw) ->
   forall ks, pairs <> ColumnKeyError ks).
Proof using Type.
  intros Hnd pairs. subst pairs. unfold get_number_name_pairs. simpl.
  destruct (get_column_distinct raw num_col Hnd) as [(cn & Hn & Hcn & Hnn) | [Hn Hout]];
    rewrite Hn; simpl.
  - assert (Hin : In num_col (column_names raw)).
    { rewrite <- Hnn. unfold column_names. now apply in_map. }
    destruct (get_column_distinct raw name_col Hnd)
      as [(cs & Hs & Hcs & Hns) | [Hs Hout]]; rewrite Hs; simpl.
    + assert (Hin' : In name_col (column_names raw)).
      { rewrite <- Hns. unfold column_names. now apply in_map. }
      split; [tauto|]. split; [tauto|]. intros _ _ ks.
      destruct (dict_zip_outcome (col_cells cn) (col_cells cs) ∅) as [[m ->] | ->];
        discriminate.
    + split; [tauto|]. split; [reflexivity|]. tauto.
  - split; [reflexivity|]. split; tauto.
Qed.

End ToolPairs.

(** ** From the roster to the blend *)

Lemma number_name_pairs_lookup_witness :
  exists m,
    get_number_name_pairs no_csv no_sheet (Some (inr demo_roster)) None None
      project_name project_number = Done m /\
    m !! LInt 1 = Some (LStr "P1").
Proof.
  destruct (number_name_pairs_lookup no_csv no_sheet demo_roster
              project_name project_number
              (mkColumn project_number true [CLabel (LInt 1); CLabel (LInt 2)])
              (mkColumn project_name false [CLabel (LStr "P1"); CLabel (LStr "P2")])
              [LInt 1; LInt 2] [LStr "P1"; LStr "P2"])
    as (m & Hm & _ & Hlast & _); try reflexivity.
  exists m. split; [exact Hm|].
  apply (Hlast [] (LInt 1) (LStr "P1") [(LInt 2, LStr "P2")]); [reflexivity|].
  simpl. intros [H|[]]. discriminate H.
Defined.

Lemma in_combine_exists {A B : Type} (xs : list A) (ys : list B) (x : A) :
  length xs = length ys -> In x xs -> exists y, In (x, y) (combine xs ys).
Proof.
  revert ys. induction xs as [|a xs IH]; intros [|b ys] Hlen Hin; simpl in *;
    try tauto; try lia.
  destruct Hin as [->|Hin].
  - exists b. now left.
  - destruct (IH ys) as (y & Hy); [lia | assumption |]. exists y. now right.
Qed.

Lemma NoDup_snd_combine (ns ss : list label) :
  List.NoDup ss -> List.NoDup (map snd (combine ns ss)).
Proof.
  revert ss. induction ns as [|n ns IH]; intros [|s ss] H; simpl;
    try apply List.NoDup_nil.
  apply List.NoDup_cons_iff in H as [Hs Hss]. apply List.NoDup_cons; [|now apply IH].
  intros ([a b] & <- & Hin)%in_map_iff. apply Hs. simpl.
  eapply in_combine_r. exact Hin.
Qed.

Lemma NoDup_snd_inj {A B : Type} (l : list (A * B)) (a b : A) (y : B) :
  List.NoDup (map snd l) -> In (a, y) l -> In (b, y) l -> a = b.
Proof.
  induction l as [|[x z] l IH]; simpl; [tauto|].
  intros [Hz Hl]%List.NoDup_cons_iff [Ha|Ha] [Hb|Hb].
  - congruence.
  - injection Ha as -> ->. exfalso. apply Hz. apply in_map_iff. exists (b, y). auto.
  - injection Hb as -> ->. exfalso. apply Hz. apply in_map_iff. exists (a, y). auto.
  - now apply IH.
Qed.

Lemma Forall2_NoDup_inj {A B : Type} (P : A -> B -> Prop) (xs : list A) (ys : list B) :
  Forall2 P xs ys -> List.NoDup xs ->
  (forall x1 x2 y, In x1 xs -> In x2 xs -> P x1 y -> P x2 y -> x1 = x2) ->
  List.NoDup ys.
Proof.
  induction 1 as [|x y xs ys Hxy Hrest IH]; intros Hnd Hinj; [apply List.NoDup_nil|].
  apply List.NoDup_cons_iff in Hnd as [Hx Hnd]. apply List.NoDup_cons.
  - intros Hy. destruct (Forall2_in_r _ _ _ y Hrest Hy) as (x' & Hx' & Hp).
    apply Hx. rewrite (Hinj x x' y); auto; [now left | now right].
  - apply IH; [assumption|]. intros x1 x2 y' H1 H2. apply Hinj; now right.
Qed.

Lemma Forall2_length_eq {A B : Type} (P : A -> B -> Prop) (xs : list A) (ys : list B) :
  Forall2 P xs ys -> length xs = length ys.
Proof. induction 1; simpl; congruence. Qed.

Lemma translate_index_ok (m : gmap label label) (idx : list label) :
  (forall x, In x idx -> exists y, m !! x = Some y) ->
  exists ys, translate_index m idx = Ok ys /\
             Forall2 (fun x y => m !! x = Some y) idx ys.
Proof.
  intros H. destruct (translate_index_outcome m idx) as [Hok | (x & _ & Hx & Hnone)].
  - exact Hok.
  - destruct (H x Hx) as (y & Hy). congruence.
Qed.

Section Pipeline.

Variable read_csv : string -> option RawFrame.
Variable first_sheet : option string -> string -> option RawFrame.

(** X20. The dictionary of [get_number_name_pairs] is the mapping with which
    [showcase_prescreening_score] works.  Take a roster with distinct
    project numbers and distinct project names, an attendance vector keyed
    by distinct numbers of the roster, and scores keyed by names whose
    number is in the attendance vector: the blend with that dictionary
    returns, for each project, [score * (1 - r) + attendance * r] of the
    project's own roster row. *)
Theorem roster_dictionary_aligns_blend (raw : RawFrame) (name_col num_col : label)
  (cn cs : Column) (ns ss : list label) (scores attendance : Series) (r : R) :
  get_column raw num_col = Done cn -> col_cells cn = map CLabel ns ->
  get_column raw name_col = Done cs -> col_cells cs = map CLabel ss ->
  length ns = length ss -> List.NoDup ns -> List.NoDup ss ->
  List.NoDup (index attendance) ->
  (forall x, In x (index attendance) -> In x ns) ->
  (forall p, In p (index scores) ->
     exists n, In (n, p) (combine ns ss) /\ In n (index attendance)) ->
  exists m res,
    get_number_name_pairs read_csv first_sheet (Some (inr raw)) None None
      name_col num_col = Done m /\
    showcase_prescreening_score scores attendance r (Some m) = Ok res /\
    index res = index scores /\
    forall n p s v,
      In (n, p) (combine ns ss) -> In (p, s) scores -> In (n, v) attendance ->
      In (p, nadd (nmul s (Fin (1 - r))) (nmul v (Fin r))) res.
Proof using Type.
  intros Hn Hns Hs Hss Hlen Hndn Hnds Hnda Hatt Hsc.
  destruct (pairs_dictionary ns ss) as (m & Hm & _ & _ & Hlk).
  specialize (Hlk Hndn).
  assert (Hpairs : get_number_name_pairs read_csv first_sheet (Some (inr raw)) None
                     None name_col num_col = Done m).
  { unfold get_number_name_pairs. simpl. rewrite Hn. simpl. rewrite Hs. simpl.
    now rewrite Hns, Hss. }
  destruct (translate_index_ok m (index attendance)) as (ys & Hys & Hf2).
  { intros x Hx. destruct (in_combine_exists ns ss x Hlen (Hatt x Hx)) as (y & Hy).
    exists y. now apply Hlk. }
  set (att' := mkSeries ys (values attendance)).
  assert (Hre : remap_attendance attendance (Some m) = Ok att').
  { unfold remap_attendance. now rewrite Hys. }
  assert (Hidx : index att' = ys).
  { apply index_mkSeries. rewrite <- (Forall2_length_eq _ _ _ Hf2).
    unfold index, values. now rewrite !length_map. }
  assert (Hnd' : List.NoDup (index att')).
  { rewrite Hidx. apply (Forall2_NoDup_inj _ _ _ Hf2 Hnda).
    intros x1 x2 y H1 H2 Hy1 Hy2.
    destruct (in_combine_exists ns ss x1 Hlen (Hatt x1 H1)) as (y1 & Hc1).
    destruct (in_combine_exists ns ss x2 Hlen (Hatt x2 H2)) as (y2 & Hc2).
    pose proof (Hlk _ _ Hc1). pose proof (Hlk _ _ Hc2).
    assert (y1 = y) by congruence. assert (y2 = y) by congruence. subst y1 y2.
    exact (NoDup_snd_inj _ x1 x2 y (NoDup_snd_combine ns ss Hnds) Hc1 Hc2). }
  assert (Hall : forall p, In p (index scores) -> In p (index att')).
  { intros p Hp. destruct (Hsc p Hp) as (n & Hnp & Hnatt).
    destruct (series_get_in attendance n Hnatt) as (v & _ & Hv).
    destruct (remapped_entry m attendance ys n v Hf2 Hv) as (y & Hy & Hin).
    pose proof (Hlk _ _ Hnp). assert (y = p) by congruence. subst y.
    unfold index. apply in_map_iff. exists (p, v). auto. }
  destruct (showcase_with_remap scores attendance att' r m Hre Hnd' Hall)
    as (res & Hres & Hri & Hentries).
  exists m, res. split; [exact Hpairs|]. split; [exact Hres|]. split; [exact Hri|].
  intros n p s v Hnp Hps Hnv. apply (Hentries p s n v Hps Hnv). now apply Hlk.
Qed.

End Pipeline.

Lemma roster_dictionary_aligns_blend_witness :
  exists m res,
    get_number_name_pairs no_csv no_sheet (Some (inr demo_roster)) None None
      project_name project_number = Done m /\
    showcase_prescreening_score demo_adjusted demo_attendance (2 / 10) (Some m) = Ok res /\
    index res = index demo_adjusted.
Proof.
  destruct (roster_dictionary_aligns_blend no_csv no_sheet demo_roster
              project_name project_number
              (mkColumn project_number true [CLabel (LInt 1); CLabel (LInt 2)])
              (mkColumn project_name false [CLabel (LStr "P1"); CLabel (LStr "P2")])
              [LInt 1; LInt 2] [LStr "P1"; LStr "P2"]
              demo_adjusted demo_attendance (2 / 10))
    as (m & res & H1 & H2 & H3 & _); try reflexivity.
  - apply List.NoDup_cons; [simpl; intros [H|[]]; discriminate H|].
    apply List.NoDup_cons; [simpl; tauto | apply List.NoDup_nil].
  - apply List.NoDup_cons; [simpl; intros [H|[]]; discriminate H|].
    apply List.NoDup_cons; [simpl; tauto | apply List.NoDup_nil].
  - simpl. apply List.NoDup_cons; [simpl; intros [H|[]]; discriminate H|].
    apply List.NoDup_cons; [simpl; tauto | apply List.NoDup_nil].
  - simpl. tauto.
  - simpl. intros p [<-|[<-|[]]].
    + exists (LInt 1). split; [now left | now left].
    + exists (LInt 2). split; [right; now left | right; now left].
  - exists m, res. auto.
Defined.

(** ** Worked examples for the tools *)

Lemma demo_roster_no_numbers_distinct : List.NoDup (column_names demo_roster_no_numbers).
Proof.
  unfold column_names, demo_roster_no_numbers, project_name. simpl.
  repeat (apply List.NoDup_cons;
          [simpl; intros H; decompose [or] H; try discriminate; assumption|]).
  apply List.NoDup_nil.
Qed.

Lemma number_name_pairs_missing_column_witness :
  get_number_name_pairs no_csv no_sheet (Some (inr demo_roster_no_numbers)) None None
    project_name project_number = ColumnKeyError [project_number].
Proof.
  apply (number_name_pairs_missing_column no_csv no_sheet demo_roster_no_numbers
           project_name project_number demo_roster_no_numbers_distinct).
  unfold column_names, demo_roster_no_numbers, project_name, project_number. simpl.
  intros H. decompose [or] H; try discriminate; assumption.
Defined.

Lemma tools_missing_column_witness :
  get_project_scores no_csv no_sheet (Some (inr demo_roster)) None None
    project_name [LStr "Team"] = ColumnKeyError [LStr "Team"].
Proof.
  destruct (tools_missing_column no_csv no_sheet no_page demo_roster 0 project_name
              [LStr "Team"] (proj1 demo_roster_wf))
    as [(_ & H & _) | [(_ & ks & _ & _ & H & _) | (_ & _ & (out & H) & _)]];
    rewrite H; [discriminate H | | discriminate H].
  unfold get_project_scores in H. simpl in H. symmetry. exact H.
Defined.
